(** * Beans puzzle: generation engine and placement validation

    A shallow embedding of the puzzle script of the Beans game (solution
    generator, region partitioner, connectivity check, uniqueness counter,
    orchestrating loop and the player-side checker), followed by the
    properties established about it.

    Conventions of the embedding.
    - JavaScript numbers that hold grid coordinates, cell indices, region
      ids and counters are integers of [Z]; loop indices that only walk an
      array are [nat].
    - An array is a [list]; a read [a[i]] is the stdpp lookup [a !! i],
      where [None] stands for JavaScript's [undefined] (which is [!==] to
      every number); a [Set] of numbers is a [gset].
    - [Math.floor(Math.random() * k)] is a draw from an arbitrary oracle
      [rnd : nat -> nat] taken modulo [k]; the oracle is consulted at a
      cursor that advances by one per draw.  Quantifying over [rnd] and
      the cursor quantifies over every sequence of random choices.
    - [while] loops whose termination is not structural carry a fuel
      argument and return [None] when it runs out; the totality lemmas
      show that the fuel the callers pass is always enough.
    - Console output and DOM updates are not part of the state, except
      where a function's outcome is only visible through them; there the
      outcome is returned as a value. *)

From stdpp Require Import base option list sets gmap.
From Stdlib Require Import ZArith Lia.

Local Open Scope Z_scope.

(** ** Game state *)

Definition gridSize : Z := 8.

Record Pos := mkPos { row : Z; col : Z }.

(** An entry of [beansPlaced]: [{row, col, region}]. *)
Record Bean := mkBean { bean_row : Z; bean_col : Z; bean_region : option Z }.

Global Instance Pos_eq_dec : EqDecision Pos.
Proof. solve_decision. Defined.

Global Instance Bean_eq_dec : EqDecision Bean.
Proof. solve_decision. Defined.

(** The module-level variables of the script that the modelled functions
    read or write. *)
Record Game := mkGame {
  regions : list Z;
  beansPlaced : list Bean;
  xMarkers : list Pos;
  autoXMarkers : list Pos;
  solution : list Pos;
  gameActive : bool
}.

Definition set_regions (g : Game) (r : list Z) : Game :=
  mkGame r (beansPlaced g) (xMarkers g) (autoXMarkers g) (solution g) (gameActive g).

Definition set_solution (g : Game) (s : list Pos) : Game :=
  mkGame (regions g) (beansPlaced g) (xMarkers g) (autoXMarkers g) s (gameActive g).

Definition set_beansPlaced (g : Game) (b : list Bean) : Game :=
  mkGame (regions g) b (xMarkers g) (autoXMarkers g) (solution g) (gameActive g).

Definition set_gameActive (g : Game) (b : bool) : Game :=
  mkGame (regions g) (beansPlaced g) (xMarkers g) (autoXMarkers g) (solution g) b.

(** [row * gridSize + col] *)
Definition cellIndex (r c : Z) : Z := r * gridSize + c.

(** [regions[index]] for an integer index. *)
Definition regionAt (rs : list Z) (index : Z) : option Z :=
  if 0 <=? index then rs !! Z.to_nat index else None.

(** [regions[index] = v].  The modelled code only writes at indices of
    cells on the board, into an array of [gridSize * gridSize] entries; a
    write outside the array (where JavaScript would grow it) leaves the
    list unchanged. *)
Definition setRegion (rs : list Z) (index : Z) (v : Z) : list Z :=
  if 0 <=? index then <[Z.to_nat index := v]> rs else rs.

(** [rowDiff <= 1 && colDiff <= 1] *)
Definition touching (r1 c1 r2 c2 : Z) : bool :=
  (Z.abs (r1 - r2) <=? 1) && (Z.abs (c1 - c2) <=? 1).

(** ** Placement validation *)

Fixpoint isValidPlacement (r c : Z) (existingBeans : list Pos) : bool :=
  match existingBeans with
  | [] => true
  | bean :: rest =>
      if touching (row bean) (col bean) r c then false
      else isValidPlacement r c rest
  end.

(** ** Random source and shuffling *)

Section Random.
Variable rnd : nat -> nat.

(** [Math.floor(Math.random() * k)] at cursor [cur]. *)
Definition randomBelow (k : nat) (cur : nat) : nat := (rnd cur mod k)%nat.

(** [[array[i], array[j]] = [array[j], array[i]]] *)
Definition swap {A} (array : list A) (i j : nat) : list A :=
  match array !! i, array !! j with
  | Some x, Some y => <[j := x]> (<[i := y]> array)
  | _, _ => array
  end.

(** The loop [for (i = start; i > 0; i--)] of the Fisher-Yates shuffle. *)
Fixpoint shuffleFrom {A} (i : nat) (array : list A) (cur : nat) : list A * nat :=
  match i with
  | O => (array, cur)
  | S i' =>
      let j := randomBelow (i + 1) cur in
      shuffleFrom i' (swap array i j) (S cur)
  end.

Definition shuffleArray {A} (array : list A) (cur : nat) : list A * nat :=
  shuffleFrom (length array - 1)%nat array cur.

(** ** Solution generation *)

(** The scan of the shuffled columns for one row: the first column that
    is unused and does not touch an earlier bean is taken.  The result
    carries the [placed] flag. *)
Fixpoint placeInRow (r : Z) (cols : list Z) (usedCols : gset Z) (sol : list Pos)
  : list Pos * gset Z * bool :=
  match cols with
  | [] => (sol, usedCols, false)
  | c :: rest =>
      if decide (c ∈ usedCols) then placeInRow r rest usedCols sol
      else if isValidPlacement r c sol
           then (sol ++ [mkPos r c], usedCols ∪ {[c]}, true)
           else placeInRow r rest usedCols sol
  end.

(** [for (row = ...; row < gridSize; row++)] with [n] rows still to do;
    the loop is left at the first row that cannot be filled. *)
Fixpoint placeRows (n : nat) (r : Z) (cols : list Z) (usedCols : gset Z)
    (sol : list Pos) : list Pos :=
  match n with
  | O => sol
  | S n' =>
      let '(sol', used', placed) := placeInRow r cols usedCols sol in
      if placed then placeRows n' (r + 1) cols used' sol' else sol'
  end.

(** One pass of the body of the [while] loop. *)
Definition attempt (cur : nat) : list Pos * nat :=
  let availableCols := seqZ 0 gridSize in
  let '(shuffled, cur') := shuffleArray availableCols cur in
  (placeRows (Z.to_nat gridSize) 0 shuffled ∅ [], cur').

Definition maxAttempts : nat := 1000.

(** [while (solution.length < gridSize && attempts < maxAttempts)], with
    [remaining = maxAttempts - attempts]. *)
Fixpoint attemptLoop (remaining : nat) (sol : list Pos) (cur : nat)
  : list Pos * nat :=
  match remaining with
  | O => (sol, cur)
  | S remaining' =>
      if Z.of_nat (length sol) <? gridSize then
        let '(sol', cur') := attempt cur in
        attemptLoop remaining' sol' cur'
      else (sol, cur)
  end.

Definition generateFallbackSolution : list Pos :=
  [ mkPos 0 0; mkPos 1 4; mkPos 2 7; mkPos 3 5;
    mkPos 4 2; mkPos 5 6; mkPos 6 1; mkPos 7 3 ].

(** [generateValidSolution]: the final [validateSolution()] call only
    writes to the console and is left out. *)
Definition generateValidSolution (g : Game) (cur : nat) : Game * nat :=
  let '(sol, cur') := attemptLoop maxAttempts [] cur in
  let sol' :=
    if decide (Z.of_nat (length sol) = gridSize) then sol
    else generateFallbackSolution in
  (set_solution g sol', cur').
End Random.

(** ** Connectivity check *)

(** The entries [{row, col, index}] that [isRegionConnected] builds. *)
Record Cell := mkCell { cell_row : Z; cell_col : Z; cell_index : Z }.

(** [row < 0 || row >= gridSize || col < 0 || col >= gridSize] *)
Definition outOfBounds (r c : Z) : bool :=
  (r <? 0) || (gridSize <=? r) || (c <? 0) || (gridSize <=? c).

(** Up, down, left, right. *)
Definition neighbors4 (r c : Z) : list Pos :=
  [ mkPos (r - 1) c; mkPos (r + 1) c; mkPos r (c - 1); mkPos r (c + 1) ].

(** The cells labelled [regionNumber], by increasing index.  The index is
    non-negative, where [Math.floor(i / gridSize)] and [i % gridSize] are
    [/] and [mod]. *)
Definition regionCellsOf (rs : list Z) (regionNumber : Z) : list Cell :=
  flat_map (fun i =>
      if decide (regionAt rs i = Some regionNumber)
      then [mkCell (i / gridSize) (i mod gridSize) i] else [])
    (seqZ 0 (gridSize * gridSize)).

(** The body of [for (const neighbor of neighbors)] in the flood fill,
    acting on [(visited, queue)]. *)
Definition visitNeighbor (rs : list Z) (regionNumber : Z)
    (acc : gset Z * list Cell) (neighbor : Pos) : gset Z * list Cell :=
  let '(visited, queue) := acc in
  if outOfBounds (row neighbor) (col neighbor) then acc
  else
    let neighborIndex := cellIndex (row neighbor) (col neighbor) in
    if decide (neighborIndex ∈ visited) then acc
    else if decide (regionAt rs neighborIndex = Some regionNumber)
    then ({[neighborIndex]} ∪ visited,
          queue ++ [mkCell (row neighbor) (col neighbor) neighborIndex])
    else acc.

(** [while (queue.length > 0)] *)
Fixpoint floodFill (fuel : nat) (rs : list Z) (regionNumber : Z)
    (visited : gset Z) (queue : list Cell) : option (gset Z) :=
  match queue with
  | [] => Some visited
  | current :: rest =>
      match fuel with
      | O => None
      | S fuel' =>
          let '(visited', queue') :=
            foldl (visitNeighbor rs regionNumber) (visited, rest)
                  (neighbors4 (cell_row current) (cell_col current)) in
          floodFill fuel' rs regionNumber visited' queue'
      end
  end.

Definition floodFuel : nat := Z.to_nat (gridSize * gridSize).

Definition isRegionConnected (rs : list Z) (regionNumber : Z) : option bool :=
  let regionCells := regionCellsOf rs regionNumber in
  match regionCells with
  | [] | [_] => Some true
  | first :: _ =>
      visited ← floodFill floodFuel rs regionNumber {[cell_index first]} [first];
      Some (bool_decide (size visited = length regionCells))
  end.

(** ** Region generation *)

(** The local state of the growth loop together with the [regions]
    array it fills. *)
Record Growth := mkGrowth {
  g_regions : list Z;
  queues : list (list Pos);
  unassignedCount : Z;
  addedThisRound : bool
}.

(** [solution.forEach((bean, regionIndex) => regions[index] = regionIndex)],
    from index [k] on. *)
Fixpoint seedRegions (k : nat) (sol : list Pos) (rs : list Z) : list Z :=
  match sol with
  | [] => rs
  | bean :: rest =>
      seedRegions (S k) rest
        (setRegion rs (cellIndex (row bean) (col bean)) (Z.of_nat k))
  end.

(** [solution.forEach((bean, regionIndex) => queues[regionIndex].push(...))] *)
Fixpoint seedQueues (k : nat) (sol : list Pos) (qs : list (list Pos))
  : list (list Pos) :=
  match sol with
  | [] => qs
  | bean :: rest =>
      seedQueues (S k) rest
        (alter (fun q => q ++ [mkPos (row bean) (col bean)]) k qs)
  end.

Definition initialGrowth (sol : list Pos) : Growth :=
  mkGrowth
    (seedRegions 0 sol (replicate (Z.to_nat (gridSize * gridSize)) (-1)))
    (seedQueues 0 sol (replicate (Z.to_nat gridSize) []))
    (gridSize * gridSize - gridSize)
    false.

(** [for (const neighbor of neighbors)] of the growth step: the first
    unassigned neighbour on the board is claimed. *)
Fixpoint claimFirst (regionIndex : nat) (neighbors : list Pos) (st : Growth)
  : Growth :=
  match neighbors with
  | [] => st
  | neighbor :: rest =>
      if outOfBounds (row neighbor) (col neighbor)
      then claimFirst regionIndex rest st
      else
        let neighborIndex := cellIndex (row neighbor) (col neighbor) in
        if decide (regionAt (g_regions st) neighborIndex = Some (-1))
        then mkGrowth
               (setRegion (g_regions st) neighborIndex (Z.of_nat regionIndex))
               (alter (fun q => q ++ [neighbor]) regionIndex (queues st))
               (unassignedCount st - 1)
               true
        else claimFirst regionIndex rest st
  end.

(** The stall fill's helper: the list of offsets [(dr, dc)] in the order
    the three nested loops of [findClosestRegion] visit them. *)
Definition ringOffsets : list (Z * Z) :=
  distance ← seqZ 1 (gridSize - 1);
  dr ← seqZ (- distance) (2 * distance + 1);
  dc ← seqZ (- distance) (2 * distance + 1);
  [(dr, dc)].

(** The scan of [findClosestRegion]; [0] is the fallback after the loops.
    The index read is that of a cell on the board, inside the array. *)
Fixpoint firstAssigned (rs : list Z) (r c : Z) (offsets : list (Z * Z)) : Z :=
  match offsets with
  | [] => 0
  | (dr, dc) :: rest =>
      let newRow := r + dr in
      let newCol := c + dc in
      if (0 <=? newRow) && (newRow <? gridSize) && (0 <=? newCol) && (newCol <? gridSize)
      then match regionAt rs (cellIndex newRow newCol) with
           | Some v => if decide (v = -1) then firstAssigned rs r c rest else v
           | None => firstAssigned rs r c rest
           end
      else firstAssigned rs r c rest
  end.

Definition findClosestRegion (rs : list Z) (index : Z) : Z :=
  firstAssigned rs (index / gridSize) (index mod gridSize) ringOffsets.

(** The body of the stall fill's loop at index [i]:
    [if (regions[i] === -1) { regions[i] = findClosestRegion(i); unassignedCount--; }] *)
Definition stallStep (st : Growth) (i : Z) : Growth :=
  if decide (regionAt (g_regions st) i = Some (-1))
  then mkGrowth (setRegion (g_regions st) i (findClosestRegion (g_regions st) i))
                (queues st) (unassignedCount st - 1) (addedThisRound st)
  else st.

(** [for (i = 0; i < gridSize * gridSize; i++)] of the stall fill. *)
Definition stallFill (st : Growth) : Growth :=
  foldl stallStep st (seqZ 0 (gridSize * gridSize)).

(** How the growth loop is left: the counter reached zero, or a round
    added nothing and the stall fill is about to run on the state held. *)
Inductive LoopExit :=
  | BoardFull (st : Growth)
  | Stalled (st : Growth).

Definition finishGrowth (e : LoopExit) : Growth :=
  match e with
  | BoardFull st => st
  | Stalled st => stallFill st
  end.

(** Outcome of [generateRegionsFromSolution], as its last console line
    tells it. *)
Inductive Verdict :=
  | AllRegionsVerified
  | MaxAttemptsReached.

Definition maxRegenerationAttempts : Z := 10.

Definition growFuel : nat := Z.to_nat (gridSize * gridSize).

(** [for (r = 0; r < gridSize; r++) if (!isRegionConnected(r)) ...]:
    [Some false] at the first region found disconnected. *)
Fixpoint allConnected (rs : list Z) (ids : list Z) : option bool :=
  match ids with
  | [] => Some true
  | r :: rest =>
      connected ← isRegionConnected rs r;
      if connected : bool then allConnected rs rest else Some false
  end.

Section Generation.
Variable rnd : nat -> nat.

(** One region's turn within a round. *)
Definition growTurn (regionIndex : nat) (st : Growth) (cur : nat) : Growth * nat :=
  match queues st !! regionIndex with
  | Some (current :: rest) =>
      let st1 := mkGrowth (g_regions st) (<[regionIndex := rest]> (queues st))
                          (unassignedCount st) (addedThisRound st) in
      let '(neighbors, cur') :=
        shuffleArray rnd (neighbors4 (row current) (col current)) cur in
      (claimFirst regionIndex neighbors st1, cur')
  | _ => (st, cur)
  end.

(** [for (regionIndex = 0; regionIndex < gridSize; regionIndex++)] *)
Definition growRound (st : Growth) (cur : nat) : Growth * nat :=
  foldl (fun acc regionIndex => growTurn regionIndex acc.1 acc.2)
        (st, cur) (seq 0 (Z.to_nat gridSize)).

(** [while (unassignedCount > 0)] *)
Fixpoint growLoop (fuel : nat) (st : Growth) (cur : nat)
  : option (LoopExit * nat) :=
  if unassignedCount st <=? 0 then Some (BoardFull st, cur)
  else
    match fuel with
    | O => None
    | S fuel' =>
        let st0 := mkGrowth (g_regions st) (queues st) (unassignedCount st) false in
        let '(st1, cur1) := growRound st0 cur in
        if addedThisRound st1 then growLoop fuel' st1 cur1
        else Some (Stalled st1, cur1)
    end.

(** The body of [generateRegionsFromSolution] up to the connectivity
    loop: the regions array it leaves in [regions]. *)
Definition growRegions (sol : list Pos) (cur : nat) : option (list Z * nat) :=
  '(e, cur') ← growLoop growFuel (initialGrowth sol) cur;
  Some (g_regions (finishGrowth e), cur').

(** [generateRegionsFromSolution(attemptNumber)] with
    [budget = maxRegenerationAttempts - attemptNumber]. *)
Fixpoint regenerate (budget : nat) (g : Game) (cur : nat)
  : option (Game * nat * Verdict) :=
  match budget with
  | O => Some (g, cur, MaxAttemptsReached)
  | S budget' =>
      '(rs, cur1) ← growRegions (solution g) cur;
      let g1 := set_regions g rs in
      ok ← allConnected rs (seqZ 0 gridSize);
      if ok : bool then Some (g1, cur1, AllRegionsVerified)
      else regenerate budget' g1 cur1
  end.

Definition generateRegionsFromSolution (attemptNumber : Z) (g : Game) (cur : nat)
  : option (Game * nat * Verdict) :=
  regenerate (Z.to_nat (maxRegenerationAttempts - attemptNumber)) g cur.
End Generation.

(** ** Counting solutions *)

(** What the recursive helper [solve] mutates: the counter of the
    enclosing call and the three collections passed down by reference. *)
Record Search := mkSearch {
  solutionCount : Z;
  placedBeans : list Pos;
  usedCols : gset Z;
  usedRegions : gset (option Z)
}.

Definition maxSolutions : Z := 2.

(** The inner loop computing [touchesExisting]. *)
Fixpoint touchesExisting (r c : Z) (placed : list Pos) : bool :=
  match placed with
  | [] => false
  | bean :: rest =>
      if touching (row bean) (col bean) r c then true
      else touchesExisting r c rest
  end.

(** [placedBeans.pop()] *)
Definition pop {A} (l : list A) : list A := take (length l - 1)%nat l.

(** The machine state while counting: the globals and the search state. *)
Definition Machine : Type := Game * Search.

(** [for (col = ...; col < gridSize; col++)] inside [solve], over the
    columns still to try; [rec] is the recursive call for the next row. *)
Fixpoint tryCols (rec : Machine -> option (bool * Machine)) (r : Z)
    (cols : list Z) (m : Machine) : option (bool * Machine) :=
  match cols with
  | [] => Some (false, m)
  | c :: rest =>
      let '(g, s) := m in
      if decide (c ∈ usedCols s) then tryCols rec r rest m
      else
        let regionIndex := regionAt (regions g) (cellIndex r c) in
        if decide (regionIndex ∈ usedRegions s) then tryCols rec r rest m
        else if touchesExisting r c (placedBeans s) then tryCols rec r rest m
        else
          let s1 := mkSearch (solutionCount s) (placedBeans s ++ [mkPos r c])
                             ({[c]} ∪ usedCols s) ({[regionIndex]} ∪ usedRegions s) in
          '(shouldStop, (g2, s2)) ← rec (g, s1);
          let s3 := mkSearch (solutionCount s2) (pop (placedBeans s2))
                             (usedCols s2 ∖ {[c]}) (usedRegions s2 ∖ {[regionIndex]}) in
          if shouldStop : bool then Some (true, (g2, s3))
          else tryCols rec r rest (g2, s3)
  end.

Fixpoint solve (fuel : nat) (r : Z) (m : Machine) : option (bool * Machine) :=
  if decide (r = gridSize) then
    let '(g, s) := m in
    let s' := mkSearch (solutionCount s + 1) (placedBeans s) (usedCols s) (usedRegions s) in
    Some (bool_decide (maxSolutions ≤ solutionCount s'), (g, s'))
  else
    match fuel with
    | O => None
    | S fuel' => tryCols (solve fuel' (r + 1)) r (seqZ 0 gridSize) m
    end.

Definition solveFuel : nat := Z.to_nat gridSize.

(** [countSolutions()]: the count returned and the globals afterwards. *)
Definition countSolutions (g : Game) : option (Z * Game) :=
  '(_, (g', s)) ← solve solveFuel 0 (g, mkSearch 0 [] ∅ ∅);
  Some (solutionCount s, g').

(** ** Checking the player's placement *)

(** The entries pushed on [errors], as the data their texts carry. *)
Inductive Violation :=
  | RowError (n : Z)
  | ColumnError (n : Z)
  | RegionError (n : Z)
  | TouchingError (r1 c1 r2 c2 : Z).

(** The texts handed to [showMessage]. *)
Inductive Message :=
  | PlaceAllBeansFirst (n : Z)
  | Congratulations
  | FoundErrors (n : nat).

(** Rules 1 to 3: one loop over [0 .. gridSize - 1] each. *)
Definition countErrors {A} (mk : Z -> Violation) (test : Z -> A -> bool)
    (beans : list A) : list Violation :=
  flat_map (fun i =>
      if decide (length (filter (fun b => test i b = true) beans) = 1%nat) then []
      else [mk (i + 1)])
    (seqZ 0 gridSize).

Definition inRow (i : Z) (b : Bean) : bool := bool_decide (bean_row b = i).
Definition inCol (j : Z) (b : Bean) : bool := bool_decide (bean_col b = j).
Definition inRegion (rs : list Z) (r : Z) (b : Bean) : bool :=
  bool_decide (regionAt rs (cellIndex (bean_row b) (bean_col b)) = Some r).

(** Rule 4, inner loop: [b1] against the beans after it. *)
Definition touchErrorsOf (b1 : Bean) (later : list Bean) : list Violation :=
  flat_map (fun b2 =>
      if touching (bean_row b1) (bean_col b1) (bean_row b2) (bean_col b2)
      then [TouchingError (bean_row b1 + 1) (bean_col b1 + 1)
                          (bean_row b2 + 1) (bean_col b2 + 1)]
      else [])
    later.

(** Rule 4, outer loop over [i] with [j] from [i + 1]. *)
Fixpoint touchErrors (beans : list Bean) : list Violation :=
  match beans with
  | [] => []
  | b1 :: later => touchErrorsOf b1 later ++ touchErrors later
  end.

(** The array [errors] once the four rules have run. *)
Definition collectErrors (rs : list Z) (beans : list Bean) : list Violation :=
  countErrors RowError inRow beans
  ++ countErrors ColumnError inCol beans
  ++ countErrors RegionError (inRegion rs) beans
  ++ touchErrors beans.

(** What one call of [checkSolution] does that the rest of the script
    can observe: the message shown, if any, and the [errors] array, if
    the call got as far as computing it. *)
Record Report := mkReport {
  shown : option Message;
  errors : option (list Violation)
}.

Definition checkSolution (g : Game) : Game * Report :=
  if negb (gameActive g) then (g, mkReport None None)
  else if negb (bool_decide (Z.of_nat (length (beansPlaced g)) = gridSize))
  then (g, mkReport (Some (PlaceAllBeansFirst gridSize)) None)
  else
    let errs := collectErrors (regions g) (beansPlaced g) in
    match errs with
    | [] => (set_gameActive g false, mkReport (Some Congratulations) (Some errs))
    | _ => (g, mkReport (Some (FoundErrors (length errs))) (Some errs))
    end.

(** ** Orchestration *)

Section Orchestration.
Variable rnd : nat -> nat.

(** The [while (true)] loop of [initializeGame]. *)
Fixpoint uniquenessLoop (fuel : nat) (g : Game) (cur : nat)
  : option (Game * nat) :=
  match fuel with
  | O => None
  | S fuel' =>
      '(count, g1) ← countSolutions g;
      if decide (count = 1) then Some (g1, cur)
      else
        '(g2, cur2, _) ← generateRegionsFromSolution rnd 0 g1 cur;
        uniquenessLoop fuel' g2 cur2
  end.

(** [initializeGame] up to the end of the uniqueness loop (the rest
    draws the board and starts the timer). *)
Definition initializeGame (fuel : nat) (g : Game) (cur : nat)
  : option (Game * nat) :=
  let g0 := mkGame (regions g) [] [] [] (solution g) true in
  let '(g1, cur1) := generateValidSolution rnd g0 cur in
  '(g2, cur2, _) ← generateRegionsFromSolution rnd 0 g1 cur1;
  uniquenessLoop fuel g2 cur2.
End Orchestration.


(** ** Validation of the generated solution *)

(** The lines [validateSolution] writes with [console.error], as the
    data their texts carry. *)
Inductive SolutionError :=
  | MultipleInRow (r : Z)
  | MultipleInColumn (c : Z)
  | BeansTouching (r1 c1 r2 c2 : Z).

(** [for (const bean of solution)] with the two sets [rowsUsed] and
    [colsUsed]. *)
Fixpoint checkDuplicates (sol : list Pos) (rowsUsed colsUsed : gset Z)
  : list SolutionError :=
  match sol with
  | [] => []
  | bean :: rest =>
      (if decide (row bean ∈ rowsUsed) then [MultipleInRow (row bean)] else [])
      ++ (if decide (col bean ∈ colsUsed) then [MultipleInColumn (col bean)] else [])
      ++ checkDuplicates rest ({[row bean]} ∪ rowsUsed) ({[col bean]} ∪ colsUsed)
  end.

(** The inner loop over [j] from [i + 1]: [b1] against the later beans. *)
Definition touchingWith (b1 : Pos) (later : list Pos) : list SolutionError :=
  flat_map (fun b2 =>
      if touching (row b1) (col b1) (row b2) (col b2)
      then [BeansTouching (row b1) (col b1) (row b2) (col b2)]
      else [])
    later.

Fixpoint touchingPairs (sol : list Pos) : list SolutionError :=
  match sol with
  | [] => []
  | b1 :: later => touchingWith b1 later ++ touchingPairs later
  end.

(** [validateSolution()]: the errors it logs, in order. *)
Definition validateSolution (sol : list Pos) : list SolutionError :=
  checkDuplicates sol ∅ ∅ ++ touchingPairs sol.

(** ** Balancing the regions *)

(** [neighbors.add(x)] on a [Set] kept in insertion order. *)
Definition setAdd (l : list (option Z)) (x : option Z) : list (option Z) :=
  if decide (x ∈ l) then l else l ++ [x].

(** [getNeighborRegions(row, col)]: the regions above, below, left and
    right of the cell, without repetition; [None] is an [undefined]
    read. *)
Definition getNeighborRegions (rs : list Z) (r c : Z) : list (option Z) :=
  let n1 := if 0 <? r then setAdd [] (regionAt rs (cellIndex (r - 1) c)) else [] in
  let n2 := if r <? gridSize - 1
            then setAdd n1 (regionAt rs (cellIndex (r + 1) c)) else n1 in
  let n3 := if 0 <? c then setAdd n2 (regionAt rs (cellIndex r (c - 1))) else n2 in
  if c <? gridSize - 1 then setAdd n3 (regionAt rs (cellIndex r (c + 1))) else n3.

(** [regionSizes[r] += d].  The array has [gridSize] numeric entries; an
    index outside it would hold [NaN] in JavaScript, which no comparison
    of [balanceRegions] accepts, so the entry is left out here and reads
    of it give [None]. *)
Definition bumpSize (sizes : list Z) (r : Z) (d : Z) : list Z :=
  if 0 <=? r then alter (fun n => n + d) (Z.to_nat r) sizes else sizes.

(** [regions.forEach(r => regionSizes[r]++)] *)
Definition countSizes (rs : list Z) : list Z :=
  foldl (fun sizes r => bumpSize sizes r 1) (replicate (Z.to_nat gridSize) 0) rs.

Definition targetSize : Z := gridSize.

(** [solution.some(s => s.row === row && s.col === col)] and the like. *)
Definition atCell (r c : Z) (p : Pos) : bool :=
  bool_decide (row p = r) && bool_decide (col p = c).

(** [for (const neighborRegion of neighbors)] for the cell of index [i]
    in region [currentRegion]: the result carries whether a move was
    made (the [break]). *)
Fixpoint tryNeighbors (sol : list Pos) (i currentRegion r c : Z)
    (neighbors : list (option Z)) (rs sizes : list Z)
  : option (list Z * list Z * bool) :=
  match neighbors with
  | [] => Some (rs, sizes, false)
  | Some neighborRegion :: rest =>
      match regionAt sizes neighborRegion with
      | Some neighborSize =>
          if negb (bool_decide (neighborRegion = currentRegion))
             && (neighborSize <? targetSize)
          then
            if existsb (atCell r c) sol
            then tryNeighbors sol i currentRegion r c rest rs sizes
            else
              let moved := setRegion rs i neighborRegion in
              connected ← isRegionConnected moved currentRegion;
              if connected : bool
              then Some (moved,
                         bumpSize (bumpSize sizes currentRegion (-1)) neighborRegion 1,
                         true)
              else tryNeighbors sol i currentRegion r c rest rs sizes
          else tryNeighbors sol i currentRegion r c rest rs sizes
      | None => tryNeighbors sol i currentRegion r c rest rs sizes
      end
  | None :: rest => tryNeighbors sol i currentRegion r c rest rs sizes
  end.

(** The body of [for (i = 0; i < gridSize * gridSize; i++)]. *)
Definition balanceCell (sol : list Pos) (rs sizes : list Z) (changed : bool) (i : Z)
  : option (list Z * list Z * bool) :=
  match regionAt rs i with
  | Some currentRegion =>
      match regionAt sizes currentRegion with
      | Some size =>
          if targetSize <? size then
            '(rs', sizes', moved) ←
              tryNeighbors sol i currentRegion (i / gridSize) (i mod gridSize)
                (getNeighborRegions rs (i / gridSize) (i mod gridSize)) rs sizes;
            Some (rs', sizes', changed || moved)
          else Some (rs, sizes, changed)
      | None => Some (rs, sizes, changed)
      end
  | None => Some (rs, sizes, changed)
  end.

Fixpoint balancePass (sol : list Pos) (cells : list Z) (rs sizes : list Z)
    (changed : bool) : option (list Z * list Z * bool) :=
  match cells with
  | [] => Some (rs, sizes, changed)
  | i :: rest =>
      '(rs', sizes', changed') ← balanceCell sol rs sizes changed i;
      balancePass sol rest rs' sizes' changed'
  end.

(** [for (attempt = 0; attempt < 100; attempt++)] with [n] attempts
    left. *)
Fixpoint balanceAttempts (n : nat) (sol : list Pos) (rs sizes : list Z)
  : option (list Z) :=
  match n with
  | O => Some rs
  | S n' =>
      '(rs', sizes', changed) ←
        balancePass sol (seqZ 0 (gridSize * gridSize)) rs sizes false;
      if changed : bool then balanceAttempts n' sol rs' sizes' else Some rs'
  end.

Definition balanceRegions (g : Game) : option Game :=
  rs ← balanceAttempts 100 (solution g) (regions g) (countSizes (regions g));
  Some (set_regions g rs).

(** ** Region borders *)

(** The four thick borders [applyRegionBorders] may set on a cell. *)
Record Borders := mkBorders {
  borderTop : bool; borderBottom : bool; borderLeft : bool; borderRight : bool
}.

(** [regions[index] !== currentRegion] *)
Definition differs (rs : list Z) (index : Z) (currentRegion : option Z) : bool :=
  negb (bool_decide (regionAt rs index = currentRegion)).

Definition applyRegionBorders (rs : list Z) (r c : Z) : Borders :=
  let currentRegion := regionAt rs (cellIndex r c) in
  mkBorders
    (bool_decide (r = 0) || differs rs (cellIndex (r - 1) c) currentRegion)
    (bool_decide (r = gridSize - 1) || differs rs (cellIndex (r + 1) c) currentRegion)
    (bool_decide (c = 0) || differs rs (cellIndex r (c - 1)) currentRegion)
    (bool_decide (c = gridSize - 1) || differs rs (cellIndex r (c + 1)) currentRegion).

(** ** Clicks on the board *)

Definition set_xMarkers (g : Game) (x : list Pos) : Game :=
  mkGame (regions g) (beansPlaced g) x (autoXMarkers g) (solution g) (gameActive g).

Definition set_autoXMarkers (g : Game) (x : list Pos) : Game :=
  mkGame (regions g) (beansPlaced g) (xMarkers g) x (solution g) (gameActive g).

(** [b => b.row === row && b.col === col] on an entry of [beansPlaced]. *)
Definition beanAt (r c : Z) (b : Bean) : bool :=
  bool_decide (bean_row b = r) && bool_decide (bean_col b = c).

(** [array.findIndex(test)]; [None] is the result [-1]. *)
Definition findIndex {A} (test : A → bool) (l : list A) : option nat :=
  fst <$> list_find (fun x => test x = true) l.

(** The cells of the board in the order of the two nested loops over [i]
    and [j]. *)
Definition boardCells : list (Z * Z) :=
  i ← seqZ 0 gridSize; j ← seqZ 0 gridSize; [(i, j)].

(** [regionIndex !== null && cellRegion === regionIndex].  The
    parameter [regionIndex] has the default [null], which JavaScript
    also takes when the caller passes [undefined]; so an [undefined]
    region ([None]) switches the test off, and a number is compared with
    the entry read for the cell. *)
Definition sameRegion (cellRegion regionIndex : option Z) : bool :=
  match regionIndex with
  | Some r => bool_decide (cellRegion = Some r)
  | None => false
  end.

(** The body of the two loops of [autoFillXMarkers] at the cell [(i, j)],
    acting on [autoXMarkers]. *)
Definition autoFillCell (rs : list Z) (beans : list Bean) (xs : list Pos)
    (beanRow beanCol : Z) (regionIndex : option Z)
    (autoXs : list Pos) (cell : Z * Z) : list Pos :=
  let '(i, j) := cell in
  if existsb (beanAt i j) beans then autoXs
  else if existsb (atCell i j) xs then autoXs
  else if existsb (atCell i j) autoXs then autoXs
  else
    let cellRegion := regionAt rs (cellIndex i j) in
    if bool_decide (i = beanRow) || bool_decide (j = beanCol)
       || touching i j beanRow beanCol
       || sameRegion cellRegion regionIndex
    then autoXs ++ [mkPos i j]
    else autoXs.

Definition autoFillXMarkers (g : Game) (beanRow beanCol : Z)
    (regionIndex : option Z) : Game :=
  set_autoXMarkers g
    (foldl (autoFillCell (regions g) (beansPlaced g) (xMarkers g)
              beanRow beanCol regionIndex)
           (autoXMarkers g) boardCells).

(** [beansPlaced.forEach(bean => autoFillXMarkers(...))] *)
Definition recalculateAutoXMarkers (g : Game) : Game :=
  foldl (fun g bean =>
           autoFillXMarkers g (bean_row bean) (bean_col bean) (bean_region bean))
        g (beansPlaced g).

Definition clearAllAutoXMarkers (g : Game) : Game := set_autoXMarkers g [].

Inductive ClickType := BeanClick | XClick | OtherClick.

(** The texts [handleCellClick] hands to [showMessage]. *)
Inductive ClickMessage :=
  | RemoveXMarkerFirst
  | OnlyNBeans (n : Z)
  | CellHasBean
  | XPlacedAutomatically.

(** [handleCellClick(row, col, cell, clickType)]; [autoFillChecked] is
    [autoFillXCheckbox.checked] at the time of the click.  The callers
    pass ['bean'] or ['x']; any other string is [OtherClick]. *)
Definition handleCellClick (autoFillChecked : bool) (r c : Z)
    (clickType : ClickType) (g : Game) : Game * option ClickMessage :=
  if negb (gameActive g) then (g, None)
  else
    let beanIndex := findIndex (beanAt r c) (beansPlaced g) in
    let xIndex := findIndex (atCell r c) (xMarkers g) in
    let autoXIndex := findIndex (atCell r c) (autoXMarkers g) in
    match clickType with
    | BeanClick =>
        match beanIndex with
        | Some k =>
            let g1 := set_beansPlaced g (delete k (beansPlaced g)) in
            let g2 := clearAllAutoXMarkers g1 in
            (if autoFillChecked then recalculateAutoXMarkers g2 else g2, None)
        | None =>
            if bool_decide (is_Some xIndex) || bool_decide (is_Some autoXIndex)
            then (g, Some RemoveXMarkerFirst)
            else if gridSize <=? Z.of_nat (length (beansPlaced g))
            then (g, Some (OnlyNBeans gridSize))
            else
              let regionIndex := regionAt (regions g) (cellIndex r c) in
              let g1 := set_beansPlaced g (beansPlaced g ++ [mkBean r c regionIndex]) in
              (if autoFillChecked then autoFillXMarkers g1 r c regionIndex else g1,
               None)
        end
    | XClick =>
        match beanIndex, autoXIndex, xIndex with
        | Some _, _, _ => (g, Some CellHasBean)
        | None, Some _, _ => (g, Some XPlacedAutomatically)
        | None, None, Some k => (set_xMarkers g (delete k (xMarkers g)), None)
        | None, None, None => (set_xMarkers g (xMarkers g ++ [mkPos r c]), None)
        end
    | OtherClick => (g, None)
    end.

(** ** Clearing the board and revealing the solution *)

Definition clearBoard (g : Game) : Game :=
  mkGame (regions g) [] [] [] (solution g) (gameActive g).

Inductive RevealMessage := NoSolutionAvailable | SolutionRevealed.

Definition showSolution (g : Game) : Game * RevealMessage :=
  match solution g with
  | [] => (g, NoSolutionAvailable)
  | _ =>
      let g1 := clearBoard g in
      let beans := (fun bean => mkBean (row bean) (col bean)
                                  (regionAt (regions g) (cellIndex (row bean) (col bean))))
                   <$> solution g in
      (set_gameActive (set_beansPlaced g1 beans) false, SolutionRevealed)
  end.
(** * Specification predicates *)

(** Two positions touch: both distances are at most one. *)
Definition touches (p q : Pos) : Prop :=
  Z.abs (row p - row q) ≤ 1 ∧ Z.abs (col p - col q) ≤ 1.

(** The solution invariant: [gridSize] positions, rows pairwise distinct,
    columns pairwise distinct, no two positions touching. *)
Definition validSolution (sol : list Pos) : Prop :=
  Z.of_nat (length sol) = gridSize
  ∧ NoDup (row <$> sol)
  ∧ NoDup (col <$> sol)
  ∧ ∀ (i j : nat) p q, i ≠ j → sol !! i = Some p → sol !! j = Some q → ¬ touches p q.

(** What the row-by-row construction maintains: the bean of row [k] sits
    at index [k], columns are distinct and on the board, and no bean
    touches an earlier one. *)
Definition goodPrefix (sol : list Pos) : Prop :=
  (∀ (k : nat) p, sol !! k = Some p → row p = Z.of_nat k)
  ∧ NoDup (col <$> sol)
  ∧ (∀ (i j : nat) p q, (i < j)%nat → sol !! i = Some p → sol !! j = Some q →
       touching (row p) (col p) (row q) (col q) = false).

(** The region a position lies in. *)
Definition regionOf (rs : list Z) (p : Pos) : option Z :=
  regionAt rs (cellIndex (row p) (col p)).

(** The three tests a candidate cell passes in the counting search:
    column unused, region unused, no earlier bean touched. *)
Definition canPlace (rs : list Z) (placed : list Pos) (r c : Z) : bool :=
  bool_decide (c ∉ col <$> placed)
  && bool_decide (regionAt rs (cellIndex r c) ∉ regionOf rs <$> placed)
  && negb (touchesExisting r c placed).

(** The number of ways to complete [placed] through [k] further rows,
    starting at row [r], with every bean passing [canPlace] against the
    ones before it: the search of [solve] without its cap. *)
Fixpoint countFrom (rs : list Z) (k : nat) (r : Z) (placed : list Pos) : nat :=
  match k with
  | O => 1%nat
  | S k' =>
      sum_list_with (fun c =>
          if canPlace rs placed r c
          then countFrom rs k' (r + 1) (placed ++ [mkPos r c])
          else 0%nat)
        (seqZ 0 gridSize)
  end.

(** The two sets of the search agree with the beans placed. *)
Definition consistent (rs : list Z) (s : Search) : Prop :=
  usedCols s = list_to_set (col <$> placedBeans s)
  ∧ usedRegions s = list_to_set (regionOf rs <$> placedBeans s).

(** The search state after [n] more solutions were met, capped. *)
Definition bump (s : Search) (n : nat) : Search :=
  mkSearch (Z.min maxSolutions (solutionCount s + Z.of_nat n))
           (placedBeans s) (usedCols s) (usedRegions s).

(** The value [solve] returns: [solutionCount >= maxSolutions]. *)
Definition stopFlag (s : Search) : bool :=
  bool_decide (maxSolutions ≤ solutionCount s).

(** One pass through the body of the uniqueness loop that does not leave
    it: the count differs from one and the regions are generated anew. *)
Definition loopStep (rnd : nat → nat) (a b : Game * nat) : Prop :=
  ∃ n v, countSolutions a.1 = Some (n, a.1) ∧ n ≠ 1
         ∧ generateRegionsFromSolution rnd 0 a.1 a.2 = Some (b.1, b.2, v).

(** A sample oracle for the evaluations below. *)
Definition sampleDraws (seed : N) (n : nat) : nat :=
  N.to_nat (((N.of_nat n + seed) * 1103515245 + 12345) / 65536 mod 24)%N.

(** Two violations are the same up to the order in which a touching pair
    is named. *)
Definition sameViolation (v w : Violation) : Prop :=
  v = w ∨ ∃ r1 c1 r2 c2,
            v = TouchingError r1 c1 r2 c2 ∧ w = TouchingError r2 c2 r1 c1.

(** Two [errors] arrays hold the same set of violations. *)
Definition sameViolationSet (l1 l2 : list Violation) : Prop :=
  (∀ v, v ∈ l1 → ∃ w, w ∈ l2 ∧ sameViolation v w)
  ∧ (∀ w, w ∈ l2 → ∃ v, v ∈ l1 ∧ sameViolation v w).

(** The number of elements of a list that pass a test. *)
Fixpoint countIf {A} (test : A → bool) (l : list A) : nat :=
  match l with
  | [] => 0%nat
  | x :: rest => ((if test x then 1 else 0) + countIf test rest)%nat
  end.

(** The placements of one bean in each of the [k] rows from [r] on, each
    listed by increasing row, the columns ranging over the board. *)
Fixpoint rowPlacements (k : nat) (r : Z) : list (list Pos) :=
  match k with
  | O => [[]]
  | S k' => c ← seqZ 0 gridSize; cons (mkPos r c) <$> rowPlacements k' (r + 1)
  end.

(** No two positions of the list touch. *)
Fixpoint noneTouching (p : list Pos) : bool :=
  match p with
  | [] => true
  | a :: rest =>
      forallb (fun b => negb (touching (row a) (col a) (row b) (col b))) rest
      && noneTouching rest
  end.

(** The four constraints on a placement of [gridSize] beans: exactly one
    bean in every row, in every column and in every region, and no two
    beans touching. *)
Definition satisfiesAll (rs : list Z) (p : list Pos) : bool :=
  bool_decide (Z.of_nat (length p) = gridSize)
  && forallb (fun i => bool_decide (countIf (fun q => bool_decide (row q = i)) p = 1%nat))
             (seqZ 0 gridSize)
  && forallb (fun j => bool_decide (countIf (fun q => bool_decide (col q = j)) p = 1%nat))
             (seqZ 0 gridSize)
  && forallb (fun r => bool_decide
                (countIf (fun q => bool_decide (regionOf rs q = Some r)) p = 1%nat))
             (seqZ 0 gridSize)
  && noneTouching p.

(** The exact number of placements that satisfy the four constraints. *)
Definition numberOfSolutions (rs : list Z) : nat :=
  countIf (satisfiesAll rs) (rowPlacements (Z.to_nat gridSize) 0).

(** A region map: one region id in [0 .. gridSize - 1] for each of the
    [gridSize * gridSize] cells. *)
Definition regionMap (rs : list Z) : Prop :=
  Z.of_nat (length rs) = gridSize * gridSize
  ∧ ∀ v, v ∈ rs → 0 ≤ v < gridSize.

(** The beans of [rest] can be placed one after the other on top of
    [placed], each passing [canPlace]. *)
Fixpoint legalFrom (rs : list Z) (placed rest : list Pos) : bool :=
  match rest with
  | [] => true
  | q :: rest' =>
      canPlace rs placed (row q) (col q) && legalFrom rs (placed ++ [q]) rest'
  end.

(** No bean of the list touches an earlier one. *)
Definition apart (l : list Pos) : Prop :=
  ∀ (i j : nat) a b, (i < j)%nat → l !! i = Some a → l !! j = Some b →
    touching (row a) (col a) (row b) (col b) = false.

(** Columns pairwise distinct, regions pairwise distinct, no two beans
    touching. *)
Definition legal (rs : list Z) (l : list Pos) : Prop :=
  NoDup (col <$> l) ∧ NoDup (regionOf rs <$> l) ∧ apart l.

(** A sample board for the evaluations below: the regions grown around
    the fallback pattern when every draw is 0, with the pattern placed
    on it as the player's beans. *)
Definition sampleRegions : list Z :=
  [ 0; 0; 4; 4; 4; 4; 4; 4;
    0; 0; 4; 4; 1; 4; 4; 4;
    0; 0; 0; 4; 1; 4; 4; 2;
    0; 0; 0; 4; 1; 3; 4; 2;
    0; 0; 4; 4; 1; 3; 4; 2;
    6; 6; 4; 4; 1; 3; 5; 2;
    6; 6; 4; 4; 3; 3; 5; 2;
    6; 6; 7; 7; 5; 5; 5; 2 ].

Definition sampleBeans : list Bean :=
  (fun p => mkBean (row p) (col p) (regionOf sampleRegions p))
    <$> generateFallbackSolution.

Definition sampleGame : Game :=
  mkGame sampleRegions sampleBeans [] [] generateFallbackSolution true.

(** ** Connectivity of a region *)

(** An index of a cell on the board. *)
Definition onBoard (i : Z) : Prop := 0 ≤ i < gridSize * gridSize.

(** The cell of index [i] is on the board and labelled [r]. *)
Definition labelled (rs : list Z) (r : Z) (i : Z) : Prop :=
  onBoard i ∧ regionAt rs i = Some r.

(** Two cell indices share a horizontal or a vertical edge. *)
Definition adjacent4 (i j : Z) : Prop :=
  (i / gridSize = j / gridSize ∧ Z.abs (i mod gridSize - j mod gridSize) = 1)
  ∨ (i mod gridSize = j mod gridSize ∧ Z.abs (i / gridSize - j / gridSize) = 1).

(** One step between edge-sharing cells of region [r]. *)
Definition regionStep (rs : list Z) (r : Z) (i j : Z) : Prop :=
  labelled rs r i ∧ labelled rs r j ∧ adjacent4 i j.

(** Region [r] is 4-connected: any two of its cells are joined by a path
    of edge-sharing cells of the region.  A region of no cell or of one
    cell is connected. *)
Definition regionConnected (rs : list Z) (r : Z) : Prop :=
  ∀ i j, labelled rs r i → labelled rs r j → rtc (regionStep rs r) i j.

(** The indices of the board, as a set. *)
Definition board : gset Z := list_to_set (seqZ 0 (gridSize * gridSize)).

(** An entry of the flood-fill queue names a cell of the board. *)
Definition wfCell (c : Cell) : Prop :=
  0 ≤ cell_row c < gridSize ∧ 0 ≤ cell_col c < gridSize
  ∧ cell_index c = cellIndex (cell_row c) (cell_col c).

(** Every step of region [r] out of [i] ends in [v]. *)
Definition closedAt (rs : list Z) (r : Z) (v : gset Z) (i : Z) : Prop :=
  ∀ j, regionStep rs r i j → j ∈ v.

(** The invariant of the flood fill from [start]; [cur] is the index of
    the cell being expanded, if any. *)
Record floodInv (rs : list Z) (r start : Z) (cur : option Z)
    (v : gset Z) (q : list Cell) : Prop := mkFloodInv {
  inv_reach : ∀ i, i ∈ v → labelled rs r i ∧ rtc (regionStep rs r) start i;
  inv_queue : ∀ c, c ∈ q → wfCell c ∧ cell_index c ∈ v;
  inv_closed : ∀ i, i ∈ v →
    cur = Some i ∨ (∃ c, c ∈ q ∧ cell_index c = i) ∨ closedAt rs r v i
}.

(** ** Region growth *)

(** The index of the cell of a position. *)
Definition cellOf (p : Pos) : Z := cellIndex (row p) (col p).

(** What region generation relies on in [solution]: [gridSize] positions
    on the board, in pairwise distinct cells. *)
Definition solutionOnBoard (sol : list Pos) : Prop :=
  Z.of_nat (length sol) = gridSize
  ∧ (∀ p, p ∈ sol → 0 ≤ row p < gridSize ∧ 0 ≤ col p < gridSize)
  ∧ NoDup (cellOf <$> sol).

(** The number of cells still unassigned. *)
Definition unclaimed (rs : list Z) : nat :=
  countIf (fun v => bool_decide (v = -1)) rs.

(** Every bean of the solution lies in the region of its own index. *)
Definition seeded (sol : list Pos) (rs : list Z) : Prop :=
  ∀ (k : nat) p, sol !! k = Some p → regionAt rs (cellOf p) = Some (Z.of_nat k).

(** The invariant of the growth loop. *)
Record growthInv (sol : list Pos) (st : Growth) : Prop := mkGrowthInv {
  gi_length : Z.of_nat (length (g_regions st)) = gridSize * gridSize;
  gi_seeded : seeded sol (g_regions st);
  gi_range : Forall (fun v => -1 ≤ v < gridSize) (g_regions st);
  gi_count : unassignedCount st = Z.of_nat (unclaimed (g_regions st));
  gi_queues : Z.of_nat (length (queues st)) = gridSize;
  gi_short : Forall (fun q => (length q ≤ 1)%nat) (queues st)
}.

(** The regions a generation leaves: a region map in which every bean of
    the solution lies in the region of its own index. *)
Definition grownFrom (sol : list Pos) (rs : list Z) : Prop :=
  regionMap rs ∧ seeded sol rs.

(** The game before the first puzzle is generated. *)
Definition emptyGame : Game := mkGame [] [] [] [] [] false.

(** The oracle whose every draw is [c]. *)
Definition constantDraws (c : nat) : nat → nat := fun _ => c.

(** ** Predicates for the further properties *)

(** The cell an entry of [beansPlaced] occupies. *)
Definition beanPos (b : Bean) : Pos := mkPos (bean_row b) (bean_col b).

(** What the generation steps of [initializeGame] establish and the
    uniqueness loop keeps: the solution lists [gridSize] beans row by
    row, with distinct columns on the board and no two beans touching,
    and in the regions array every cell lies in a region
    [0 .. gridSize - 1], the bean of row [k] in region [k]. *)
Definition generatedPuzzle (g : Game) : Prop :=
  goodPrefix (solution g)
  ∧ Z.of_nat (length (solution g)) = gridSize
  ∧ (∀ p, p ∈ solution g → 0 ≤ col p < gridSize)
  ∧ grownFrom (solution g) (regions g).


(** A sample puzzle with exactly one solution, for the evaluations
    below: the one [initializeGame] builds from the oracle
    [sampleDraws 2]. *)
Definition uniqueRegions : list Z :=
  [ 0; 0; 0; 0; 0; 0; 0; 0;
    0; 0; 0; 0; 1; 1; 0; 0;
    2; 0; 0; 0; 1; 1; 1; 0;
    2; 2; 3; 3; 3; 3; 4; 4;
    2; 2; 2; 3; 3; 3; 4; 4;
    2; 2; 2; 5; 5; 5; 6; 6;
    2; 2; 2; 5; 5; 5; 6; 6;
    2; 2; 2; 5; 5; 7; 7; 7 ].

Definition uniqueSolution : list Pos :=
  [ mkPos 0 1; mkPos 1 4; mkPos 2 0; mkPos 3 2;
    mkPos 4 6; mkPos 5 3; mkPos 6 7; mkPos 7 5 ].

(** The entry [handleCellClick] pushes for a bean at [p]. *)
Definition beanOn (rs : list Z) (p : Pos) : Bean :=
  mkBean (row p) (col p) (regionOf rs p).

(** The sample puzzle with the beans of [placed] on the board. *)
Definition uniqueGame (placed : list Pos) : Game :=
  mkGame uniqueRegions (beanOn uniqueRegions <$> placed) [] [] uniqueSolution true.

(** ** The player's board *)

(** A position on the board. *)
Definition onGrid (p : Pos) : Prop :=
  0 ≤ row p < gridSize ∧ 0 ≤ col p < gridSize.

(** The cell [p] is barred by a bean at [(beanRow, beanCol)] recorded
    with region [regionIndex]: it lies in the bean's row, in its column,
    touches it, or lies in its region (a bean recorded without a region
    bars no cell by region). *)
Definition barred (rs : list Z) (beanRow beanCol : Z) (regionIndex : option Z)
    (p : Pos) : Prop :=
  row p = beanRow ∨ col p = beanCol
  ∨ touching (row p) (col p) beanRow beanCol = true
  ∨ (is_Some regionIndex ∧ regionOf rs p = regionIndex).

Definition barredBy (rs : list Z) (b : Bean) (p : Pos) : Prop :=
  barred rs (bean_row b) (bean_col b) (bean_region b) p.

(** The cell [p] carries neither a bean nor a manual X. *)
Definition unmarked (g : Game) (p : Pos) : Prop :=
  (p ∉ beanPos <$> beansPlaced g) ∧ (p ∉ xMarkers g).

(** What every sequence of clicks keeps true of the three arrays
    [beansPlaced], [xMarkers] and [autoXMarkers]. *)
Record boardOK (g : Game) : Prop := mkBoardOK {
  ok_beans : NoDup (beanPos <$> beansPlaced g);
  ok_count : Z.of_nat (length (beansPlaced g)) ≤ gridSize;
  ok_region : ∀ b, b ∈ beansPlaced g →
                bean_region b = regionOf (regions g) (beanPos b);
  ok_x : NoDup (xMarkers g);
  ok_autoX : NoDup (autoXMarkers g);
  ok_bean_x : ∀ p, p ∈ beanPos <$> beansPlaced g → p ∉ xMarkers g;
  ok_bean_autoX : ∀ p, p ∈ beanPos <$> beansPlaced g → p ∉ autoXMarkers g;
  ok_x_autoX : ∀ p, p ∈ xMarkers g → p ∉ autoXMarkers g;
  ok_barred : ∀ p, p ∈ autoXMarkers g →
                onGrid p ∧ ∃ b, b ∈ beansPlaced g ∧ barredBy (regions g) b p
}.

(** ** Connectivity during the growth *)

(** What the growth loop keeps besides [growthInv]: every queued cell
    lies on the board in the region of its queue, and every region is
    4-connected (the unassigned cells, labelled [-1], are no region). *)
Record growthConn (st : Growth) : Prop := mkGrowthConn {
  gc_queues : ∀ (k : nat) q p,
    queues st !! k = Some q → p ∈ q →
    onGrid p ∧ regionAt (g_regions st) (cellOf p) = Some (Z.of_nat k);
  gc_connected : ∀ k : Z, k ≠ -1 → regionConnected (g_regions st) k
}.

(** The state a loop exit carries. *)
Definition exitState (e : LoopExit) : Growth :=
  match e with
  | BoardFull st => st
  | Stalled st => st
  end.

(** ** The nearest assigned cell *)

(** The distance [findClosestRegion] spirals by: the larger of the row
    and the column distance. *)
Definition chebyshev (r1 c1 r2 c2 : Z) : Z :=
  Z.max (Z.abs (r1 - r2)) (Z.abs (c1 - c2)).

(** The cell [(r, c)] is on the board and assigned to region [v]. *)
Definition assignedAt (rs : list Z) (r c v : Z) : Prop :=
  0 ≤ r < gridSize ∧ 0 ≤ c < gridSize
  ∧ regionAt rs (cellIndex r c) = Some v ∧ v ≠ -1.

(** The offsets [(dr, dc)] of the two inner loops for one [distance]. *)
Definition square (distance : Z) : list (Z * Z) :=
  dr ← seqZ (- distance) (2 * distance + 1);
  dc ← seqZ (- distance) (2 * distance + 1);
  [(dr, dc)].

(** ** Balancing *)

(** The number of cells of region [r]. *)
Definition sizeOf (rs : list Z) (r : Z) : Z :=
  Z.of_nat (countIf (fun v => bool_decide (v = r)) rs).

(** [regionSizes] holds the size of every region [0 .. gridSize - 1]. *)
Definition sizesOK (rs sizes : list Z) : Prop :=
  Z.of_nat (length sizes) = gridSize
  ∧ ∀ r, 0 ≤ r < gridSize → regionAt sizes r = Some (sizeOf rs r).

(** One move of [balanceRegions]: a cell [i] of a region [cur] of more
    than [targetSize] cells that holds no bean of the solution passes to
    the region [nb] of an edge-sharing cell, a region of fewer than
    [targetSize] cells, and [cur] is 4-connected afterwards. *)
Definition moveStep (sol : list Pos) (rs rs' : list Z) : Prop :=
  ∃ i cur nb j,
    onBoard i ∧ regionAt rs i = Some cur ∧ nb ≠ cur
    ∧ labelled rs nb j ∧ adjacent4 j i
    ∧ (mkPos (i / gridSize) (i mod gridSize) ∉ sol)
    ∧ targetSize < sizeOf rs cur ∧ sizeOf rs nb < targetSize
    ∧ rs' = setRegion rs i nb
    ∧ regionConnected rs' cur.

(** No region has moved away from [targetSize] cells or across it. *)
Definition sizesCloser (rs rs' : list Z) : Prop :=
  ∀ r, (sizeOf rs r ≤ targetSize → sizeOf rs r ≤ sizeOf rs' r ≤ targetSize)
       ∧ (targetSize ≤ sizeOf rs r → targetSize ≤ sizeOf rs' r ≤ sizeOf rs r).

(** ** A session *)

(** What the player can do to the board while the game is active: click
    a cell (with the auto-fill box in either state) or press Clear. *)
Inductive Action :=
  | Click (autoFillChecked : bool) (r c : Z) (clickType : ClickType)
  | Clear.

Definition act (g : Game) (a : Action) : Game :=
  match a with
  | Click autoFillChecked r c clickType =>
      (handleCellClick autoFillChecked r c clickType g).1
  | Clear => clearBoard g
  end.

Definition play (g : Game) (actions : list Action) : Game := foldl act g actions.

(** ** Outcome of a region generation *)

(** What a call of [generateRegionsFromSolution] leaves for the rest of
    the script to see: the regions array, the position in the stream of
    random draws and the verdict. *)
Definition outcome (res : option (Game * nat * Verdict))
  : option (list Z * nat * Verdict) :=
  '(g, cur, v) ← res; Some (regions g, cur, v).

(** ** A placement with violations *)

(** A full placement on the sample board, for the evaluations below: the
    fallback pattern with the bean of row 1 moved to column 1, where it
    touches the bean of row 0 and shares its region and the column of
    the bean of row 6. *)
Definition clashBeans : list Bean :=
  beanOn sampleRegions
    <$> [ mkPos 0 0; mkPos 1 1; mkPos 2 7; mkPos 3 5;
          mkPos 4 2; mkPos 5 6; mkPos 6 1; mkPos 7 3 ].

Definition clashGame : Game :=
  mkGame sampleRegions clashBeans [] [] generateFallbackSolution true.
(** * Properties *)

(** Membership in a list written out. *)
Ltac solve_elem :=
  repeat first [apply list_elem_of_here | apply list_elem_of_further].

Lemma touching_spec r1 c1 r2 c2 :
  touching r1 c1 r2 c2 = true ↔ Z.abs (r1 - r2) ≤ 1 ∧ Z.abs (c1 - c2) ≤ 1.
Proof.
  unfold touching. rewrite andb_true_iff, !Z.leb_le. reflexivity.
Qed.

Lemma touching_sym r1 c1 r2 c2 :
  touching r1 c1 r2 c2 = touching r2 c2 r1 c1.
Proof.
  unfold touching.
  replace (Z.abs (r2 - r1)) with (Z.abs (r1 - r2)) by lia.
  replace (Z.abs (c2 - c1)) with (Z.abs (c1 - c2)) by lia.
  reflexivity.
Qed.

(** ** The placement validator *)

Lemma isValidPlacement_true r c beans :
  isValidPlacement r c beans = true ↔
  ∀ bean, bean ∈ beans → touching (row bean) (col bean) r c = false.
Proof.
  induction beans as [|b beans IH]; simpl.
  - split; [intros _ bean Hin; inversion Hin | reflexivity].
  - destruct (touching (row b) (col b) r c) eqn:Hb.
    + split; [discriminate|]. intros H.
      specialize (H b (list_elem_of_here _ _)). congruence.
    + rewrite IH. split.
      * intros H bean Hin. apply elem_of_cons in Hin as [->|Hin]; auto.
      * intros H bean Hin. apply H. by apply list_elem_of_further.
Qed.

(** C5: [isValidPlacement(row, col, existingBeans)] is false exactly when
    some existing bean lies within distance one of the candidate in both
    directions (an exact duplicate included). *)
Theorem isValidPlacement_false_iff r c (existingBeans : list Pos) :
  isValidPlacement r c existingBeans = false ↔
  ∃ bean, bean ∈ existingBeans
          ∧ Z.abs (row bean - r) ≤ 1 ∧ Z.abs (col bean - c) ≤ 1.
Proof.
  induction existingBeans as [|b beans IH]; simpl.
  - split; [discriminate|]. intros (bean & Hin & _). inversion Hin.
  - destruct (touching (row b) (col b) r c) eqn:Hb.
    + split; [|reflexivity]. intros _. exists b. split; [left|].
      by apply touching_spec.
    + rewrite IH. split.
      * intros (bean & Hin & H). exists bean. split; [by right|done].
      * intros (bean & Hin & H). apply elem_of_cons in Hin as [->|Hin].
        -- apply touching_spec in H. congruence.
        -- eauto.
Qed.

(** ** The solution generator *)

Lemma placeInRow_spec r cols used sol sol' used' placed :
  placeInRow r cols used sol = (sol', used', placed) →
  (placed = true ∧ ∃ c, c ∈ cols ∧ (c ∉ used) ∧ isValidPlacement r c sol = true
                        ∧ sol' = sol ++ [mkPos r c] ∧ used' = used ∪ {[c]})
  ∨ (placed = false ∧ sol' = sol ∧ used' = used).
Proof.
  induction cols as [|c cols IH]; simpl; intros H.
  - right. by inversion H.
  - destruct (decide (c ∈ used)) as [Hc|Hc].
    { destruct (IH H) as [(-> & c' & ? & ?)|?]; [left|by right].
      split; [done|]. exists c'. split; [by right|done]. }
    destruct (isValidPlacement r c sol) eqn:Hv.
    + inversion H; subst. left. split; [done|]. exists c.
      split; [by left|done].
    + destruct (IH H) as [(-> & c' & ? & ?)|?]; [left|by right].
      split; [done|]. exists c'. split; [by right|done].
Qed.

Lemma goodPrefix_nil : goodPrefix [].
Proof.
  split; [|split].
  - intros k p H. by rewrite lookup_nil in H.
  - constructor.
  - intros i j p q _ H. by rewrite lookup_nil in H.
Qed.

Lemma goodPrefix_snoc sol c :
  goodPrefix sol →
  c ∉ (col <$> sol) →
  isValidPlacement (Z.of_nat (length sol)) c sol = true →
  goodPrefix (sol ++ [mkPos (Z.of_nat (length sol)) c]).
Proof.
  intros (Hrow & Hcol & Hsep) Hc Hv. split; [|split].
  - intros k p Hk. apply lookup_app_Some in Hk as [Hk|[Hge Hk]]; [eauto|].
    apply list_lookup_singleton_Some in Hk as [Hk <-]. simpl. lia.
  - rewrite fmap_app. apply NoDup_app. split; [done|]. split.
    + intros x Hx Hx'. simpl in Hx'. apply list_elem_of_singleton in Hx'.
      by subst.
    + simpl. apply NoDup_singleton.
  - intros i j p q Hij Hi Hj.
    apply lookup_app_Some in Hj as [Hj|[Hge Hj]].
    + assert (Hi' : sol !! i = Some p).
      { apply lookup_lt_Some in Hj. rewrite lookup_app_l in Hi by lia. done. }
      eauto.
    + apply list_lookup_singleton_Some in Hj as [Hj <-]. simpl.
      assert (Hi' : sol !! i = Some p).
      { rewrite lookup_app_l in Hi by lia. done. }
      rewrite isValidPlacement_true in Hv. apply Hv.
      apply list_elem_of_lookup. eauto.
Qed.

Lemma placeRows_goodPrefix n cols used sol :
  goodPrefix sol →
  (∀ c, c ∈ used ↔ c ∈ (col <$> sol)) →
  goodPrefix (placeRows n (Z.of_nat (length sol)) cols used sol).
Proof.
  revert used sol.
  induction n as [|n IH]; intros used sol Hgood Hused; cbn [placeRows].
  - done.
  - destruct (placeInRow _ cols used sol) as [[sol' used'] placed] eqn:Hp.
    apply placeInRow_spec in Hp
      as [(-> & c & _ & Hc & Hv & -> & ->)|(-> & -> & ->)]; [|done].
    replace (Z.of_nat (length sol) + 1)
      with (Z.of_nat (length (sol ++ [mkPos (Z.of_nat (length sol)) c]))).
    2:{ rewrite length_app. simpl. lia. }
    apply IH.
    + apply goodPrefix_snoc; [done| |done]. by rewrite <- Hused.
    + intros c'. rewrite fmap_app, elem_of_app, elem_of_union, Hused. simpl.
      rewrite list_elem_of_singleton, elem_of_singleton. reflexivity.
Qed.

Lemma attempt_goodPrefix rnd cur : goodPrefix (attempt rnd cur).1.
Proof.
  unfold attempt. destruct (shuffleArray rnd _ cur) as [shuffled cur'].
  cbn [fst]. apply (placeRows_goodPrefix (Z.to_nat gridSize) shuffled ∅ []).
  - apply goodPrefix_nil.
  - intros c. simpl. rewrite elem_of_empty, elem_of_nil. reflexivity.
Qed.

Lemma attemptLoop_goodPrefix rnd remaining sol cur :
  goodPrefix sol → goodPrefix (attemptLoop rnd remaining sol cur).1.
Proof.
  revert sol cur.
  induction remaining as [|n IH]; intros sol cur Hgood; cbn [attemptLoop].
  - done.
  - destruct (Z.of_nat (length sol) <? gridSize); [|done].
    pose proof (attempt_goodPrefix rnd cur) as Ha.
    destruct (attempt rnd cur) as [sol' cur']. apply IH. exact Ha.
Qed.

Lemma goodPrefix_valid sol :
  goodPrefix sol → Z.of_nat (length sol) = gridSize → validSolution sol.
Proof.
  intros (Hrow & Hcol & Hsep) Hlen. split; [done|]. split; [|split; [done|]].
  - apply NoDup_alt. intros i j x Hi Hj.
    apply list_lookup_fmap_Some in Hi as (p & -> & Hp).
    apply list_lookup_fmap_Some in Hj as (q & Heq & Hq).
    apply Hrow in Hp, Hq. lia.
  - intros i j p q Hij Hi Hj Ht.
    destruct (decide (i < j)%nat) as [Hlt|Hge].
    + pose proof (Hsep i j p q Hlt Hi Hj) as Hf.
      apply (proj2 (touching_spec _ _ _ _)) in Ht. congruence.
    + assert (Hlt : (j < i)%nat) by lia.
      pose proof (Hsep j i q p Hlt Hj Hi) as Hf.
      rewrite touching_sym in Hf.
      apply (proj2 (touching_spec _ _ _ _)) in Ht. congruence.
Qed.

Lemma generateFallbackSolution_goodPrefix : goodPrefix generateFallbackSolution.
Proof.
  split; [|split].
  - intros k p H. do 9 (destruct k as [|k]; [inversion H; subst; reflexivity|]).
    inversion H.
  - refine (bool_decide_unpack _ _). vm_compute. exact I.
  - intros i j p q Hij Hi Hj. unfold generateFallbackSolution in *.
    destruct i as [|[|[|[|[|[|[|[|i]]]]]]]];
      destruct j as [|[|[|[|[|[|[|[|j]]]]]]]];
      try lia; simplify_eq/=; reflexivity.
Qed.

(** C1: whatever the random draws, [generateValidSolution] leaves in
    [solution] exactly [gridSize] positions with distinct rows, distinct
    columns and no two positions touching; this covers the runs that end
    in the fallback pattern. *)
Theorem generateValidSolution_valid (rnd : nat → nat) (g : Game) (cur : nat) :
  validSolution (solution (generateValidSolution rnd g cur).1).
Proof.
  unfold generateValidSolution.
  pose proof (attemptLoop_goodPrefix rnd maxAttempts [] cur goodPrefix_nil) as Hgood.
  destruct (attemptLoop rnd maxAttempts [] cur) as [sol cur']. simpl in *.
  destruct (decide (Z.of_nat (length sol) = gridSize)) as [Hlen|Hlen].
  - by apply goodPrefix_valid.
  - apply goodPrefix_valid; [apply generateFallbackSolution_goodPrefix|reflexivity].
Qed.

(** *** The generated solution lies on the board *)

Lemma swap_elem {A} (l : list A) (i j : nat) x : x ∈ swap l i j → x ∈ l.
Proof.
  unfold swap. destruct (l !! i) as [a|] eqn:Ha; [|done].
  destruct (l !! j) as [b|] eqn:Hb; [|done].
  intros [n Hn]%list_elem_of_lookup.
  apply list_lookup_insert_Some in Hn as [(_ & <- & _)|(_ & Hn)].
  { apply list_elem_of_lookup. eauto. }
  apply list_lookup_insert_Some in Hn as [(_ & <- & _)|(_ & Hn)];
    apply list_elem_of_lookup; eauto.
Qed.

Lemma shuffleFrom_elem {A} rnd (i : nat) :
  ∀ (l : list A) cur x, x ∈ (shuffleFrom rnd i l cur).1 → x ∈ l.
Proof.
  induction i as [|i IH]; intros l cur x Hx; [done|].
  cbn [shuffleFrom] in Hx. apply IH in Hx. by apply swap_elem in Hx.
Qed.

Lemma shuffleArray_elem {A} rnd (l : list A) cur x :
  x ∈ (shuffleArray rnd l cur).1 → x ∈ l.
Proof. apply shuffleFrom_elem. Qed.

Lemma placeRows_cols n cols :
  ∀ r used sol,
    (∀ p, p ∈ sol → col p ∈ cols) →
    ∀ p, p ∈ placeRows n r cols used sol → col p ∈ cols.
Proof.
  induction n as [|n IH]; intros r used sol Hsol; cbn [placeRows]; [done|].
  destruct (placeInRow r cols used sol) as [[sol' used'] placed] eqn:Hp.
  apply placeInRow_spec in Hp
    as [(-> & c & Hc & _ & _ & -> & ->)|(-> & -> & ->)]; [|done].
  apply IH. intros p [Hp|Hp]%elem_of_app; [by apply Hsol|].
  apply list_elem_of_singleton in Hp as ->. done.
Qed.

Lemma attempt_cols rnd cur p :
  p ∈ (attempt rnd cur).1 → 0 ≤ col p < gridSize.
Proof.
  unfold attempt.
  destruct (shuffleArray rnd (seqZ 0 gridSize) cur) as [shuffled cur'] eqn:Hs.
  cbn [fst]. intros Hp.
  apply (placeRows_cols _ shuffled) in Hp; [|by intros q Hq%elem_of_nil].
  assert (Hin : col p ∈ (shuffleArray rnd (seqZ 0 gridSize) cur).1)
    by (by rewrite Hs).
  apply shuffleArray_elem, elem_of_seqZ in Hin. lia.
Qed.

Lemma attemptLoop_cols rnd remaining :
  ∀ sol cur,
    (∀ p, p ∈ sol → 0 ≤ col p < gridSize) →
    ∀ p, p ∈ (attemptLoop rnd remaining sol cur).1 → 0 ≤ col p < gridSize.
Proof.
  induction remaining as [|n IH]; intros sol cur Hsol; cbn [attemptLoop]; [done|].
  destruct (Z.of_nat (length sol) <? gridSize); [|done].
  pose proof (attempt_cols rnd cur) as Ha.
  destruct (attempt rnd cur) as [sol' cur']. by apply IH.
Qed.

Lemma cellOf_row p : 0 ≤ col p < gridSize → cellOf p / gridSize = row p.
Proof.
  intros Hc. unfold cellOf, cellIndex, gridSize in *. symmetry.
  apply (Z.div_unique _ _ _ (col p)); lia.
Qed.

Lemma goodPrefix_onBoard sol :
  goodPrefix sol → Z.of_nat (length sol) = gridSize →
  (∀ p, p ∈ sol → 0 ≤ col p < gridSize) →
  solutionOnBoard sol.
Proof.
  intros (Hrow & _ & _) Hlen Hcols. split; [done|]. split.
  - intros p Hp. split; [|by apply Hcols].
    apply list_elem_of_lookup in Hp as [k Hk].
    pose proof (lookup_lt_Some _ _ _ Hk). rewrite (Hrow k p Hk). lia.
  - apply NoDup_alt. intros i j x Hi Hj.
    apply list_lookup_fmap_Some in Hi as (p & -> & Hp).
    apply list_lookup_fmap_Some in Hj as (q & Heq & Hq).
    assert (Hrows : row p = row q).
    { rewrite <- (cellOf_row p), <- (cellOf_row q), Heq; [done| |];
        apply Hcols, list_elem_of_lookup; eauto. }
    rewrite (Hrow i p Hp), (Hrow j q Hq) in Hrows. lia.
Qed.

(** The solution handed to region generation is always one of
    [gridSize] beans in distinct cells of the board. *)
Lemma generateValidSolution_onBoard (rnd : nat → nat) (g : Game) (cur : nat) :
  solutionOnBoard (solution (generateValidSolution rnd g cur).1).
Proof.
  unfold generateValidSolution.
  pose proof (attemptLoop_goodPrefix rnd maxAttempts [] cur goodPrefix_nil) as Hgood.
  pose proof (attemptLoop_cols rnd maxAttempts [] cur) as Hcols.
  destruct (attemptLoop rnd maxAttempts [] cur) as [sol cur']. cbn [fst] in *.
  destruct (decide (Z.of_nat (length sol) = gridSize)) as [Hlen|Hlen];
    cbn [fst solution set_solution].
  - apply goodPrefix_onBoard; [done|done|].
    apply Hcols. by intros p Hp%elem_of_nil.
  - apply goodPrefix_onBoard; [apply generateFallbackSolution_goodPrefix|reflexivity|].
    apply Forall_forall. refine (bool_decide_unpack _ _). vm_compute. exact I.
Qed.

(** ** The player-side checker: incomplete placements *)

(** C10: while the game is active, a call of [checkSolution] with a
    number of placed beans other than [gridSize] shows the
    place-all-beans message, computes no violation and leaves every game
    variable as it was. *)
Theorem checkSolution_incomplete (g : Game) :
  gameActive g = true →
  Z.of_nat (length (beansPlaced g)) ≠ gridSize →
  checkSolution g = (g, mkReport (Some (PlaceAllBeansFirst gridSize)) None).
Proof.
  intros Hactive Hlen. unfold checkSolution. rewrite Hactive. cbn [negb].
  rewrite bool_decide_eq_false_2 by done. reflexivity.
Qed.

Lemma checkSolution_incomplete_witness :
  checkSolution (mkGame [] [mkBean 0 0 None] [] [] [] true)
  = (mkGame [] [mkBean 0 0 None] [] [] [] true,
     mkReport (Some (PlaceAllBeansFirst gridSize)) None).
Proof.
  apply (checkSolution_incomplete (mkGame [] [mkBean 0 0 None] [] [] [] true));
    [reflexivity | vm_compute; discriminate].
Defined.

(** ** The counting search *)

Lemma touchesExisting_isValidPlacement r c placed :
  touchesExisting r c placed = negb (isValidPlacement r c placed).
Proof.
  induction placed as [|b placed IH]; simpl; [done|].
  by destruct (touching (row b) (col b) r c).
Qed.

Lemma pop_snoc {A} (l : list A) x : pop (l ++ [x]) = l.
Proof.
  unfold pop. rewrite length_app. simpl.
  replace (length l + 1 - 1)%nat with (length l) by lia.
  by rewrite take_app_length.
Qed.

Lemma bump_bump s a b :
  bump (bump s a) b = bump s (a + b).
Proof.
  unfold bump, maxSolutions. simpl. f_equal. lia.
Qed.

Lemma bump_id s :
  solutionCount s < maxSolutions → bump s 0 = s.
Proof.
  intros H. destruct s as [n p uc ur]. unfold bump, maxSolutions in *.
  simpl in *. f_equal. lia.
Qed.

Lemma bump_capped s a b :
  maxSolutions ≤ solutionCount (bump s a) → bump s (a + b) = bump s a.
Proof.
  unfold bump, maxSolutions. simpl. intros H. f_equal. lia.
Qed.

Lemma list_to_set_snoc `{Countable A} (l : list A) (x : A) :
  list_to_set (C := gset A) (l ++ [x]) = {[x]} ∪ list_to_set l.
Proof.
  rewrite list_to_set_app_L. simpl. rewrite (right_id_L ∅ (∪)).
  apply (comm_L (∪)).
Qed.

Lemma union_difference_singleton `{Countable A} (x : A) (X : gset A) :
  x ∉ X → ({[x]} ∪ X) ∖ {[x]} = X.
Proof.
  intros Hx. apply set_eq. intros y.
  rewrite elem_of_difference, elem_of_union, elem_of_singleton.
  split; [intros [[?|?] ?]; done|].
  intros Hy. split; [by right|]. intros ->. done.
Qed.

Lemma tryCols_spec (rec : Machine → option (bool * Machine)) g r
    (next : list Pos → nat) :
  (∀ s, consistent (regions g) s → solutionCount s < maxSolutions →
        rec (g, s) = Some (stopFlag (bump s (next (placedBeans s))),
                           (g, bump s (next (placedBeans s))))) →
  ∀ cols s, consistent (regions g) s → solutionCount s < maxSolutions →
    let n := sum_list_with (fun c =>
                 if canPlace (regions g) (placedBeans s) r c
                 then next (placedBeans s ++ [mkPos r c]) else 0%nat) cols in
    tryCols rec r cols (g, s) = Some (stopFlag (bump s n), (g, bump s n)).
Proof.
  intros Hrec cols. induction cols as [|c cols IH]; intros s Hcons Hlt n.
  - subst n. simpl. rewrite bump_id by done.
    unfold stopFlag. rewrite bool_decide_eq_false_2 by lia. done.
  - subst n. cbn [tryCols sum_list_with]. unfold canPlace.
    destruct Hcons as [Hcols Hregs].
    destruct (decide (c ∈ usedCols s)) as [Hc|Hc].
    { rewrite (bool_decide_eq_false_2 (c ∉ _)).
      2:{ intros Hn. apply Hn. rewrite Hcols in Hc. by apply elem_of_list_to_set in Hc. }
      simpl. by apply IH. }
    rewrite (bool_decide_eq_true_2 (c ∉ _)).
    2:{ intros Hn. apply Hc. rewrite Hcols. by apply elem_of_list_to_set. }
    destruct (decide (regionAt (regions g) (cellIndex r c) ∈ usedRegions s)) as [Hr|Hr].
    { rewrite (bool_decide_eq_false_2 (_ ∉ _)).
      2:{ intros Hn. apply Hn. rewrite Hregs in Hr. by apply elem_of_list_to_set in Hr. }
      simpl. by apply IH. }
    rewrite (bool_decide_eq_true_2 (_ ∉ _)).
    2:{ intros Hn. apply Hr. rewrite Hregs. by apply elem_of_list_to_set. }
    destruct (touchesExisting r c (placedBeans s)) eqn:Ht.
    { simpl. by apply IH. }
    cbn [andb negb].
    set (s1 := mkSearch (solutionCount s) (placedBeans s ++ [mkPos r c])
                 ({[c]} ∪ usedCols s)
                 ({[regionAt (regions g) (cellIndex r c)]} ∪ usedRegions s)).
    assert (Hcons1 : consistent (regions g) s1).
    { split; unfold s1; cbn [placedBeans usedCols usedRegions];
        rewrite fmap_app; cbn [fmap list_fmap]; rewrite list_to_set_snoc.
      - by rewrite <- Hcols.
      - by rewrite <- Hregs. }
    rewrite (Hrec s1 Hcons1 Hlt). cbn [mbind option_bind].
    cbn [placedBeans solutionCount usedCols usedRegions bump s1].
    rewrite pop_snoc.
    rewrite !union_difference_singleton by done.
    set (n1 := next (placedBeans s ++ [mkPos r c])).
    fold (bump s n1).
    change (stopFlag (bump s1 n1)) with (stopFlag (bump s n1)).
    destruct (stopFlag (bump s n1)) eqn:Hstop.
    + pose proof Hstop as Hstop'.
      unfold stopFlag in Hstop. apply bool_decide_eq_true_1 in Hstop.
      by rewrite (bump_capped _ _ _ Hstop), Hstop'.
    + unfold stopFlag in Hstop. apply bool_decide_eq_false_1 in Hstop.
      assert (Hlt' : solutionCount (bump s n1) < maxSolutions) by lia.
      assert (Hcons' : consistent (regions g) (bump s n1)) by (by split).
      rewrite (IH (bump s n1) Hcons' Hlt').
      cbn [placedBeans bump]. fold (bump s n1). by rewrite !bump_bump.
Qed.

Lemma solve_spec g k :
  ∀ fuel r s, (k ≤ fuel)%nat → r = gridSize - Z.of_nat k →
    consistent (regions g) s → solutionCount s < maxSolutions →
    let n := countFrom (regions g) k r (placedBeans s) in
    solve fuel r (g, s) = Some (stopFlag (bump s n), (g, bump s n)).
Proof.
  induction k as [|k IH]; intros fuel r s Hfuel Hr Hcons Hlt n.
  - assert (r = gridSize) as -> by lia. subst n.
    destruct fuel; cbn [solve countFrom];
      (destruct (decide (gridSize = gridSize)); [|done]);
      unfold stopFlag, bump; cbn [solutionCount];
      unfold maxSolutions in *;
      replace (Z.min 2 (solutionCount s + Z.of_nat 1)) with (solutionCount s + 1) by lia;
      reflexivity.
  - destruct fuel as [|fuel]; [lia|]. subst n. cbn [solve countFrom].
    destruct (decide (r = gridSize)) as [Heq|_]; [lia|].
    apply (tryCols_spec (solve fuel (r + 1)) g r
             (countFrom (regions g) k (r + 1))); [|done|done].
    intros s' Hcons' Hlt'. apply IH; [lia|lia|done|done].
Qed.

Lemma countSolutions_eq g :
  countSolutions g
  = Some (Z.min maxSolutions (Z.of_nat (countFrom (regions g) solveFuel 0 [])), g).
Proof.
  unfold countSolutions.
  rewrite (solve_spec g solveFuel solveFuel 0 (mkSearch 0 [] ∅ ∅));
    [reflexivity|lia|reflexivity| |reflexivity].
  split; reflexivity.
Qed.

(** C9: a call of [countSolutions] returns a count and leaves every game
    variable, [solution] and [regions] among them, exactly as it found
    it. *)
Theorem countSolutions_frame (g : Game) :
  ∃ n g', countSolutions g = Some (n, g')
          ∧ solution g' = solution g ∧ regions g' = regions g ∧ g' = g.
Proof.
  eexists _, g. rewrite countSolutions_eq. repeat split.
Qed.

(** ** The uniqueness loop *)

Lemma set_regions_twice g a b : set_regions (set_regions g a) b = set_regions g b.
Proof. reflexivity. Qed.

Lemma regenerate_S rnd budget g cur :
  regenerate rnd (S budget) g cur =
  '(rs, cur1) ← growRegions rnd (solution g) cur;
  ok ← allConnected rs (seqZ 0 gridSize);
  if ok : bool then Some (set_regions g rs, cur1, AllRegionsVerified)
  else regenerate rnd budget (set_regions g rs) cur1.
Proof. reflexivity. Qed.

Lemma regenerate_frame rnd budget g cur g' cur' v :
  regenerate rnd budget g cur = Some (g', cur', v) →
  g' = set_regions g (regions g').
Proof.
  revert g cur. induction budget as [|n IH]; intros g cur H.
  - inversion H; subst. by destruct g'.
  - rewrite regenerate_S in H.
    destruct (growRegions rnd (solution g) cur) as [[rs cur1]|]; [|done].
    cbn [mbind option_bind] in H.
    destruct (allConnected rs (seqZ 0 gridSize)) as [[|]|]; [| |done];
      cbn [mbind option_bind] in H.
    + by inversion H.
    + apply IH in H. rewrite H at 1. apply set_regions_twice.
Qed.

Lemma generateRegionsFromSolution_set_regions rnd k g cur g' cur' v :
  generateRegionsFromSolution rnd k g cur = Some (g', cur', v) →
  g' = set_regions g (regions g').
Proof.
  unfold generateRegionsFromSolution.
  apply (regenerate_frame rnd (Z.to_nat (maxRegenerationAttempts - k))).
Qed.

Lemma generateRegionsFromSolution_frame rnd k g cur g' cur' v :
  generateRegionsFromSolution rnd k g cur = Some (g', cur', v) →
  solution g' = solution g ∧ beansPlaced g' = beansPlaced g
  ∧ xMarkers g' = xMarkers g ∧ autoXMarkers g' = autoXMarkers g
  ∧ gameActive g' = gameActive g.
Proof.
  intros H. apply generateRegionsFromSolution_set_regions in H.
  rewrite H. repeat split.
Qed.

Lemma loopStep_solution rnd a b :
  rtc (loopStep rnd) a b → solution b.1 = solution a.1.
Proof.
  induction 1 as [|a b c (n & v & _ & _ & Hgen) _ IH]; [done|].
  apply generateRegionsFromSolution_frame in Hgen as [Hsol _]. congruence.
Qed.

Lemma uniquenessLoop_steps rnd fuel g cur g' cur' :
  uniquenessLoop rnd fuel g cur = Some (g', cur') →
  rtc (loopStep rnd) (g, cur) (g', cur')
  ∧ countSolutions g' = Some (1, g').
Proof.
  revert g cur. induction fuel as [|fuel IH]; intros g cur H; [done|].
  cbn [uniquenessLoop] in H. rewrite countSolutions_eq in H.
  cbn [mbind option_bind] in H.
  destruct (decide (_ = 1)) as [Hone|Hne].
  - inversion H; subst. split; [constructor|].
    rewrite countSolutions_eq. by rewrite Hone.
  - destruct (generateRegionsFromSolution rnd 0 g cur) as [[[g2 cur2] v]|] eqn:Hgen;
      [|done].
    cbn [mbind option_bind] in H. apply IH in H as [Hrtc Hcount].
    split; [|done]. eapply rtc_l; [|exact Hrtc].
    eexists _, v. cbn [fst snd]. rewrite countSolutions_eq. done.
Qed.

(** C3: whenever the uniqueness loop of [initializeGame] is left, every
    state it went through holds the solution it started with (a pass
    only replaces [regions]), and [countSolutions] on the final state
    returns exactly one. *)
Theorem uniquenessLoop_exit (rnd : nat → nat) (fuel : nat) (g g' : Game)
    (cur cur' : nat) :
  uniquenessLoop rnd fuel g cur = Some (g', cur') →
  rtc (loopStep rnd) (g, cur) (g', cur')
  ∧ (∀ h c, rtc (loopStep rnd) (g, cur) (h, c) → solution h = solution g)
  ∧ (∀ a b, loopStep rnd a b → b.1 = set_regions a.1 (regions b.1))
  ∧ countSolutions g' = Some (1, g').
Proof.
  intros H. apply uniquenessLoop_steps in H as [Hrtc Hcount].
  split; [done|]. split; [|split; [|done]].
  - intros h c Hh. by apply (loopStep_solution rnd (g, cur) (h, c)).
  - intros a b (n & v & _ & _ & Hgen).
    by apply generateRegionsFromSolution_set_regions in Hgen.
Qed.

Lemma uniquenessLoop_exit_witness :
  ∃ g' cur',
    uniquenessLoop (sampleDraws 11) 8
      (mkGame [] [] [] [] generateFallbackSolution true) 0 = Some (g', cur')
    ∧ solution g' = generateFallbackSolution
    ∧ countSolutions g' = Some (1, g').
Proof.
  destruct (uniquenessLoop (sampleDraws 11) 8
              (mkGame [] [] [] [] generateFallbackSolution true) 0)
    as [[g' cur']|] eqn:Hrun.
  - exists g', cur'. split; [reflexivity|].
    destruct (uniquenessLoop_exit _ _ _ _ _ _ Hrun) as (Hrtc & Hsol & _ & Hcount).
    split; [exact (Hsol g' cur' Hrtc) | exact Hcount].
  - vm_compute in Hrun. discriminate Hrun.
Defined.

(** ** The player-side checker: order of the placement *)

Lemma countErrors_Permutation {A} mk (test : Z → A → bool) (beans beans' : list A) :
  beans ≡ₚ beans' → countErrors mk test beans = countErrors mk test beans'.
Proof.
  intros Hp. unfold countErrors. apply flat_map_ext. intros i.
  assert (Hl : length (filter (λ b, test i b = true) beans)
               = length (filter (λ b, test i b = true) beans'))
    by (by rewrite Hp).
  destruct (decide (length (filter (λ b, test i b = true) beans) = 1%nat)),
           (decide (length (filter (λ b, test i b = true) beans') = 1%nat));
    first [reflexivity | exfalso; congruence].
Qed.

Lemma elem_of_touchErrorsOf v b1 later :
  v ∈ touchErrorsOf b1 later ↔
  ∃ b2, b2 ∈ later
        ∧ touching (bean_row b1) (bean_col b1) (bean_row b2) (bean_col b2) = true
        ∧ v = TouchingError (bean_row b1 + 1) (bean_col b1 + 1)
                            (bean_row b2 + 1) (bean_col b2 + 1).
Proof.
  unfold touchErrorsOf. rewrite list_elem_of_In, in_flat_map. split.
  - intros (b2 & Hin & Hv). exists b2. rewrite list_elem_of_In. split; [done|].
    destruct (touching _ _ _ _); [|by inversion Hv].
    split; [done|]. by destruct Hv as [<-|[]].
  - intros (b2 & Hin & Ht & ->). exists b2. rewrite <- list_elem_of_In.
    split; [done|]. rewrite Ht. by left.
Qed.

Lemma elem_of_touchErrors v beans :
  v ∈ touchErrors beans ↔
  ∃ b1 b2, [b1; b2] `sublist_of` beans
           ∧ touching (bean_row b1) (bean_col b1) (bean_row b2) (bean_col b2) = true
           ∧ v = TouchingError (bean_row b1 + 1) (bean_col b1 + 1)
                               (bean_row b2 + 1) (bean_col b2 + 1).
Proof.
  induction beans as [|b beans IH]; cbn [touchErrors].
  - split; [by intros ?%elem_of_nil|].
    intros (b1 & b2 & Hs & _). apply sublist_nil_r in Hs. discriminate.
  - rewrite elem_of_app, elem_of_touchErrorsOf, IH. split.
    + intros [(b2 & Hin & Ht & ->)|(b1 & b2 & Hs & Ht & ->)].
      * exists b, b2. split; [|done]. apply sublist_skip.
        by apply singleton_sublist_l.
      * exists b1, b2. split; [|done]. by apply sublist_cons.
    + intros (b1 & b2 & Hs & Ht & ->).
      apply sublist_cons_r in Hs as [Hs|(l' & Heq & Hs)].
      * right. by exists b1, b2.
      * injection Heq as -> <-. left. exists b2.
        split; [|done]. by apply singleton_sublist_l.
Qed.

Lemma touchErrors_Permutation_incl beans beans' v :
  beans ≡ₚ beans' → v ∈ touchErrors beans →
  ∃ w, w ∈ touchErrors beans' ∧ sameViolation v w.
Proof.
  intros Hp (b1 & b2 & Hs & Ht & ->)%elem_of_touchErrors.
  assert (Hsub : [b1; b2] ⊆+ beans').
  { rewrite <- Hp. by apply sublist_submseteq. }
  apply submseteq_sublist_r in Hsub as (l & Hl & Hs').
  destruct l as [|a1 [|a2 [|]]];
    try (apply Permutation_length in Hl; discriminate).
  apply Permutation_length_2 in Hl as [[<- <-]|[<- <-]].
  - eexists. split; [|by left]. apply elem_of_touchErrors. by exists b1, b2.
  - eexists. split.
    + apply elem_of_touchErrors. exists b2, b1. split; [done|].
      split; [by rewrite touching_sym|reflexivity].
    + right. by eexists _, _, _, _.
Qed.

Lemma sameViolation_sym v w : sameViolation v w → sameViolation w v.
Proof.
  intros [->|(r1 & c1 & r2 & c2 & -> & ->)]; [by left|].
  right. by eexists _, _, _, _.
Qed.

Lemma collectErrors_Permutation rs beans beans' :
  beans ≡ₚ beans' →
  sameViolationSet (collectErrors rs beans) (collectErrors rs beans').
Proof.
  assert (Hincl : ∀ l l' v, l ≡ₚ l' → v ∈ collectErrors rs l →
            ∃ w, w ∈ collectErrors rs l' ∧ sameViolation v w).
  { intros l l' v Hp. unfold collectErrors.
    rewrite !(countErrors_Permutation _ _ l l' Hp), !elem_of_app.
    intros [H|[H|[H|H]]];
      try (exists v; split; [rewrite !elem_of_app; tauto|by left]).
    destruct (touchErrors_Permutation_incl l l' v Hp H) as (w & Hw & Hvw).
    exists w. rewrite !elem_of_app. tauto. }
  intros Hp. split.
  - intros v. by apply Hincl.
  - intros w Hw. destruct (Hincl beans' beans w (symmetry Hp) Hw) as (v & Hv & Hs).
    exists v. split; [done|]. by apply sameViolation_sym.
Qed.

Lemma checkSolution_inactive g :
  gameActive g = false → checkSolution g = (g, mkReport None None).
Proof. intros Hactive. unfold checkSolution. by rewrite Hactive. Qed.

Lemma checkSolution_full g :
  gameActive g = true →
  Z.of_nat (length (beansPlaced g)) = gridSize →
  checkSolution g
  = match collectErrors (regions g) (beansPlaced g) with
    | [] => (set_gameActive g false, mkReport (Some Congratulations) (Some []))
    | e :: errs =>
        (g, mkReport (Some (FoundErrors (length (e :: errs)))) (Some (e :: errs)))
    end.
Proof.
  intros Hactive Hlen. unfold checkSolution. rewrite Hactive. cbn [negb].
  rewrite bool_decide_eq_true_2 by done. cbn [negb].
  by destruct (collectErrors (regions g) (beansPlaced g)).
Qed.

(** C8, as stated, fails in its second half: on the solved sample
    board the first call computes the empty set of violations,
    congratulates and ends the game, and the call run again on the same
    placement returns at its first line: it computes no violation set
    and shows nothing. *)
Lemma checkSolution_rerun_silent :
  errors (checkSolution sampleGame).2 = Some []
  ∧ shown (checkSolution sampleGame).2 = Some Congratulations
  ∧ beansPlaced (checkSolution sampleGame).1 = beansPlaced sampleGame
  ∧ errors (checkSolution (checkSolution sampleGame).1).2 = None
  ∧ shown (checkSolution (checkSolution sampleGame).1).2 = None.
Proof. vm_compute. done. Qed.

(** C8: for a full placement on an active game, [checkSolution] computes
    the same set of violations (a touching pair named in either order)
    for every permutation of the placement sequence, and the call leaves
    the placement and the regions as they were.  Run again on the
    resulting state, it repeats itself exactly (same state, same message,
    same [errors]) when the first call found a violation; when the first
    call found none it has ended the game, and the second call computes
    no violation set and shows nothing.  In both cases the second call
    leaves the state the first one left. *)
Theorem checkSolution_order_independent (g : Game) (beans' : list Bean) :
  gameActive g = true →
  Z.of_nat (length (beansPlaced g)) = gridSize →
  beansPlaced g ≡ₚ beans' →
  ∃ errs errs',
    errors (checkSolution g).2 = Some errs
    ∧ errors (checkSolution (set_beansPlaced g beans')).2 = Some errs'
    ∧ sameViolationSet errs errs'
    ∧ beansPlaced (checkSolution g).1 = beansPlaced g
    ∧ regions (checkSolution g).1 = regions g
    ∧ (errs ≠ [] → checkSolution (checkSolution g).1 = checkSolution g)
    ∧ (errs = [] →
       checkSolution (checkSolution g).1
       = ((checkSolution g).1, mkReport None None))
    ∧ (checkSolution (checkSolution g).1).1 = (checkSolution g).1.
Proof.
  intros Hactive Hlen Hp.
  assert (Hlen' : Z.of_nat (length beans') = gridSize) by (by rewrite <- Hp).
  exists (collectErrors (regions g) (beansPlaced g)),
         (collectErrors (regions g) beans').
  pose proof (collectErrors_Permutation (regions g) _ _ Hp) as Hsame.
  pose proof (checkSolution_full g Hactive Hlen) as Hrun.
  pose proof (checkSolution_full (set_beansPlaced g beans') Hactive Hlen') as Hrun'.
  cbn [set_beansPlaced regions beansPlaced] in Hrun'.
  split; [|split; [|split; [exact Hsame|]]].
  - rewrite Hrun. by destruct (collectErrors (regions g) (beansPlaced g)).
  - rewrite Hrun'. by destruct (collectErrors (regions g) beans').
  - destruct (collectErrors (regions g) (beansPlaced g)) as [|e errs] eqn:He;
      rewrite Hrun; cbn [fst snd set_gameActive beansPlaced regions].
    + split; [done|]. split; [done|]. split; [done|].
      assert (Hoff : checkSolution (set_gameActive g false)
                     = (set_gameActive g false, mkReport None None))
        by (by apply checkSolution_inactive).
      split; [intros _; exact Hoff|]. by rewrite Hoff.
    + split; [done|]. split; [done|]. split; [intros _; exact Hrun|].
      split; [done|]. by rewrite Hrun.
Qed.

Lemma checkSolution_order_independent_witness :
  ∃ errs errs',
    errors (checkSolution clashGame).2 = Some errs
    ∧ errors (checkSolution (set_beansPlaced clashGame (reverse clashBeans))).2
      = Some errs'
    ∧ TouchingError 1 1 2 2 ∈ errs
    ∧ TouchingError 2 2 1 1 ∈ errs'
    ∧ errs ≠ errs'
    ∧ sameViolationSet errs errs'
    ∧ checkSolution (checkSolution clashGame).1 = checkSolution clashGame.
Proof.
  destruct (checkSolution_order_independent clashGame (reverse clashBeans))
    as (errs & errs' & Herrs & Herrs' & Hsame & _ & _ & Hagain & _).
  - reflexivity.
  - reflexivity.
  - refine (bool_decide_unpack _ _). vm_compute. exact I.
  - exists errs, errs'. split; [exact Herrs|]. split; [exact Herrs'|].
    vm_compute in Herrs. vm_compute in Herrs'.
    injection Herrs as <-. injection Herrs' as <-.
    split; [repeat first [by left | right]|].
    split; [repeat first [by left | right]|].
    split; [discriminate|]. split; [exact Hsame|].
    apply Hagain. discriminate.
Defined.

(** ** The counting search against the exact number of solutions *)

Lemma countIf_app {A} (t : A → bool) l1 l2 :
  countIf t (l1 ++ l2) = (countIf t l1 + countIf t l2)%nat.
Proof. induction l1 as [|x l1 IH]; simpl; [done|]. rewrite IH. lia. Qed.

Lemma countIf_fmap {A B} (f : A → B) (t : B → bool) l :
  countIf t (f <$> l) = countIf (fun x => t (f x)) l.
Proof.
  induction l as [|x l IH]; [done|].
  rewrite fmap_cons. cbn [countIf]. by rewrite IH.
Qed.

Lemma countIf_bind {A B} (f : A → list B) (t : B → bool) l :
  countIf t (l ≫= f) = sum_list_with (fun x => countIf t (f x)) l.
Proof.
  induction l as [|x l IH]; [done|].
  change ((x :: l) ≫= f) with (f x ++ (l ≫= f)).
  rewrite countIf_app, IH. reflexivity.
Qed.

Lemma countIf_ext {A} (t t' : A → bool) l :
  (∀ x, x ∈ l → t x = t' x) → countIf t l = countIf t' l.
Proof.
  induction l as [|x l IH]; intros H; simpl; [done|].
  rewrite (H x) by left. rewrite IH; [done|].
  intros y Hy. apply H. by right.
Qed.

Lemma countIf_false {A} (t : A → bool) l :
  (∀ x, x ∈ l → t x = false) → countIf t l = 0%nat.
Proof.
  induction l as [|x l IH]; intros H; simpl; [done|].
  rewrite (H x) by left. rewrite IH; [done|].
  intros y Hy. apply H. by right.
Qed.

Lemma countIf_pos_lookup {A} (t : A → bool) l :
  (0 < countIf t l)%nat → ∃ (n : nat) x, l !! n = Some x ∧ t x = true.
Proof.
  induction l as [|a l IH]; cbn [countIf]; [lia|].
  destruct (t a) eqn:Ha.
  - intros _. by exists 0%nat, a.
  - intros Hpos. destruct IH as (n & x & Hn & Hx); [lia|]. by exists (S n), x.
Qed.

Lemma sum_list_with_ext {A} (f g : A → nat) l :
  (∀ x, x ∈ l → f x = g x) → sum_list_with f l = sum_list_with g l.
Proof.
  induction l as [|x l IH]; intros H; simpl; [done|].
  rewrite (H x) by left. rewrite IH; [done|].
  intros y Hy. apply H. by right.
Qed.

Lemma countFrom_countIf rs k :
  ∀ r placed,
    countFrom rs k r placed = countIf (legalFrom rs placed) (rowPlacements k r).
Proof.
  induction k as [|k IH]; intros r placed; [reflexivity|].
  cbn [countFrom rowPlacements]. rewrite countIf_bind.
  apply sum_list_with_ext. intros c _.
  rewrite countIf_fmap. cbn [legalFrom row col].
  destruct (canPlace rs placed r c); cbn [andb].
  - apply IH.
  - symmetry. by apply countIf_false.
Qed.

Lemma touchesExisting_false r c placed :
  touchesExisting r c placed = false ↔
  ∀ b, b ∈ placed → touching (row b) (col b) r c = false.
Proof.
  rewrite touchesExisting_isValidPlacement, negb_false_iff.
  apply isValidPlacement_true.
Qed.

Lemma canPlace_spec rs placed r c :
  canPlace rs placed r c = true ↔
  (c ∉ (col <$> placed))
  ∧ (regionAt rs (cellIndex r c) ∉ (regionOf rs <$> placed))
  ∧ ∀ b, b ∈ placed → touching (row b) (col b) r c = false.
Proof.
  unfold canPlace.
  rewrite !andb_true_iff, !bool_decide_eq_true, negb_true_iff, touchesExisting_false.
  tauto.
Qed.

Lemma apart_snoc l q :
  apart (l ++ [q]) ↔
  apart l ∧ ∀ b, b ∈ l → touching (row b) (col b) (row q) (col q) = false.
Proof.
  split.
  - intros H. split.
    + intros i j a b Hij Hi Hj. apply (H i j); [done| |].
      * by apply lookup_app_l_Some.
      * by apply lookup_app_l_Some.
    + intros b [i Hi]%list_elem_of_lookup.
      apply (H i (length l)).
      * by apply lookup_lt_Some in Hi.
      * by apply lookup_app_l_Some.
      * by rewrite list_lookup_middle.
  - intros [Hl Hq] i j a b Hij Hi Hj.
    apply lookup_app_Some in Hj as [Hj|[Hge Hj]].
    + assert (Hi' : l !! i = Some a).
      { apply lookup_lt_Some in Hj. by rewrite lookup_app_l in Hi by lia. }
      by apply (Hl i j).
    + apply list_lookup_singleton_Some in Hj as [Hj <-].
      assert (Hi' : l !! i = Some a) by (by rewrite lookup_app_l in Hi by lia).
      apply Hq. apply list_elem_of_lookup. eauto.
Qed.

Lemma NoDup_snoc {A} (l : list A) x : NoDup (l ++ [x]) ↔ NoDup l ∧ x ∉ l.
Proof.
  rewrite NoDup_app. split.
  - intros (Hl & Hx & _). split; [done|]. intros Hin.
    apply (Hx x Hin). by apply list_elem_of_singleton.
  - intros [Hl Hx]. split; [done|]. split; [|apply NoDup_singleton].
    intros y Hy ->%list_elem_of_singleton. done.
Qed.

Lemma legal_snoc rs l q :
  legal rs (l ++ [q]) ↔ legal rs l ∧ canPlace rs l (row q) (col q) = true.
Proof.
  unfold legal. rewrite canPlace_spec, !fmap_app. cbn [fmap list_fmap].
  rewrite !NoDup_snoc, apart_snoc. unfold regionOf at 2. tauto.
Qed.

Lemma apart_app_l l1 l2 : apart (l1 ++ l2) → apart l1.
Proof.
  intros H i j a b Hij Hi Hj.
  apply (H i j); [done| |]; by apply lookup_app_l_Some.
Qed.

Lemma legal_app_l rs l1 l2 : legal rs (l1 ++ l2) → legal rs l1.
Proof.
  unfold legal. rewrite !fmap_app. intros (Hc & Hr & Ha).
  apply NoDup_app in Hc as [Hc _]. apply NoDup_app in Hr as [Hr _].
  split; [done|]. split; [done|]. by apply apart_app_l in Ha.
Qed.

Lemma legalFrom_legal rs rest :
  ∀ placed, legal rs placed →
    (legalFrom rs placed rest = true ↔ legal rs (placed ++ rest)).
Proof.
  induction rest as [|q rest IH]; intros placed Hl; cbn [legalFrom].
  - rewrite app_nil_r. tauto.
  - replace (placed ++ q :: rest) with ((placed ++ [q]) ++ rest)
      by (by rewrite <- app_assoc).
    destruct (canPlace rs placed (row q) (col q)) eqn:Hc; cbn [andb].
    + apply IH. apply legal_snoc. by split.
    + split; [discriminate|]. intros H%legal_app_l%legal_snoc.
      destruct H as [_ H]. congruence.
Qed.

Lemma legal_nil rs : legal rs [].
Proof.
  split; [constructor|]. split; [constructor|].
  intros i j a b _ Hi. by rewrite lookup_nil in Hi.
Qed.

Lemma rowPlacements_shape k :
  ∀ r p, p ∈ rowPlacements k r →
    length p = k ∧ row <$> p = seqZ r (Z.of_nat k)
    ∧ ∀ q, q ∈ p → 0 ≤ col q < gridSize.
Proof.
  induction k as [|k IH]; intros r p Hp; cbn [rowPlacements] in Hp.
  - apply list_elem_of_singleton in Hp as ->. split; [done|]. split; [done|].
    intros q Hq. by apply elem_of_nil in Hq.
  - apply list_elem_of_bind in Hp as (c & Hp & Hc).
    apply list_elem_of_fmap in Hp as (rest & -> & Hrest).
    destruct (IH _ _ Hrest) as (Hlen & Hrows & Hcols).
    split; [simpl; by rewrite Hlen|]. split.
    + rewrite fmap_cons, Hrows. cbn [row].
      rewrite (seqZ_cons r (Z.of_nat (S k))) by lia.
      do 2 f_equal; lia.
    + intros q [->|Hq]%elem_of_cons; [|by apply Hcols].
      apply elem_of_seqZ in Hc. simpl. lia.
Qed.

Lemma countIf_pos {A} `{EqDecision A} (l : list A) x :
  x ∈ l → (1 ≤ countIf (fun y => bool_decide (y = x)) l)%nat.
Proof.
  induction l as [|a l IH]; [by intros ?%elem_of_nil|].
  intros [->|Hin]%elem_of_cons; cbn [countIf].
  - rewrite bool_decide_eq_true_2 by done. lia.
  - specialize (IH Hin). lia.
Qed.

Lemma countIf_NoDup_elem {A} `{EqDecision A} (l : list A) x :
  NoDup l → x ∈ l → countIf (fun y => bool_decide (y = x)) l = 1%nat.
Proof.
  induction 1 as [|a l Ha Hl IH]; [by intros ?%elem_of_nil|].
  intros [->|Hin]%elem_of_cons; cbn [countIf].
  - rewrite bool_decide_eq_true_2 by done.
    destruct (countIf (λ y, bool_decide (y = a)) l) eqn:Hc; [done|].
    exfalso. apply Ha. clear -Hc.
    induction l as [|b l IH]; [done|]. cbn [countIf] in Hc.
    destruct (bool_decide_reflect (b = a)) as [->|]; [by left|].
    right. apply IH. exact Hc.
  - rewrite bool_decide_eq_false_2; [by rewrite IH|].
    intros ->. done.
Qed.

Lemma NoDup_of_counts {A} `{EqDecision A} (l : list A) :
  (∀ x, x ∈ l → countIf (fun y => bool_decide (y = x)) l = 1%nat) → NoDup l.
Proof.
  induction l as [|a l IH]; intros H; [constructor|].
  constructor.
  - intros Hin. pose proof (H a (list_elem_of_here _ _)) as Ha.
    cbn [countIf] in Ha. rewrite bool_decide_eq_true_2 in Ha by done.
    pose proof (countIf_pos l a Hin). lia.
  - apply IH. intros x Hx.
    pose proof (H x (list_elem_of_further _ _ _ Hx)) as Hc.
    cbn [countIf] in Hc. pose proof (countIf_pos l x Hx).
    destruct (bool_decide (a = x)); lia.
Qed.

Lemma pigeonhole {A} (l k : list A) y :
  NoDup l → (∀ x, x ∈ l → x ∈ k) → (length k ≤ length l)%nat → y ∈ k → y ∈ l.
Proof.
  intros Hl Hsub Hlen Hy.
  assert (Hp : l ≡ₚ k).
  { apply submseteq_length_Permutation; [|done]. by apply NoDup_submseteq. }
  by rewrite Hp.
Qed.

Lemma noneTouching_apart p : noneTouching p = true ↔ apart p.
Proof.
  induction p as [|a p IH]; cbn [noneTouching].
  - split; [|done]. intros _ i j x y _ Hi. by rewrite lookup_nil in Hi.
  - rewrite andb_true_iff, forallb_forall, IH. split.
    + intros [Ha Hp] i j x y Hij Hi Hj.
      destruct j as [|j]; [lia|]. cbn in Hj.
      destruct i as [|i]; cbn in Hi.
      * injection Hi as <-. apply negb_true_iff. apply Ha.
        apply list_elem_of_In, list_elem_of_lookup. eauto.
      * apply (Hp i j); [lia|done|done].
    + intros H. split.
      * intros b [j Hj]%list_elem_of_In%list_elem_of_lookup.
        apply negb_true_iff. by apply (H 0%nat (S j)); [lia| |].
      * intros i j x y Hij Hi Hj. by apply (H (S i) (S j)); [lia| |].
Qed.

Lemma forallb_seqZ (f : Z → bool) m n :
  forallb f (seqZ m n) = true ↔ ∀ i, m ≤ i < m + n → f i = true.
Proof.
  rewrite forallb_forall. split.
  - intros H i Hi. apply H, list_elem_of_In, elem_of_seqZ. done.
  - intros H i Hi%list_elem_of_In%elem_of_seqZ. by apply H.
Qed.

Lemma satisfiesAll_spec rs p :
  satisfiesAll rs p = true ↔
  Z.of_nat (length p) = gridSize
  ∧ (∀ i, 0 ≤ i < gridSize →
       countIf (fun q => bool_decide (row q = i)) p = 1%nat)
  ∧ (∀ j, 0 ≤ j < gridSize →
       countIf (fun q => bool_decide (col q = j)) p = 1%nat)
  ∧ (∀ r, 0 ≤ r < gridSize →
       countIf (fun q => bool_decide (regionOf rs q = Some r)) p = 1%nat)
  ∧ apart p.
Proof.
  unfold satisfiesAll.
  rewrite !andb_true_iff, !forallb_seqZ, noneTouching_apart, bool_decide_eq_true.
  setoid_rewrite bool_decide_eq_true. rewrite !Z.add_0_l. tauto.
Qed.

Lemma countIf_fmap_eq {A B} `{EqDecision B} (f : A → B) (v : B) l :
  countIf (fun q => bool_decide (f q = v)) l
  = countIf (fun y => bool_decide (y = v)) (f <$> l).
Proof. by rewrite countIf_fmap. Qed.

Lemma regionMap_lookup rs r c :
  regionMap rs → 0 ≤ r < gridSize → 0 ≤ c < gridSize →
  ∃ v, regionAt rs (cellIndex r c) = Some v ∧ 0 ≤ v < gridSize.
Proof.
  intros [Hlen Hrange] Hr Hc. unfold regionAt, cellIndex, gridSize in *.
  rewrite (proj2 (Z.leb_le 0 _)) by lia.
  destruct (rs !! Z.to_nat (r * 8 + c)) as [v|] eqn:Hv.
  - exists v. split; [done|]. apply Hrange. apply list_elem_of_lookup. eauto.
  - apply lookup_ge_None in Hv. lia.
Qed.

Lemma satisfiesAll_legal rs p :
  regionMap rs → p ∈ rowPlacements (Z.to_nat gridSize) 0 →
  (satisfiesAll rs p = true ↔ legal rs p).
Proof.
  intros Hmap Hp. apply rowPlacements_shape in Hp as (Hlen & Hrows & Hcols).
  assert (Hreg : ∀ q, q ∈ p → ∃ v, regionOf rs q = Some v ∧ 0 ≤ v < gridSize).
  { intros q Hq. apply regionMap_lookup; [done| |by apply Hcols].
    assert (Hin : row q ∈ row <$> p) by (by apply list_elem_of_fmap_2).
    rewrite Hrows in Hin. apply elem_of_seqZ in Hin. unfold gridSize in *. lia. }
  rewrite satisfiesAll_spec. unfold legal. split.
  - intros (_ & _ & Hc & Hr & Ha). split; [|split; [|done]].
    + apply NoDup_of_counts. intros x Hx. rewrite countIf_fmap.
      apply list_elem_of_fmap in Hx as (q & -> & Hq). apply Hc. by apply Hcols.
    + apply NoDup_of_counts. intros x Hx. rewrite countIf_fmap.
      apply list_elem_of_fmap in Hx as (q & -> & Hq).
      destruct (Hreg q Hq) as (v & -> & Hv). by apply Hr.
  - intros (Hc & Hr & Ha). split; [unfold gridSize in *; lia|].
    split; [|split; [|split; [|done]]].
    + intros i Hi.
      rewrite (countIf_fmap_eq row i), Hrows.
      apply countIf_NoDup_elem; [apply NoDup_seqZ|].
      apply elem_of_seqZ. unfold gridSize in *. lia.
    + intros j Hj.
      rewrite (countIf_fmap_eq col j).
      apply countIf_NoDup_elem; [done|].
      apply (pigeonhole _ (seqZ 0 gridSize)); [done| | |].
      * intros x (q & -> & Hq)%list_elem_of_fmap. apply elem_of_seqZ.
        specialize (Hcols q Hq). lia.
      * rewrite length_fmap, length_seqZ. lia.
      * apply elem_of_seqZ. lia.
    + intros r Hr'.
      rewrite (countIf_fmap_eq (regionOf rs) (Some r)).
      apply countIf_NoDup_elem; [done|].
      apply (pigeonhole _ (Some <$> seqZ 0 gridSize)); [done| | |].
      * intros x (q & -> & Hq)%list_elem_of_fmap.
        destruct (Hreg q Hq) as (v & -> & Hv).
        apply list_elem_of_fmap_2, elem_of_seqZ. lia.
      * rewrite !length_fmap, length_seqZ. lia.
      * apply list_elem_of_fmap_2, elem_of_seqZ. lia.
Qed.

Lemma countFrom_numberOfSolutions rs :
  regionMap rs → countFrom rs solveFuel 0 [] = numberOfSolutions rs.
Proof.
  intros Hmap. rewrite countFrom_countIf. unfold numberOfSolutions, solveFuel.
  apply countIf_ext. intros p Hp.
  apply eq_true_iff_eq.
  rewrite (legalFrom_legal rs p [] (legal_nil rs)), app_nil_l.
  symmetry. by apply satisfiesAll_legal.
Qed.

(** C4: on every region map, [countSolutions] returns an integer between
    0 and 2: the exact number of placements of [gridSize] beans with one
    bean per row, per column and per region and no two beans touching
    when that number is 0 or 1, and 2 when it is 2 or more. *)
Theorem countSolutions_exact (g : Game) :
  regionMap (regions g) →
  ∃ n, countSolutions g = Some (n, g)
       ∧ 0 ≤ n ≤ 2
       ∧ (numberOfSolutions (regions g) = 0%nat → n = 0)
       ∧ (numberOfSolutions (regions g) = 1%nat → n = 1)
       ∧ ((2 ≤ numberOfSolutions (regions g))%nat → n = 2).
Proof.
  intros Hmap. eexists. rewrite countSolutions_eq. split; [reflexivity|].
  rewrite (countFrom_numberOfSolutions _ Hmap). unfold maxSolutions. lia.
Qed.

Lemma sampleRegions_regionMap : regionMap sampleRegions.
Proof.
  split; [reflexivity|]. apply Forall_forall.
  refine (bool_decide_unpack _ _). vm_compute. exact I.
Qed.

Lemma countSolutions_exact_witness :
  ∃ n, countSolutions sampleGame = Some (n, sampleGame)
       ∧ 0 ≤ n ≤ 2
       ∧ (numberOfSolutions (regions sampleGame) = 0%nat → n = 0)
       ∧ (numberOfSolutions (regions sampleGame) = 1%nat → n = 1)
       ∧ ((2 ≤ numberOfSolutions (regions sampleGame))%nat → n = 2).
Proof.
  apply (countSolutions_exact sampleGame). split; [reflexivity|].
  apply Forall_forall. refine (bool_decide_unpack _ _). vm_compute. exact I.
Defined.

(** *** Placements in any order

    [numberOfSolutions] counts the placements listed by increasing row.
    The lemmas below show that nothing is lost: the four constraints do
    not depend on the order in which the beans are listed, every list of
    beans that satisfies them is a reordering of one listed by row, and
    two lists by row that are reorderings of each other are equal. *)

Lemma countIf_Permutation {A} (t : A → bool) l l' :
  l ≡ₚ l' → countIf t l = countIf t l'.
Proof.
  induction 1 as [|x l l' _ IH|x y l|l l' l'' _ IH1 _ IH2]; cbn [countIf].
  - done.
  - by rewrite IH.
  - lia.
  - by rewrite IH1.
Qed.

Lemma apart_sublist p :
  apart p ↔
  ∀ a b, [a; b] `sublist_of` p → touching (row a) (col a) (row b) (col b) = false.
Proof.
  induction p as [|x p IH].
  - split.
    + intros _ a b Hs. apply sublist_nil_r in Hs. discriminate.
    + intros _ i j a b _ Hi. by rewrite lookup_nil in Hi.
  - split.
    + intros Hp a b Hs. apply sublist_cons_r in Hs as [Hs|(l' & Heq & Hs)].
      * apply IH; [|done]. intros i j c d Hij Hi Hj.
        by apply (Hp (S i) (S j)); [lia| |].
      * injection Heq as -> <-. apply singleton_sublist_l in Hs.
        apply list_elem_of_lookup in Hs as [j Hj].
        by apply (Hp 0%nat (S j)); [lia| |].
    + intros Hp i j a b Hij Hi Hj. destruct j as [|j]; [lia|]. cbn in Hj.
      destruct i as [|i]; cbn in Hi.
      * injection Hi as <-. apply Hp. apply sublist_skip.
        apply singleton_sublist_l, list_elem_of_lookup. eauto.
      * apply (proj2 IH) with (i := i) (j := j); [|lia|done|done].
        intros c d Hs. apply Hp. by apply sublist_cons.
Qed.

Lemma apart_Permutation p p' : p ≡ₚ p' → apart p → apart p'.
Proof.
  intros Hperm Hp. apply apart_sublist. intros a b Hs.
  assert (Hsub : [a; b] ⊆+ p).
  { rewrite Hperm. by apply sublist_submseteq. }
  apply submseteq_sublist_r in Hsub as (l & Hl & Hs').
  destruct l as [|a1 [|a2 [|]]];
    try (apply Permutation_length in Hl; discriminate).
  apply Permutation_length_2 in Hl as [[<- <-]|[<- <-]].
  - by apply (proj1 (apart_sublist p) Hp).
  - rewrite touching_sym. by apply (proj1 (apart_sublist p) Hp).
Qed.

Lemma satisfiesAll_Permutation rs p p' :
  p ≡ₚ p' → satisfiesAll rs p = true → satisfiesAll rs p' = true.
Proof.
  intros Hperm. rewrite !satisfiesAll_spec.
  intros (Hlen & Hrows & Hcols & Hregs & Hapart).
  split; [by rewrite <- Hperm|].
  split; [intros i Hi; rewrite <- (countIf_Permutation _ _ _ Hperm); by apply Hrows|].
  split; [intros j Hj; rewrite <- (countIf_Permutation _ _ _ Hperm); by apply Hcols|].
  split; [intros r Hr; rewrite <- (countIf_Permutation _ _ _ Hperm); by apply Hregs|].
  by apply (apart_Permutation p).
Qed.

Lemma countIf_one_elem {A} (t : A → bool) l :
  countIf t l = 1%nat → ∃ x, x ∈ l ∧ t x = true.
Proof.
  intros Hc. destruct (countIf_pos_lookup t l) as (n & x & Hn & Hx); [lia|].
  exists x. split; [|done]. apply list_elem_of_lookup. eauto.
Qed.

Lemma rowPlacements_intro k :
  ∀ r l,
    row <$> l = seqZ r (Z.of_nat k) →
    (∀ q, q ∈ l → 0 ≤ col q < gridSize) →
    l ∈ rowPlacements k r.
Proof.
  induction k as [|k IH]; intros r l Hrows Hcols.
  - destruct l; [by left|discriminate].
  - rewrite (seqZ_cons r (Z.of_nat (S k))) in Hrows by lia.
    destruct l as [|[r' c] l]; [discriminate|].
    rewrite fmap_cons in Hrows. injection Hrows as -> Hrows. cbn [rowPlacements].
    apply list_elem_of_bind. exists c. split.
    + apply list_elem_of_fmap_2. apply IH.
      * rewrite Hrows. f_equal; lia.
      * intros q Hq. apply Hcols. by right.
    + apply elem_of_seqZ. specialize (Hcols (mkPos r c) (list_elem_of_here _ _)).
      cbn in Hcols. lia.
Qed.

Lemma pick_by_row (p : list Pos) (rows : list Z) :
  (∀ i, i ∈ rows → ∃ q, q ∈ p ∧ row q = i) →
  ∃ l, row <$> l = rows ∧ ∀ q, q ∈ l → q ∈ p.
Proof.
  induction rows as [|i rows IH]; intros Hpick.
  - exists []. split; [done|]. intros q Hq. by apply elem_of_nil in Hq.
  - destruct (Hpick i (list_elem_of_here _ _)) as (q & Hq & Hrow).
    destruct IH as (l & Hl & Hsub).
    { intros j Hj. apply Hpick. by right. }
    exists (q :: l). split; [by rewrite fmap_cons, Hrow, Hl|].
    intros q' [->|Hq']%elem_of_cons; [done|by apply Hsub].
Qed.

(** Every list of beans that satisfies the four constraints is a
    reordering of a placement listed by row. *)
Lemma satisfiesAll_rowPlacements rs p :
  satisfiesAll rs p = true →
  ∃ p', p' ∈ rowPlacements (Z.to_nat gridSize) 0 ∧ p' ≡ₚ p
        ∧ satisfiesAll rs p' = true.
Proof.
  intros Hsat. pose proof Hsat as (Hlen & Hrows & Hcols & _)%satisfiesAll_spec.
  destruct (pick_by_row p (seqZ 0 gridSize)) as (p' & Hp' & Hsub).
  { intros i Hi%elem_of_seqZ.
    destruct (countIf_one_elem _ _ (Hrows i ltac:(lia))) as (q & Hq & Hrow).
    exists q. split; [done|]. by apply bool_decide_eq_true_1 in Hrow. }
  assert (Hlen' : length p' = Z.to_nat gridSize).
  { rewrite <- (length_fmap row), Hp'. apply length_seqZ. }
  assert (Hperm : p' ≡ₚ p).
  { apply submseteq_length_Permutation; [|lia].
    apply NoDup_submseteq; [|done].
    apply (NoDup_fmap_1 row). rewrite Hp'. apply NoDup_seqZ. }
  exists p'. split; [|split; [done|]].
  - apply rowPlacements_intro.
    + rewrite Hp'. reflexivity.
    + intros q Hq.
      assert (Hin : col q ∈ seqZ 0 gridSize).
      { assert (Hpc : seqZ 0 gridSize ≡ₚ col <$> p).
        { apply submseteq_length_Permutation.
          - apply NoDup_submseteq; [apply NoDup_seqZ|].
            intros j Hj%elem_of_seqZ.
            destruct (countIf_one_elem _ _ (Hcols j ltac:(lia))) as (q' & Hq' & Hc).
            apply bool_decide_eq_true_1 in Hc as <-. by apply list_elem_of_fmap_2.
          - rewrite length_fmap, length_seqZ. lia. }
        rewrite Hpc. apply list_elem_of_fmap_2. by apply Hsub. }
      apply elem_of_seqZ in Hin. lia.
  - apply (satisfiesAll_Permutation rs p); [by symmetry|done].
Qed.

(** Two placements listed by row that are reorderings of each other are
    the same list. *)
Lemma rowPlacements_Permutation_eq k :
  ∀ r p1 p2,
    p1 ∈ rowPlacements k r → p2 ∈ rowPlacements k r → p1 ≡ₚ p2 → p1 = p2.
Proof.
  intros r p1 p2 H1 H2 Hperm.
  apply rowPlacements_shape in H1 as (Hlen1 & Hrows1 & _).
  apply rowPlacements_shape in H2 as (Hlen2 & Hrows2 & _).
  apply list_eq. intros i.
  destruct (p1 !! i) as [a|] eqn:Ha.
  - destruct (p2 !! i) as [b|] eqn:Hb.
    2:{ apply lookup_ge_None in Hb. apply lookup_lt_Some in Ha. lia. }
    assert (Hin : a ∈ p2).
    { rewrite <- Hperm. apply list_elem_of_lookup. eauto. }
    apply list_elem_of_lookup in Hin as [j Hj].
    assert (Hra : (row <$> p1) !! i = Some (row a)) by (by rewrite list_lookup_fmap, Ha).
    assert (Hrj : (row <$> p2) !! j = Some (row a)) by (by rewrite list_lookup_fmap, Hj).
    rewrite Hrows1 in Hra. rewrite Hrows2 in Hrj.
    apply lookup_seqZ in Hra as [Hra _]. apply lookup_seqZ in Hrj as [Hrj _].
    assert (i = j) as -> by lia. congruence.
  - apply lookup_ge_None in Ha. symmetry. apply lookup_ge_None. lia.
Qed.

(** ** The flood fill of [isRegionConnected] *)

Lemma cellIndex_div r c : 0 ≤ c < gridSize → cellIndex r c / gridSize = r.
Proof.
  intros Hc. unfold cellIndex, gridSize in *. symmetry.
  apply (Z.div_unique _ _ _ c); lia.
Qed.

Lemma cellIndex_mod r c : 0 ≤ c < gridSize → cellIndex r c mod gridSize = c.
Proof.
  intros Hc. unfold cellIndex, gridSize in *. symmetry.
  apply (Z.mod_unique _ _ r); lia.
Qed.

Lemma cellIndex_decompose i :
  i = cellIndex (i / gridSize) (i mod gridSize).
Proof. unfold cellIndex, gridSize. pose proof (Z.div_mod i 8). lia. Qed.

Lemma onBoard_div_mod i :
  onBoard i ↔ 0 ≤ i / gridSize < gridSize ∧ 0 ≤ i mod gridSize < gridSize.
Proof.
  unfold onBoard, gridSize.
  pose proof (Z.div_mod i 8). pose proof (Z.mod_pos_bound i 8). lia.
Qed.

Lemma onBoard_cellIndex r c :
  0 ≤ r < gridSize → 0 ≤ c < gridSize → onBoard (cellIndex r c).
Proof. unfold onBoard, cellIndex, gridSize. lia. Qed.

Lemma outOfBounds_false r c :
  outOfBounds r c = false ↔ 0 ≤ r < gridSize ∧ 0 ≤ c < gridSize.
Proof.
  unfold outOfBounds. rewrite !orb_false_iff, !Z.ltb_ge, !Z.leb_gt. lia.
Qed.

(** The cells sharing an edge with a cell of the board are those of
    [neighbors4] that lie on the board. *)
Lemma adjacent4_neighbors4 r c j :
  0 ≤ r < gridSize → 0 ≤ c < gridSize → onBoard j →
  (adjacent4 (cellIndex r c) j ↔
   ∃ n, n ∈ neighbors4 r c ∧ outOfBounds (row n) (col n) = false
        ∧ j = cellIndex (row n) (col n)).
Proof.
  intros Hr Hc Hj. unfold adjacent4.
  rewrite cellIndex_div, cellIndex_mod by done.
  apply onBoard_div_mod in Hj. pose proof (cellIndex_decompose j) as Hdec.
  set (jr := j / gridSize) in *. set (jc := j mod gridSize) in *.
  unfold neighbors4. split.
  - intros [[Hrow Hcol]|[Hcol Hrow]].
    + destruct (decide (jc = c - 1)) as [Hl|Hl].
      * exists (mkPos r (c - 1)). split; [solve_elem|]. cbn [row col].
        rewrite outOfBounds_false. split; [lia|]. rewrite Hdec. f_equal; lia.
      * exists (mkPos r (c + 1)). split; [solve_elem|]. cbn [row col].
        rewrite outOfBounds_false. split; [lia|]. rewrite Hdec. f_equal; lia.
    + destruct (decide (jr = r - 1)) as [Hl|Hl].
      * exists (mkPos (r - 1) c). split; [solve_elem|]. cbn [row col].
        rewrite outOfBounds_false. split; [lia|]. rewrite Hdec. f_equal; lia.
      * exists (mkPos (r + 1) c). split; [solve_elem|]. cbn [row col].
        rewrite outOfBounds_false. split; [lia|]. rewrite Hdec. f_equal; lia.
  - intros (n & Hn & Hb & Hjn). apply outOfBounds_false in Hb.
    assert (Hjr : jr = row n).
    { subst jr. rewrite Hjn. apply cellIndex_div, Hb. }
    assert (Hjc : jc = col n).
    { subst jc. rewrite Hjn. apply cellIndex_mod, Hb. }
    rewrite !elem_of_cons, elem_of_nil in Hn.
    destruct Hn as [->|[->|[->|[->|[]]]]]; cbn [row col] in *; lia.
Qed.

Lemma adjacent4_sym i j : adjacent4 i j → adjacent4 j i.
Proof. unfold adjacent4. lia. Qed.

Lemma regionStep_sym rs r i j : regionStep rs r i j → regionStep rs r j i.
Proof. intros (Hi & Hj & Ha). split; [done|]. split; [done|]. by apply adjacent4_sym. Qed.

Lemma rtc_regionStep_sym rs r i j :
  rtc (regionStep rs r) i j → rtc (regionStep rs r) j i.
Proof.
  induction 1 as [|i k j Hik _ IH]; [constructor|].
  eapply rtc_r; [exact IH|]. by apply regionStep_sym.
Qed.

Lemma elem_of_board i : i ∈ board ↔ onBoard i.
Proof.
  unfold board, onBoard. rewrite elem_of_list_to_set, elem_of_seqZ. lia.
Qed.

Lemma size_board : size board = Z.to_nat (gridSize * gridSize).
Proof.
  unfold board. rewrite size_list_to_set by apply NoDup_seqZ.
  apply length_seqZ.
Qed.

Lemma size_board_add (v : gset Z) x :
  x ∈ board → x ∉ v →
  (size (board ∖ ({[x]} ∪ v)) + 1 = size (board ∖ v))%nat.
Proof.
  intros Hx Hv.
  assert (Heq : board ∖ v = {[x]} ∪ board ∖ ({[x]} ∪ v)).
  { apply set_eq. intros y.
    rewrite !elem_of_difference, !elem_of_union, elem_of_difference,
      !elem_of_union, !elem_of_singleton.
    destruct (decide (y = x)) as [->|]; tauto. }
  rewrite Heq, (size_union {[x]} (board ∖ ({[x]} ∪ v))), size_singleton; [lia|].
  intros y. rewrite elem_of_singleton, elem_of_difference, elem_of_union,
    elem_of_singleton. tauto.
Qed.

Lemma closedAt_mono rs r (v v' : gset Z) i :
  v ⊆ v' → closedAt rs r v i → closedAt rs r v' i.
Proof. intros Hsub Hc j Hj. apply Hsub. by apply Hc. Qed.

Lemma visitNeighbor_inv rs r start cur v q n v' q' :
  wfCell cur →
  n ∈ neighbors4 (cell_row cur) (cell_col cur) →
  floodInv rs r start (Some (cell_index cur)) v q →
  cell_index cur ∈ v →
  visitNeighbor rs r (v, q) n = (v', q') →
  floodInv rs r start (Some (cell_index cur)) v' q'
  ∧ v ⊆ v'
  ∧ (outOfBounds (row n) (col n) = false →
     regionAt rs (cellIndex (row n) (col n)) = Some r →
     cellIndex (row n) (col n) ∈ v')
  ∧ (length q' + size (board ∖ v') = length q + size (board ∖ v))%nat.
Proof.
  intros Hwf Hn Hinv Hcur Hvisit. unfold visitNeighbor in Hvisit.
  destruct (outOfBounds (row n) (col n)) eqn:Hb.
  { injection Hvisit as <- <-. split; [done|]. split; [done|].
    split; [discriminate|done]. }
  destruct (decide (cellIndex (row n) (col n) ∈ v)) as [Hseen|Hnew].
  { injection Hvisit as <- <-. split; [done|]. split; [done|]. split; done. }
  destruct (decide (regionAt rs (cellIndex (row n) (col n)) = Some r)) as [Hlab|Hlab].
  2:{ injection Hvisit as <- <-. split; [done|]. split; [done|]. split; done. }
  injection Hvisit as <- <-.
  set (idx := cellIndex (row n) (col n)) in *.
  pose proof (proj1 (outOfBounds_false _ _) Hb) as [Hrow Hcol].
  assert (Hon : onBoard idx) by (by apply onBoard_cellIndex).
  assert (Hsub : v ⊆ {[idx]} ∪ v) by (intros y Hy; apply elem_of_union; by right).
  destruct Hwf as (Hcr & Hcc & Hci).
  destruct (inv_reach _ _ _ _ _ _ Hinv _ Hcur) as [Hcurlab Hcurreach].
  split; [|split; [done|split]].
  - constructor.
    + intros i [Hi|Hi]%elem_of_union; [apply elem_of_singleton in Hi as ->|].
      * split; [exact (conj Hon Hlab)|]. eapply rtc_r; [exact Hcurreach|].
        split; [done|]. split; [exact (conj Hon Hlab)|].
        rewrite Hci. apply adjacent4_neighbors4; [done|done|done|].
        exists n. by rewrite Hb.
      * by apply (inv_reach _ _ _ _ _ _ Hinv).
    + intros c [Hc|Hc]%elem_of_app; [|apply list_elem_of_singleton in Hc as ->].
      * destruct (inv_queue _ _ _ _ _ _ Hinv _ Hc) as [Hcwf Hcv].
        split; [done|]. by apply Hsub.
      * split; [split; [exact Hrow|split; [exact Hcol|reflexivity]]|].
        cbn [cell_index].
        apply elem_of_union. left. by apply elem_of_singleton.
    + intros i [Hi|Hi]%elem_of_union; [apply elem_of_singleton in Hi as ->|].
      * right. left. eexists. split; [apply elem_of_app; right; by left|done].
      * destruct (inv_closed _ _ _ _ _ _ Hinv _ Hi) as [Hc|[(c & Hc & Hidx)|Hc]].
        -- by left.
        -- right. left. exists c. split; [|done]. apply elem_of_app. by left.
        -- right. right. by apply (closedAt_mono _ _ v).
  - intros _ _. apply elem_of_union. left. by apply elem_of_singleton.
  - rewrite length_app. cbn [length].
    pose proof (size_board_add v idx (proj2 (elem_of_board _) Hon) Hnew). lia.
Qed.

Lemma visitNeighbors_inv rs r start cur ns :
  wfCell cur →
  (∀ n, n ∈ ns → n ∈ neighbors4 (cell_row cur) (cell_col cur)) →
  ∀ v q v' q',
    floodInv rs r start (Some (cell_index cur)) v q →
    cell_index cur ∈ v →
    foldl (visitNeighbor rs r) (v, q) ns = (v', q') →
    floodInv rs r start (Some (cell_index cur)) v' q'
    ∧ v ⊆ v'
    ∧ (∀ n, n ∈ ns → outOfBounds (row n) (col n) = false →
         regionAt rs (cellIndex (row n) (col n)) = Some r →
         cellIndex (row n) (col n) ∈ v')
    ∧ (length q' + size (board ∖ v') = length q + size (board ∖ v))%nat.
Proof.
  intros Hwf. induction ns as [|n ns IH]; intros Hns v q v' q' Hinv Hcur Hfold.
  - cbn [foldl] in Hfold. injection Hfold as <- <-.
    split; [done|]. split; [done|]. split; [|done].
    intros n Hn. by apply elem_of_nil in Hn.
  - cbn [foldl] in Hfold.
    destruct (visitNeighbor rs r (v, q) n) as [v1 q1] eqn:Hstep.
    destruct (visitNeighbor_inv _ _ _ _ _ _ _ _ _ Hwf (Hns n (list_elem_of_here _ _))
                Hinv Hcur Hstep) as (Hinv1 & Hsub1 & Hn1 & Hm1).
    destruct (IH (λ m Hm, Hns m (list_elem_of_further _ _ _ Hm)) v1 q1 v' q'
                Hinv1 (Hsub1 _ Hcur) Hfold) as (Hinv2 & Hsub2 & Hn2 & Hm2).
    split; [done|]. split; [by transitivity v1|]. split; [|lia].
    intros m [Hm|Hm]%elem_of_cons Hb Hlab.
    + subst m. apply Hsub2. by apply Hn1.
    + by apply Hn2.
Qed.

Lemma floodFill_cons fuel rs r v cur rest :
  floodFill (S fuel) rs r v (cur :: rest) =
  let '(v', q') := foldl (visitNeighbor rs r) (v, rest)
                     (neighbors4 (cell_row cur) (cell_col cur)) in
  floodFill fuel rs r v' q'.
Proof. reflexivity. Qed.

Lemma floodFill_nil fuel rs r v : floodFill fuel rs r v [] = Some v.
Proof. by destruct fuel. Qed.

Lemma floodInv_expand rs r start v cur rest :
  floodInv rs r start None v (cur :: rest) →
  floodInv rs r start (Some (cell_index cur)) v rest.
Proof.
  intros [Hreach Hqueue Hclosed]. constructor; [done| |].
  - intros c Hc. apply Hqueue. by right.
  - intros i Hi. destruct (Hclosed i Hi) as [Hn|[(c & Hc & Hidx)|Hcl]].
    + discriminate.
    + apply elem_of_cons in Hc as [->|Hc]; [left; by rewrite Hidx|].
      right. left. by exists c.
    + by do 2 right.
Qed.

Lemma floodInv_expanded rs r start v q cur :
  wfCell cur →
  floodInv rs r start (Some (cell_index cur)) v q →
  (∀ n, n ∈ neighbors4 (cell_row cur) (cell_col cur) →
     outOfBounds (row n) (col n) = false →
     regionAt rs (cellIndex (row n) (col n)) = Some r →
     cellIndex (row n) (col n) ∈ v) →
  floodInv rs r start None v q.
Proof.
  intros (Hcr & Hcc & Hci) [Hreach Hqueue Hclosed] Hcover.
  constructor; [done|done|].
  intros i Hi. destruct (Hclosed i Hi) as [Hn|[Hq|Hcl]]; [|by right; left|by do 2 right].
  injection Hn as <-. do 2 right. intros j (_ & [Hjon Hjlab] & Hadj).
  rewrite Hci in Hadj.
  apply adjacent4_neighbors4 in Hadj as (n & Hn & Hb & ->); [|done|done|done].
  by apply Hcover.
Qed.

Lemma floodInv_final rs r start v :
  floodInv rs r start None v [] → start ∈ v →
  ∀ i, i ∈ v ↔ rtc (regionStep rs r) start i.
Proof.
  intros Hinv Hstart i. split; [by apply (inv_reach _ _ _ _ _ _ Hinv)|].
  revert i. apply rtc_ind_r; [done|]. intros i j Hij Hstep Hi.
  destruct (inv_closed _ _ _ _ _ _ Hinv _ Hi) as [Hn|[(c & Hc & _)|Hcl]].
  - discriminate.
  - by apply elem_of_nil in Hc.
  - by apply Hcl.
Qed.

Lemma floodFill_spec rs r start fuel :
  ∀ v q,
    floodInv rs r start None v q → start ∈ v →
    (length q + size (board ∖ v) ≤ fuel)%nat →
    ∃ v', floodFill fuel rs r v q = Some v'
          ∧ ∀ i, i ∈ v' ↔ rtc (regionStep rs r) start i.
Proof.
  induction fuel as [|fuel IH]; intros v q Hinv Hstart Hfuel;
    destruct q as [|cur rest]; try (cbn [length] in Hfuel; lia).
  1,2: exists v; rewrite floodFill_nil; (split; [reflexivity|]);
       by apply floodInv_final.
  rewrite floodFill_cons.
  destruct (foldl (visitNeighbor rs r) (v, rest)
              (neighbors4 (cell_row cur) (cell_col cur))) as [v1 q1] eqn:Hfold.
  destruct (inv_queue _ _ _ _ _ _ Hinv cur (list_elem_of_here _ _)) as [Hwf Hcur].
  destruct (visitNeighbors_inv rs r start cur _ Hwf (λ n Hn, Hn) v rest v1 q1
              (floodInv_expand _ _ _ _ _ _ Hinv) Hcur Hfold)
    as (Hinv1 & Hsub & Hcover & Hmeasure).
  apply IH.
  - by apply (floodInv_expanded _ _ _ _ _ cur).
  - by apply Hsub.
  - cbn [length] in Hfuel. lia.
Qed.

(** *** The cells collected for a region *)

Lemma regionCellsOf_indices rs r :
  cell_index <$> regionCellsOf rs r
  = filter (λ i, regionAt rs i = Some r) (seqZ 0 (gridSize * gridSize)).
Proof.
  unfold regionCellsOf.
  induction (seqZ 0 (gridSize * gridSize)) as [|i others IH]; [done|].
  cbn [flat_map]. rewrite fmap_app, IH, filter_cons.
  by destruct (decide (regionAt rs i = Some r)).
Qed.

Lemma elem_of_regionCellsOf_indices rs r i :
  i ∈ cell_index <$> regionCellsOf rs r ↔ labelled rs r i.
Proof.
  rewrite regionCellsOf_indices, list_elem_of_filter, elem_of_seqZ.
  unfold labelled, onBoard, gridSize. split; (intros [? ?]; split; [done || lia|done || lia]).
Qed.

Lemma NoDup_regionCellsOf_indices rs r :
  NoDup (cell_index <$> regionCellsOf rs r).
Proof. rewrite regionCellsOf_indices. apply NoDup_filter, NoDup_seqZ. Qed.

Lemma regionCellsOf_wf rs r c :
  c ∈ regionCellsOf rs r → wfCell c ∧ labelled rs r (cell_index c).
Proof.
  intros Hc. split.
  - unfold regionCellsOf in Hc.
    apply list_elem_of_In in Hc. apply in_flat_map in Hc as (i & Hi & Hc).
    apply list_elem_of_In in Hi. apply elem_of_seqZ in Hi.
    destruct (decide (regionAt rs i = Some r)); [|by destruct Hc].
    destruct Hc as [<-|[]]. unfold wfCell. cbn [cell_row cell_col cell_index].
    assert (Hon : onBoard i) by (unfold onBoard, gridSize in *; lia).
    apply onBoard_div_mod in Hon as [Hr Hc].
    split; [done|]. split; [done|]. apply cellIndex_decompose.
  - apply elem_of_regionCellsOf_indices. by apply list_elem_of_fmap_2.
Qed.

Lemma rtc_regionStep_labelled rs r i j :
  labelled rs r i → rtc (regionStep rs r) i j → labelled rs r j.
Proof.
  intros Hi Hrtc. revert Hi. induction Hrtc as [|i k j Hik _ IH]; [done|].
  intros _. apply IH. by destruct Hik as (_ & Hk & _).
Qed.

(** The verdict of [isRegionConnected], for every regions array and
    every region number: the call returns, and it returns [true] exactly
    when the region is 4-connected. *)
Lemma isRegionConnected_spec rs r :
  ∃ b, isRegionConnected rs r = Some b ∧ (b = true ↔ regionConnected rs r).
Proof.
  unfold isRegionConnected.
  pose proof (elem_of_regionCellsOf_indices rs r) as Hidx.
  pose proof (NoDup_regionCellsOf_indices rs r) as Hnodup.
  pose proof (regionCellsOf_wf rs r) as Hwf.
  destruct (regionCellsOf rs r) as [|first [|second rest]] eqn:Hcells.
  - exists true. split; [done|]. split; [|done]. intros _ i j Hi _.
    apply Hidx in Hi. by apply elem_of_nil in Hi.
  - exists true. split; [done|]. split; [|done]. intros _ i j Hi Hj.
    apply Hidx in Hi. apply list_elem_of_singleton in Hi.
    apply Hidx in Hj. apply list_elem_of_singleton in Hj.
    subst. constructor.
  - set (cells := first :: second :: rest) in *.
    set (start := cell_index first).
    destruct (Hwf first (list_elem_of_here _ _)) as [Hfirst Hstartlab].
    assert (Hinv : floodInv rs r start None {[start]} [first]).
    { constructor.
      - intros i ->%elem_of_singleton. split; [done|constructor].
      - intros c ->%list_elem_of_singleton. split; [done|].
        by apply elem_of_singleton.
      - intros i ->%elem_of_singleton. right. left. exists first.
        split; [by left|done]. }
    assert (Hfuel : (length [first] + size (board ∖ {[start]}) ≤ floodFuel)%nat).
    { pose proof (size_board_add ∅ start) as Hsize.
      rewrite (right_id_L ∅ (∪)), difference_empty_L, size_board in Hsize.
      cbn [length]. unfold floodFuel.
      rewrite <- Hsize; [lia| |apply not_elem_of_empty].
      apply elem_of_board. by destruct Hstartlab. }
    destruct (floodFill_spec rs r start floodFuel {[start]} [first] Hinv
                (proj2 (elem_of_singleton _ _) eq_refl) Hfuel)
      as (visited & -> & Hvisited).
    cbn [mbind option_bind]. eexists. split; [reflexivity|].
    rewrite bool_decide_eq_true.
    set (L := list_to_set (cell_index <$> cells) : gset Z).
    assert (HL : size L = length cells).
    { unfold L. rewrite size_list_to_set by done. apply length_fmap. }
    assert (HinL : ∀ i, i ∈ L ↔ labelled rs r i).
    { intros i. unfold L. rewrite elem_of_list_to_set. apply Hidx. }
    assert (Hsub : visited ⊆ L).
    { intros i Hi. apply HinL. apply Hvisited in Hi.
      by apply (rtc_regionStep_labelled rs r start). }
    rewrite <- HL. split.
    + intros Hsize i j Hi Hj.
      assert (Heq : visited = L) by (apply set_subseteq_size_eq; [done|lia]).
      apply HinL in Hi, Hj. rewrite <- Heq in Hi, Hj.
      apply Hvisited in Hi, Hj.
      etransitivity; [|exact Hj]. by apply rtc_regionStep_sym.
    + intros Hconn. f_equal. apply set_eq. intros i. split; [apply Hsub|].
      intros Hi%HinL. apply Hvisited. by apply Hconn.
Qed.

(** ** Region growth *)

Lemma length_setRegion rs i v : length (setRegion rs i v) = length rs.
Proof. unfold setRegion. destruct (0 <=? i); [apply length_insert|done]. Qed.

Lemma regionAt_Some_onBoard rs i v :
  regionAt rs i = Some v → 0 ≤ i < Z.of_nat (length rs).
Proof.
  unfold regionAt. destruct (Z.leb_spec 0 i); [|done].
  intros Hlook%lookup_lt_Some. lia.
Qed.

Lemma regionAt_lookup rs i :
  0 ≤ i → regionAt rs i = rs !! Z.to_nat i.
Proof. intros H. unfold regionAt. by rewrite (proj2 (Z.leb_le 0 i)). Qed.

Lemma regionAt_setRegion_eq rs i v :
  0 ≤ i < Z.of_nat (length rs) → regionAt (setRegion rs i v) i = Some v.
Proof.
  intros H. unfold regionAt, setRegion. rewrite (proj2 (Z.leb_le 0 i)) by lia.
  apply list_lookup_insert_eq. lia.
Qed.

Lemma regionAt_setRegion_ne rs i j v :
  i ≠ j → regionAt (setRegion rs i v) j = regionAt rs j.
Proof.
  intros H. unfold regionAt, setRegion.
  destruct (Z.leb_spec 0 j); [|done]. destruct (Z.leb_spec 0 i); [|done].
  apply list_lookup_insert_ne. lia.
Qed.

Lemma countIf_insert {A} (t : A → bool) (l : list A) (n : nat) a b :
  l !! n = Some a →
  (countIf t (<[n := b]> l) + (if t a then 1 else 0)
   = countIf t l + (if t b then 1 else 0))%nat.
Proof.
  revert n. induction l as [|x l IH]; intros n Hn; [by rewrite lookup_nil in Hn|].
  destruct n as [|n]; cbn in Hn.
  - injection Hn as ->. cbn. destruct (t a), (t b); lia.
  - change (<[S n := b]> (x :: l)) with (x :: <[n := b]> l). cbn [countIf].
    specialize (IH n Hn). revert IH.
    destruct (t x), (t a), (t b); lia.
Qed.

Lemma unclaimed_setRegion rs i v :
  regionAt rs i = Some (-1) → v ≠ -1 →
  (unclaimed (setRegion rs i v) + 1 = unclaimed rs)%nat.
Proof.
  intros Hi Hv. unfold unclaimed, setRegion, regionAt in *.
  destruct (Z.leb_spec 0 i); [|done].
  pose proof (countIf_insert (λ v, bool_decide (v = -1)) rs _ _ v Hi) as Hc.
  cbn beta in Hc. rewrite bool_decide_eq_true_2 in Hc by done.
  rewrite (bool_decide_eq_false_2 (v = -1)) in Hc by done. lia.
Qed.

Lemma range_setRegion (P : Z → Prop) rs i v :
  Forall P rs → P v → Forall P (setRegion rs i v).
Proof.
  intros Hrs Hv. unfold setRegion. destruct (0 <=? i); [|done].
  by apply Forall_insert.
Qed.

Lemma seeded_setRegion sol rs i v :
  seeded sol rs → regionAt rs i = Some (-1) → seeded sol (setRegion rs i v).
Proof.
  intros Hs Hi k p Hk. rewrite regionAt_setRegion_ne; [by apply Hs|].
  intros ->. rewrite (Hs k p Hk) in Hi. injection Hi. lia.
Qed.

(** What [claimFirst] does: nothing, or one claim of an unassigned cell
    of the board. *)
Lemma claimFirst_spec k ns st :
  claimFirst k ns st = st
  ∨ ∃ n, n ∈ ns ∧ outOfBounds (row n) (col n) = false
         ∧ regionAt (g_regions st) (cellOf n) = Some (-1)
         ∧ claimFirst k ns st
           = mkGrowth (setRegion (g_regions st) (cellOf n) (Z.of_nat k))
                      (alter (fun q => q ++ [n]) k (queues st))
                      (unassignedCount st - 1) true.
Proof.
  induction ns as [|n ns IH]; cbn [claimFirst]; [by left|].
  destruct (outOfBounds (row n) (col n)) eqn:Hb.
  { destruct IH as [IH|(m & Hm & IH)]; [by left|right].
    exists m. split; [by right|done]. }
  destruct (decide (regionAt (g_regions st) (cellIndex (row n) (col n)) = Some (-1)))
    as [Hfree|Hfree].
  - right. exists n. split; [by left|]. done.
  - destruct IH as [IH|(m & Hm & IH)]; [by left|right].
    exists m. split; [by right|done].
Qed.

Lemma growTurn_unfold rnd k st cur :
  growTurn rnd k st cur =
  match queues st !! k with
  | Some (current :: rest) =>
      let st1 := mkGrowth (g_regions st) (<[k := rest]> (queues st))
                          (unassignedCount st) (addedThisRound st) in
      let '(neighbors, cur') :=
        shuffleArray rnd (neighbors4 (row current) (col current)) cur in
      (claimFirst k neighbors st1, cur')
  | _ => (st, cur)
  end.
Proof. reflexivity. Qed.

(** One region's turn: the invariant is kept; a turn that claims a cell
    lowers the counter by one and sets the flag; a turn that claims
    nothing leaves the regions and the counter alone and leaves the
    region's own queue empty. *)
Lemma growTurn_spec rnd sol (k : nat) st cur st' cur' :
  growthInv sol st → (Z.of_nat k < gridSize) →
  growTurn rnd k st cur = (st', cur') →
  growthInv sol st'
  ∧ (addedThisRound st = true → addedThisRound st' = true)
  ∧ unassignedCount st' ≤ unassignedCount st
  ∧ (addedThisRound st' = false →
       g_regions st' = g_regions st
       ∧ unassignedCount st' = unassignedCount st
       ∧ queues st' !! k = Some []
       ∧ ∀ j, j ≠ k → queues st' !! j = queues st !! j)
  ∧ (addedThisRound st = false → addedThisRound st' = true →
       unassignedCount st' < unassignedCount st).
Proof.
  intros Hinv Hk. rewrite growTurn_unfold.
  destruct Hinv as [Hlen Hseed Hrange Hcount Hqlen Hshort].
  destruct (queues st !! k) as [[|current rest]|] eqn:Hq.
  - intros [= <- <-]. split; [by constructor|]. split; [done|]. split; [lia|].
    split; [done|]. intros H1 H2. congruence.
  - assert (rest = []) as ->.
    { pose proof (Forall_lookup_1 _ _ _ _ Hshort Hq) as Hl.
      destruct rest; [done|cbn in Hl; lia]. }
    destruct (shuffleArray rnd _ cur) as [ns cur1]. intros [= <- <-].
    set (st1 := mkGrowth (g_regions st) (<[k := []]> (queues st))
                  (unassignedCount st) (addedThisRound st)).
    assert (Hklt : (k < length (queues st))%nat) by (by apply lookup_lt_Some in Hq).
    destruct (claimFirst_spec k ns st1) as [->|(n & Hn & Hb & Hfree & ->)].
    + split.
      { constructor; cbn [st1 g_regions queues unassignedCount]; try done.
        - by rewrite length_insert.
        - apply Forall_insert; [done|]. cbn. lia. }
      cbn [st1 g_regions queues unassignedCount addedThisRound].
      split; [done|]. split; [lia|]. split.
      * intros _. split; [done|]. split; [done|]. split.
        -- by apply list_lookup_insert_eq.
        -- intros j Hj. by apply list_lookup_insert_ne.
      * intros H1 H2. congruence.
    + cbn [st1 g_regions queues unassignedCount addedThisRound] in *.
      split.
      { constructor; cbn [g_regions queues unassignedCount].
        - by rewrite length_setRegion.
        - by apply seeded_setRegion.
        - apply range_setRegion; [done|]. lia.
        - pose proof (unclaimed_setRegion (g_regions st) (cellOf n) (Z.of_nat k) Hfree).
          lia.
        - by rewrite length_alter, length_insert.
        - apply Forall_lookup. intros j q Hj.
          destruct (decide (k = j)) as [<-|Hne].
          + rewrite list_lookup_alter_eq, list_lookup_insert_eq in Hj by done.
            injection Hj as <-. cbn. lia.
          + rewrite list_lookup_alter_ne, list_lookup_insert_ne in Hj by done.
            by apply (Forall_lookup_1 _ _ _ _ Hshort Hj). }
      split; [done|]. split; [lia|]. split; [discriminate|]. intros _ _. lia.
  - apply lookup_ge_None in Hq. lia.
Qed.

Lemma growTurns_spec rnd sol (m : nat) :
  ∀ (a : nat) st cur st' cur',
    Z.of_nat (a + m) ≤ gridSize →
    growthInv sol st →
    foldl (fun acc k => growTurn rnd k acc.1 acc.2) (st, cur) (seq a m) = (st', cur') →
    growthInv sol st'
    ∧ (addedThisRound st = true → addedThisRound st' = true)
    ∧ unassignedCount st' ≤ unassignedCount st
    ∧ (addedThisRound st' = false →
         g_regions st' = g_regions st
         ∧ unassignedCount st' = unassignedCount st
         ∧ (∀ j, (a ≤ j < a + m)%nat → queues st' !! j = Some [])
         ∧ (∀ j, (j < a ∨ a + m ≤ j)%nat → queues st' !! j = queues st !! j))
    ∧ (addedThisRound st = false → addedThisRound st' = true →
         unassignedCount st' < unassignedCount st).
Proof.
  induction m as [|m IH]; intros a st cur st' cur' Ham Hinv Hfold.
  - cbn [seq foldl] in Hfold. injection Hfold as <- <-.
    split; [done|]. split; [done|]. split; [lia|]. split.
    + intros _. split; [done|]. split; [done|]. split; [intros j Hj; lia|done].
    + intros H1 H2. congruence.
  - cbn [seq foldl fst snd] in Hfold.
    destruct (growTurn rnd a st cur) as [st1 cur1] eqn:Hturn.
    destruct (growTurn_spec rnd sol a st cur st1 cur1 Hinv ltac:(lia) Hturn)
      as (Hinv1 & Hmono1 & Hle1 & Hidle1 & Hlt1).
    destruct (IH (S a) st1 cur1 st' cur' ltac:(lia) Hinv1 Hfold)
      as (Hinv2 & Hmono2 & Hle2 & Hidle2 & Hlt2).
    split; [done|]. split; [by intros H%Hmono1%Hmono2|]. split; [lia|]. split.
    + intros Hidle.
      assert (Hidle' : addedThisRound st1 = false).
      { destruct (addedThisRound st1); [|done]. by rewrite Hmono2 in Hidle. }
      destruct (Hidle1 Hidle') as (Hr1 & Hc1 & Hq1 & Ho1).
      destruct (Hidle2 Hidle) as (Hr2 & Hc2 & Hq2 & Ho2).
      split; [congruence|]. split; [lia|]. split.
      * intros j Hj. destruct (decide (j = a)) as [->|Hne].
        -- rewrite Ho2 by lia. done.
        -- apply Hq2. lia.
      * intros j Hj. rewrite Ho2 by lia. apply Ho1. lia.
    + intros Hst Hst'. destruct (addedThisRound st1) eqn:Hst1.
      * specialize (Hlt1 Hst eq_refl). lia.
      * specialize (Hlt2 eq_refl Hst'). lia.
Qed.

Lemma growthInv_flag sol st b :
  growthInv sol st →
  growthInv sol (mkGrowth (g_regions st) (queues st) (unassignedCount st) b).
Proof. intros [? ? ? ? ? ?]. by constructor. Qed.

Lemma growRound_unfold rnd st cur :
  growRound rnd st cur
  = foldl (fun acc k => growTurn rnd k acc.1 acc.2) (st, cur) (seq 0 (Z.to_nat gridSize)).
Proof. reflexivity. Qed.

(** One round, entered with the flag cleared. *)
Lemma growRound_spec rnd sol st cur st1 cur1 :
  growthInv sol st →
  growRound rnd (mkGrowth (g_regions st) (queues st) (unassignedCount st) false) cur
  = (st1, cur1) →
  growthInv sol st1
  ∧ unassignedCount st1 ≤ unassignedCount st
  ∧ (addedThisRound st1 = true → unassignedCount st1 < unassignedCount st)
  ∧ (addedThisRound st1 = false →
       g_regions st1 = g_regions st
       ∧ unassignedCount st1 = unassignedCount st
       ∧ ∀ q, q ∈ queues st1 → q = []).
Proof.
  intros Hinv Hround. rewrite growRound_unfold in Hround.
  assert (Hbound : Z.of_nat (0 + Z.to_nat gridSize) ≤ gridSize) by (unfold gridSize; lia).
  pose proof (growTurns_spec rnd sol (Z.to_nat gridSize) 0
                (mkGrowth (g_regions st) (queues st) (unassignedCount st) false)
                cur st1 cur1 Hbound (growthInv_flag sol st false Hinv) Hround)
    as (Hinv1 & _ & Hle & Hidle & Hlt).
  split; [exact Hinv1|]. split; [exact Hle|]. split; [exact (Hlt eq_refl)|].
  intros Hflag. destruct (Hidle Hflag) as (Hr & Hc & Hq & _).
  split; [exact Hr|]. split; [exact Hc|].
  intros q [j Hj]%list_elem_of_lookup.
  assert (Hjlt : (j < Z.to_nat gridSize)%nat).
  { apply lookup_lt_Some in Hj. pose proof (gi_queues _ _ Hinv1). lia. }
  rewrite Hq in Hj by lia. by injection Hj.
Qed.

Lemma growLoop_unfold rnd fuel st cur :
  growLoop rnd (S fuel) st cur =
  if unassignedCount st <=? 0 then Some (BoardFull st, cur)
  else
    let st0 := mkGrowth (g_regions st) (queues st) (unassignedCount st) false in
    let '(st1, cur1) := growRound rnd st0 cur in
    if addedThisRound st1 then growLoop rnd fuel st1 cur1
    else Some (Stalled st1, cur1).
Proof. reflexivity. Qed.

(** How the loop is left: with the counter at zero, or stalled with
    every queue empty while the counter is still positive. *)
Lemma growLoop_exit rnd sol fuel :
  ∀ st cur e cur',
    growthInv sol st →
    growLoop rnd fuel st cur = Some (e, cur') →
    match e with
    | BoardFull st' => growthInv sol st' ∧ unassignedCount st' ≤ 0
    | Stalled st' =>
        growthInv sol st' ∧ 0 < unassignedCount st'
        ∧ ∀ q, q ∈ queues st' → q = []
    end.
Proof.
  induction fuel as [|fuel IH]; intros st cur e cur' Hinv Hloop.
  - cbn [growLoop] in Hloop.
    destruct (Z.leb_spec (unassignedCount st) 0); [|done].
    by injection Hloop as <- <-.
  - rewrite growLoop_unfold in Hloop.
    destruct (Z.leb_spec (unassignedCount st) 0) as [Hdone|Hleft].
    { by injection Hloop as <- <-. }
    cbn zeta in Hloop.
    destruct (growRound rnd _ cur) as [st1 cur1] eqn:Hround.
    destruct (growRound_spec rnd sol st cur st1 cur1 Hinv Hround)
      as (Hinv1 & Hle & Hlt & Hidle).
    destruct (addedThisRound st1) eqn:Hflag.
    + exact (IH st1 cur1 e cur' Hinv1 Hloop).
    + injection Hloop as <- <-. destruct (Hidle eq_refl) as (_ & Hc & Hq).
      split; [done|]. split; [lia|done].
Qed.

Lemma growLoop_total rnd sol fuel :
  ∀ st cur,
    growthInv sol st → unassignedCount st ≤ Z.of_nat fuel →
    is_Some (growLoop rnd fuel st cur).
Proof.
  induction fuel as [|fuel IH]; intros st cur Hinv Hfuel.
  - cbn [growLoop]. rewrite (proj2 (Z.leb_le _ _)) by lia. by eexists.
  - rewrite growLoop_unfold.
    destruct (Z.leb_spec (unassignedCount st) 0) as [Hdone|Hleft]; [by eexists|].
    cbn zeta.
    destruct (growRound rnd _ cur) as [st1 cur1] eqn:Hround.
    destruct (growRound_spec rnd sol st cur st1 cur1 Hinv Hround)
      as (Hinv1 & Hle & Hlt & Hidle).
    destruct (addedThisRound st1) eqn:Hflag; [|by eexists].
    apply IH; [done|]. specialize (Hlt eq_refl). lia.
Qed.

(** *** The seeds *)

Lemma seedRegions_spec sol :
  ∀ (k : nat) rs,
    NoDup (cellOf <$> sol) →
    (∀ p, p ∈ sol → regionAt rs (cellOf p) = Some (-1)) →
    length (seedRegions k sol rs) = length rs
    ∧ (∀ (j : nat) p, sol !! j = Some p →
         regionAt (seedRegions k sol rs) (cellOf p) = Some (Z.of_nat (k + j)))
    ∧ (∀ i, i ∉ (cellOf <$> sol) →
         regionAt (seedRegions k sol rs) i = regionAt rs i)
    ∧ (unclaimed (seedRegions k sol rs) + length sol = unclaimed rs)%nat.
Proof.
  induction sol as [|p sol IH]; intros k rs Hnodup Hfree.
  - cbn [seedRegions]. split; [done|]. split.
    + intros j q Hj. by rewrite lookup_nil in Hj.
    + split; [done|]. cbn. lia.
  - cbn [seedRegions]. fold (cellOf p).
    rewrite fmap_cons in Hnodup. apply NoDup_cons in Hnodup as [Hp Hnodup].
    assert (Hpfree : regionAt rs (cellOf p) = Some (-1)) by (apply Hfree; by left).
    pose proof (regionAt_Some_onBoard _ _ _ Hpfree) as Hpon.
    destruct (IH (S k) (setRegion rs (cellOf p) (Z.of_nat k)) Hnodup)
      as (Hlen & Hseed & Hother & Hcount).
    { intros q Hq. rewrite regionAt_setRegion_ne; [apply Hfree; by right|].
      intros Heq. apply Hp. rewrite Heq. by apply list_elem_of_fmap_2. }
    split; [by rewrite Hlen, length_setRegion|]. split; [|split].
    + intros [|j] q Hj; cbn in Hj.
      * injection Hj as <-. rewrite (Hother _ Hp), Nat.add_0_r.
        by apply regionAt_setRegion_eq.
      * rewrite (Hseed j q Hj). do 2 f_equal. lia.
    + intros i Hi. rewrite fmap_cons in Hi. apply not_elem_of_cons in Hi as [Hne Hi].
      rewrite (Hother i Hi). by apply regionAt_setRegion_ne.
    + pose proof (unclaimed_setRegion rs (cellOf p) (Z.of_nat k) Hpfree).
      cbn [length]. lia.
Qed.

Lemma seedRegions_range (P : Z → Prop) sol :
  ∀ (k : nat) rs,
    Forall P rs → (∀ j : nat, (k ≤ j < k + length sol)%nat → P (Z.of_nat j)) →
    Forall P (seedRegions k sol rs).
Proof.
  induction sol as [|p sol IH]; intros k rs Hrs Hk; [done|].
  cbn [seedRegions]. apply IH.
  - apply range_setRegion; [done|]. apply Hk. cbn [length]. lia.
  - intros j Hj. apply Hk. cbn [length]. lia.
Qed.

Lemma seedQueues_spec sol :
  ∀ (k : nat) qs,
    (∀ (j : nat) q, (k ≤ j)%nat → qs !! j = Some q → q = []) →
    Forall (fun q : list Pos => (length q ≤ 1)%nat) qs →
    length (seedQueues k sol qs) = length qs
    ∧ Forall (fun q : list Pos => (length q ≤ 1)%nat) (seedQueues k sol qs).
Proof.
  induction sol as [|p sol IH]; intros k qs Hempty Hshort; [done|].
  cbn [seedQueues].
  destruct (IH (S k) (alter (fun q => q ++ [mkPos (row p) (col p)]) k qs))
    as [Hlen Hall].
  - intros j q Hj Hq. rewrite list_lookup_alter_ne in Hq by lia.
    apply (Hempty j q); [lia|done].
  - apply Forall_lookup. intros j q Hq.
    destruct (decide (k = j)) as [<-|Hne].
    + rewrite list_lookup_alter_eq in Hq.
      destruct (qs !! k) as [q0|] eqn:Hq0; [|done]. cbn in Hq.
      injection Hq as <-. rewrite (Hempty k q0); [cbn; lia|lia|done].
    + rewrite list_lookup_alter_ne in Hq by done.
      by apply (Forall_lookup_1 _ _ _ _ Hshort Hq).
  - split; [by rewrite Hlen, length_alter|done].
Qed.

Lemma unclaimed_replicate n : unclaimed (replicate n (-1)) = n.
Proof. induction n as [|n IH]; [done|]. cbn. unfold unclaimed in IH. by rewrite IH. Qed.

Lemma solutionOnBoard_cell sol p :
  solutionOnBoard sol → p ∈ sol → onBoard (cellOf p).
Proof.
  intros (_ & Hon & _) Hp. destruct (Hon p Hp). by apply onBoard_cellIndex.
Qed.

Lemma initialGrowth_inv sol :
  solutionOnBoard sol → growthInv sol (initialGrowth sol).
Proof.
  intros Hsol. pose proof Hsol as (Hlen & Hon & Hnodup).
  set (blank := replicate (Z.to_nat (gridSize * gridSize)) (-1)).
  assert (Hfree : ∀ p, p ∈ sol → regionAt blank (cellOf p) = Some (-1)).
  { intros p Hp. pose proof (solutionOnBoard_cell sol p Hsol Hp) as [H0 H1].
    rewrite regionAt_lookup by done. apply lookup_replicate_2.
    unfold gridSize in *. lia. }
  destruct (seedRegions_spec sol 0 blank Hnodup Hfree)
    as (Hrlen & Hseed & _ & Hcount).
  destruct (seedQueues_spec sol 0 (replicate (Z.to_nat gridSize) []))
    as [Hqlen Hqshort].
  { intros j q _ Hq. by apply lookup_replicate_1 in Hq as [-> _]. }
  { apply Forall_replicate. cbn. lia. }
  unfold initialGrowth. fold blank.
  constructor; cbn [g_regions queues unassignedCount].
  - rewrite Hrlen. unfold blank. rewrite length_replicate. unfold gridSize. lia.
  - intros k p Hk. by rewrite (Hseed k p Hk).
  - apply seedRegions_range.
    + apply Forall_replicate. unfold gridSize. lia.
    + intros j Hj. lia.
  - subst blank. rewrite unclaimed_replicate in Hcount.
    unfold gridSize in *. lia.
  - rewrite Hqlen, length_replicate. unfold gridSize. lia.
  - done.
Qed.

(** *** The stall fill *)

Lemma firstAssigned_range rs r c offsets :
  Forall (fun v => -1 ≤ v < gridSize) rs →
  0 ≤ firstAssigned rs r c offsets < gridSize.
Proof.
  intros Hrange. induction offsets as [|[dr dc] offsets IH]; cbn [firstAssigned].
  - unfold gridSize. lia.
  - destruct (_ && _); [|done].
    destruct (regionAt rs (cellIndex (r + dr) (c + dc))) as [v|] eqn:Hv; [|done].
    destruct (decide (v = -1)) as [|Hne]; [done|].
    unfold regionAt in Hv. destruct (0 <=? _); [|done].
    pose proof (Forall_lookup_1 _ _ _ _ Hrange Hv) as Hr. cbn beta in Hr. lia.
Qed.

Lemma stallStep_spec sol st i :
  Z.of_nat (length (g_regions st)) = gridSize * gridSize →
  seeded sol (g_regions st) →
  Forall (fun v => -1 ≤ v < gridSize) (g_regions st) →
  (Z.of_nat (length (g_regions (stallStep st i))) = gridSize * gridSize
   ∧ seeded sol (g_regions (stallStep st i))
   ∧ Forall (fun v => -1 ≤ v < gridSize) (g_regions (stallStep st i)))
  ∧ regionAt (g_regions (stallStep st i)) i ≠ Some (-1)
  ∧ ∀ j, regionAt (g_regions st) j ≠ Some (-1) →
         regionAt (g_regions (stallStep st i)) j ≠ Some (-1).
Proof.
  intros Hlen Hseed Hrange. unfold stallStep.
  destruct (decide (regionAt (g_regions st) i = Some (-1))) as [Hfree|Hfilled];
    [|done].
  cbn [g_regions].
  pose proof (firstAssigned_range (g_regions st) (i / gridSize) (i mod gridSize)
                ringOffsets Hrange) as Hv.
  fold (findClosestRegion (g_regions st) i) in Hv.
  pose proof (regionAt_Some_onBoard _ _ _ Hfree) as Hi.
  split; [split; [|split]|split].
  - by rewrite length_setRegion.
  - by apply seeded_setRegion.
  - apply range_setRegion; [done|lia].
  - rewrite regionAt_setRegion_eq by done. intros [= Heq]. lia.
  - intros j Hj. destruct (decide (i = j)) as [<-|Hne]; [done|].
    by rewrite regionAt_setRegion_ne.
Qed.

Lemma stallFill_fold sol indices :
  ∀ st,
    Z.of_nat (length (g_regions st)) = gridSize * gridSize →
    seeded sol (g_regions st) →
    Forall (fun v => -1 ≤ v < gridSize) (g_regions st) →
    (Z.of_nat (length (g_regions (foldl stallStep st indices))) = gridSize * gridSize
     ∧ seeded sol (g_regions (foldl stallStep st indices))
     ∧ Forall (fun v => -1 ≤ v < gridSize) (g_regions (foldl stallStep st indices)))
    ∧ (∀ j, regionAt (g_regions st) j ≠ Some (-1) →
            regionAt (g_regions (foldl stallStep st indices)) j ≠ Some (-1))
    ∧ ∀ i, i ∈ indices →
           regionAt (g_regions (foldl stallStep st indices)) i ≠ Some (-1).
Proof.
  induction indices as [|i indices IH]; intros st Hlen Hseed Hrange.
  - cbn [foldl]. split; [done|]. split; [done|]. intros i Hi. by apply elem_of_nil in Hi.
  - cbn [foldl].
    destruct (stallStep_spec sol st i Hlen Hseed Hrange)
      as ((Hlen1 & Hseed1 & Hrange1) & Hi1 & Hkeep1).
    destruct (IH (stallStep st i) Hlen1 Hseed1 Hrange1) as (Hinv2 & Hkeep2 & Hall2).
    split; [done|]. split.
    + intros j Hj. by apply Hkeep2, Hkeep1.
    + intros j [->|Hj]%elem_of_cons; [by apply Hkeep2|by apply Hall2].
Qed.

Lemma regionMap_of_filled rs :
  Z.of_nat (length rs) = gridSize * gridSize →
  Forall (fun v => -1 ≤ v < gridSize) rs →
  (∀ i, onBoard i → regionAt rs i ≠ Some (-1)) →
  regionMap rs.
Proof.
  intros Hlen Hrange Hfilled. split; [done|].
  intros v [n Hn]%list_elem_of_lookup.
  pose proof (Forall_lookup_1 _ _ _ _ Hrange Hn) as Hv. cbn beta in Hv.
  pose proof (lookup_lt_Some _ _ _ Hn) as Hlt.
  assert (Hne : regionAt rs (Z.of_nat n) ≠ Some (-1)).
  { apply Hfilled. unfold onBoard. lia. }
  rewrite regionAt_lookup, Nat2Z.id, Hn in Hne by lia.
  assert (v ≠ -1) by congruence. lia.
Qed.

Lemma countIf_zero {A} (t : A → bool) l x :
  countIf t l = 0%nat → x ∈ l → t x = false.
Proof.
  induction l as [|a l IH]; intros Hc Hx; [by apply elem_of_nil in Hx|].
  cbn [countIf] in Hc. apply elem_of_cons in Hx as [->|Hx].
  - destruct (t a); [lia|done].
  - apply IH; [|done]. destruct (t a); lia.
Qed.

Lemma finishGrowth_grown sol e :
  match e with
  | BoardFull st => growthInv sol st ∧ unassignedCount st ≤ 0
  | Stalled st => growthInv sol st
  end →
  grownFrom sol (g_regions (finishGrowth e)).
Proof.
  destruct e as [st|st]; cbn [finishGrowth].
  - intros [[Hlen Hseed Hrange Hcount _ _] Hzero]. split; [|done].
    apply regionMap_of_filled; [done|done|]. intros i Hi Hfree.
    unfold regionAt in Hfree. destruct (0 <=? i); [|done].
    assert (Hin : -1 ∈ g_regions st) by (apply list_elem_of_lookup; eauto).
    assert (Hc : unclaimed (g_regions st) = 0%nat) by lia.
    pose proof (countIf_zero _ _ _ Hc Hin) as Hf. cbn beta in Hf.
    by rewrite bool_decide_eq_true_2 in Hf.
  - intros [Hlen Hseed Hrange _ _ _]. unfold stallFill.
    destruct (stallFill_fold sol (seqZ 0 (gridSize * gridSize)) st Hlen Hseed Hrange)
      as ((Hlen' & Hseed' & Hrange') & _ & Hall).
    split; [|done]. apply regionMap_of_filled; [done|done|].
    intros i Hi. apply Hall. apply elem_of_seqZ. unfold onBoard in Hi. lia.
Qed.

(** The regions a generation grows, whatever the draws: the growth loop
    returns, and every cell ends up in a region [0 .. gridSize - 1], each
    bean of the solution in the region of its own index. *)
Lemma growRegions_spec rnd sol cur :
  solutionOnBoard sol →
  ∃ rs cur', growRegions rnd sol cur = Some (rs, cur') ∧ grownFrom sol rs.
Proof.
  intros Hsol. pose proof (initialGrowth_inv sol Hsol) as Hinv.
  unfold growRegions.
  destruct (growLoop_total rnd sol growFuel (initialGrowth sol) cur Hinv)
    as [[e cur'] Hloop].
  { cbn [initialGrowth unassignedCount]. unfold growFuel, gridSize. lia. }
  rewrite Hloop. cbn [mbind option_bind]. eexists _, _. split; [reflexivity|].
  apply finishGrowth_grown.
  pose proof (growLoop_exit rnd sol growFuel _ cur e cur' Hinv Hloop) as Hexit.
  destruct e; [done|]. by destruct Hexit.
Qed.

(** ** The connectivity loop and the regeneration path *)

Lemma allConnected_spec rs ids :
  ∃ b, allConnected rs ids = Some b
       ∧ (b = true ↔ ∀ r, r ∈ ids → regionConnected rs r).
Proof.
  induction ids as [|r ids (b & Hb & Hiff)]; cbn [allConnected].
  - exists true. split; [done|]. split; [|done]. intros _ r Hr.
    by apply elem_of_nil in Hr.
  - destruct (isRegionConnected_spec rs r) as (c & -> & Hc).
    cbn [mbind option_bind]. destruct c.
    + exists b. split; [done|]. rewrite Hiff. split.
      * intros Hall r' [->|Hr']%elem_of_cons; [by apply Hc|by apply Hall].
      * intros Hall r' Hr'. apply Hall. by right.
    + exists false. split; [done|]. split; [done|]. intros Hall.
      apply Hc, Hall. by left.
Qed.

Lemma regenerate_spec rnd budget :
  ∀ g cur,
    solutionOnBoard (solution g) →
    (budget = 0%nat → grownFrom (solution g) (regions g)) →
    ∃ g' cur' v,
      regenerate rnd budget g cur = Some (g', cur', v)
      ∧ grownFrom (solution g) (regions g')
      ∧ (v = AllRegionsVerified →
         ∀ r, 0 ≤ r < gridSize → regionConnected (regions g') r).
Proof.
  induction budget as [|budget IH]; intros g cur Hsol Hstart.
  - exists g, cur, MaxAttemptsReached. split; [done|]. split; [by apply Hstart|done].
  - rewrite regenerate_S.
    destruct (growRegions_spec rnd (solution g) cur Hsol) as (rs & cur1 & -> & Hgrown).
    cbn [mbind option_bind].
    destruct (allConnected_spec rs (seqZ 0 gridSize)) as (ok & -> & Hok).
    cbn [mbind option_bind]. destruct ok.
    + eexists _, _, _. split; [reflexivity|]. split; [done|].
      intros _ r Hr. apply Hok; [done|]. apply elem_of_seqZ. lia.
    + destruct (IH (set_regions g rs) cur1 Hsol (λ _, Hgrown))
        as (g' & cur' & v & Hrun & Hgrown' & Hconn).
      by exists g', cur', v.
Qed.

(** The first two steps of [initializeGame] together: whatever the
    draws, the solution generated is accepted by region generation,
    which returns with every cell in a region and every bean of the
    solution in the region of its own index. *)
Lemma generation_returns rnd g cur :
  ∃ g' cur' v,
    generateRegionsFromSolution rnd 0
      (generateValidSolution rnd g cur).1 (generateValidSolution rnd g cur).2
    = Some (g', cur', v)
    ∧ solution g' = solution (generateValidSolution rnd g cur).1
    ∧ grownFrom (solution g') (regions g').
Proof.
  pose proof (generateValidSolution_onBoard rnd g cur) as Hsol.
  destruct (generateValidSolution rnd g cur) as [g1 cur1]. cbn [fst snd] in *.
  unfold generateRegionsFromSolution.
  destruct (regenerate_spec rnd (Z.to_nat (maxRegenerationAttempts - 0)) g1 cur1 Hsol)
    as (g' & cur' & v & Hrun & Hgrown & _).
  { intros Hzero. vm_compute in Hzero. discriminate. }
  exists g', cur', v. split; [done|].
  pose proof (regenerate_frame _ _ _ _ _ _ _ Hrun) as Hframe.
  assert (Hsame : solution g' = solution g1) by (by rewrite Hframe).
  split; [done|]. by rewrite Hsame.
Qed.

Lemma grownFrom_cells sol rs :
  solutionOnBoard sol → grownFrom sol rs →
  (∀ i, onBoard i → ∃ r, 0 ≤ r < gridSize ∧ regionAt rs i = Some r)
  ∧ (∀ r, 0 ≤ r < gridSize → ∃ i, onBoard i ∧ regionAt rs i = Some r)
  ∧ (∀ r, 0 ≤ r < gridSize →
       ∃ p, p ∈ sol ∧ regionOf rs p = Some r
            ∧ ∀ p', p' ∈ sol → regionOf rs p' = Some r → p' = p).
Proof.
  intros Hsol [Hmap Hseed]. pose proof Hsol as (Hlen & Hon & _).
  assert (Hpick : ∀ r, 0 ≤ r < gridSize →
            ∃ p, sol !! Z.to_nat r = Some p ∧ regionAt rs (cellOf p) = Some r).
  { intros r Hr. destruct (sol !! Z.to_nat r) as [p|] eqn:Hp.
    - exists p. split; [done|]. rewrite (Hseed _ _ Hp). f_equal. lia.
    - apply lookup_ge_None in Hp. lia. }
  split; [|split].
  - intros i Hi. destruct Hmap as [Hrlen Hrange].
    destruct (rs !! Z.to_nat i) as [v|] eqn:Hv.
    + exists v. split; [apply Hrange, list_elem_of_lookup; eauto|].
      unfold onBoard in Hi. by rewrite regionAt_lookup by lia.
    + apply lookup_ge_None in Hv. unfold onBoard in Hi. lia.
  - intros r Hr. destruct (Hpick r Hr) as (p & Hp & Hreg).
    exists (cellOf p). split; [|done].
    apply (solutionOnBoard_cell sol); [done|]. apply list_elem_of_lookup. eauto.
  - intros r Hr. destruct (Hpick r Hr) as (p & Hp & Hreg).
    exists p. split; [apply list_elem_of_lookup; eauto|]. split; [done|].
    intros p' [k' Hp']%list_elem_of_lookup Hreg'.
    unfold regionOf in Hreg'. fold (cellOf p') in Hreg'.
    rewrite (Hseed _ _ Hp') in Hreg'. injection Hreg' as Hk.
    assert (k' = Z.to_nat r) as -> by lia. congruence.
Qed.

(** C2, as the code has it: whatever the draws, on a solution of
    [gridSize] beans in distinct cells of the board,
    [generateRegionsFromSolution()] returns and leaves a regions array in
    which exactly the ids [0 .. gridSize - 1] appear and every region
    holds exactly one bean of the solution; every region is 4-connected
    when the call ends on the verified path, that is, when the bound of
    regeneration attempts was not reached. *)
Theorem generateRegionsFromSolution_regions (rnd : nat → nat) (g : Game) (cur : nat) :
  solutionOnBoard (solution g) →
  ∃ g' cur' v,
    generateRegionsFromSolution rnd 0 g cur = Some (g', cur', v)
    ∧ (∀ i, onBoard i → ∃ r, 0 ≤ r < gridSize ∧ regionAt (regions g') i = Some r)
    ∧ (∀ r, 0 ≤ r < gridSize → ∃ i, onBoard i ∧ regionAt (regions g') i = Some r)
    ∧ (∀ r, 0 ≤ r < gridSize →
         ∃ p, p ∈ solution g' ∧ regionOf (regions g') p = Some r
              ∧ ∀ p', p' ∈ solution g' → regionOf (regions g') p' = Some r → p' = p)
    ∧ (v = AllRegionsVerified →
       ∀ r, 0 ≤ r < gridSize → regionConnected (regions g') r).
Proof.
  intros Hsol. unfold generateRegionsFromSolution.
  destruct (regenerate_spec rnd (Z.to_nat (maxRegenerationAttempts - 0)) g cur Hsol)
    as (g' & cur' & v & Hrun & Hgrown & Hconn).
  { intros Hzero. vm_compute in Hzero. discriminate. }
  exists g', cur', v. split; [done|].
  pose proof (regenerate_frame _ _ _ _ _ _ _ Hrun) as Hframe.
  assert (Hsame : solution g' = solution g) by (by rewrite Hframe).
  rewrite Hsame.
  destruct (grownFrom_cells _ _ Hsol Hgrown) as (Hids & Hall & Hone).
  done.
Qed.

Lemma generateFallbackSolution_onBoard : solutionOnBoard generateFallbackSolution.
Proof.
  split; [reflexivity|]. split.
  - apply Forall_forall. refine (bool_decide_unpack _ _). vm_compute. exact I.
  - refine (bool_decide_unpack _ _). vm_compute. exact I.
Qed.

Lemma generateRegionsFromSolution_regions_witness :
  ∃ g' cur' v,
    generateRegionsFromSolution (constantDraws 0) 0 sampleGame 0 = Some (g', cur', v)
    ∧ (∀ i, onBoard i → ∃ r, 0 ≤ r < gridSize ∧ regionAt (regions g') i = Some r)
    ∧ (∀ r, 0 ≤ r < gridSize → ∃ i, onBoard i ∧ regionAt (regions g') i = Some r)
    ∧ (∀ r, 0 ≤ r < gridSize →
         ∃ p, p ∈ solution g' ∧ regionOf (regions g') p = Some r
              ∧ ∀ p', p' ∈ solution g' → regionOf (regions g') p' = Some r → p' = p)
    ∧ (v = AllRegionsVerified →
       ∀ r, 0 ≤ r < gridSize → regionConnected (regions g') r).
Proof.
  apply (generateRegionsFromSolution_regions (constantDraws 0) sampleGame 0).
  split; [reflexivity|]. split.
  - apply Forall_forall. refine (bool_decide_unpack _ _). vm_compute. exact I.
  - refine (bool_decide_unpack _ _). vm_compute. exact I.
Defined.

Lemma isRegionConnected_false rs r :
  isRegionConnected rs r = Some false → ¬ regionConnected rs r.
Proof.
  intros Hrun Hconn.
  destruct (isRegionConnected_spec rs r) as (b & Hb & Hiff).
  apply Hiff in Hconn. congruence.
Qed.

(** C2, as stated, fails: with every draw equal to 1, [initializeGame]'s
    two steps leave a regions array that was kept after ten generations
    failed the connectivity check, and in it region 5 is not
    4-connected (its cell in the last row and last column touches the
    rest of the region only by a corner). *)
Lemma generateRegionsFromSolution_disconnected :
  ∃ g' cur',
    generateRegionsFromSolution (constantDraws 1) 0
      (generateValidSolution (constantDraws 1) emptyGame 0).1
      (generateValidSolution (constantDraws 1) emptyGame 0).2
    = Some (g', cur', MaxAttemptsReached)
    ∧ regions g' =
      [ 0; 0; 1; 1; 2; 2; 3; 3;
        0; 0; 1; 1; 2; 2; 3; 3;
        0; 4; 4; 4; 2; 5; 3; 6;
        0; 7; 7; 4; 7; 5; 3; 6;
        0; 7; 7; 4; 7; 5; 5; 6;
        0; 7; 7; 7; 7; 5; 5; 6;
        0; 7; 7; 7; 7; 7; 5; 6;
        0; 7; 7; 7; 7; 7; 7; 5 ]
    ∧ ¬ regionConnected (regions g') 5.
Proof.
  eexists _, _. split; [vm_compute; reflexivity|].
  split; [reflexivity|].
  apply isRegionConnected_false. vm_compute. reflexivity.
Qed.

Lemma allConnected_false rs ids r :
  r ∈ ids → ¬ regionConnected rs r → allConnected rs ids = Some false.
Proof.
  intros Hr Hdis. destruct (allConnected_spec rs ids) as (b & Hb & Hiff).
  rewrite Hb. destruct b; [|done]. exfalso. apply Hdis.
  by apply (proj1 Hiff eq_refl).
Qed.

Lemma generateRegionsFromSolution_unfold rnd k g cur :
  generateRegionsFromSolution rnd k g cur
  = regenerate rnd (Z.to_nat (maxRegenerationAttempts - k)) g cur.
Proof. reflexivity. Qed.

Lemma regenerate_0 rnd g cur :
  regenerate rnd 0 g cur = Some (g, cur, MaxAttemptsReached).
Proof. reflexivity. Qed.

Lemma regenerate_outcome rnd budget :
  ∀ g1 g2 cur,
    solution g1 = solution g2 → regions g1 = regions g2 →
    outcome (regenerate rnd budget g1 cur) = outcome (regenerate rnd budget g2 cur).
Proof.
  induction budget as [|budget IH]; intros g1 g2 cur Hsol Hreg.
  - rewrite !regenerate_0. cbn. by rewrite Hreg.
  - rewrite !regenerate_S, Hsol.
    destruct (growRegions rnd (solution g2) cur) as [[rs cur1]|]; [|done].
    cbn [mbind option_bind].
    destruct (allConnected rs (seqZ 0 gridSize)) as [[|]|]; [done| |done].
    cbn [mbind option_bind]. by apply IH.
Qed.

Lemma generateRegionsFromSolution_outcome rnd k g1 g2 cur :
  0 ≤ k < maxRegenerationAttempts →
  solution g1 = solution g2 →
  outcome (generateRegionsFromSolution rnd k g1 cur)
  = outcome (generateRegionsFromSolution rnd k g2 cur).
Proof.
  intros Hk Hsol. rewrite !generateRegionsFromSolution_unfold.
  destruct (Z.to_nat (maxRegenerationAttempts - k)) as [|budget] eqn:Hb; [lia|].
  rewrite !regenerate_S, Hsol.
  destruct (growRegions rnd (solution g2) cur) as [[rs cur1]|]; [|done].
  cbn [mbind option_bind].
  destruct (allConnected rs (seqZ 0 gridSize)) as [[|]|]; [done| |done].
  cbn [mbind option_bind]. by apply regenerate_outcome.
Qed.

(** A call that ends on the verified path holds a map in which every
    region is 4-connected. *)
Lemma regenerate_verified rnd budget :
  ∀ g cur g' cur',
    regenerate rnd budget g cur = Some (g', cur', AllRegionsVerified) →
    ∀ r, 0 ≤ r < gridSize → regionConnected (regions g') r.
Proof.
  induction budget as [|budget IH]; intros g cur g' cur' Hrun r Hr.
  - rewrite regenerate_0 in Hrun. discriminate Hrun.
  - rewrite regenerate_S in Hrun.
    destruct (growRegions rnd (solution g) cur) as [[rs cur1]|]; [|done].
    cbn [mbind option_bind] in Hrun.
    destruct (allConnected_spec rs (seqZ 0 gridSize)) as (b & Hb & Hiff).
    rewrite Hb in Hrun. cbn [mbind option_bind] in Hrun. destruct b.
    + injection Hrun as <- <-. cbn [set_regions regions].
      apply (proj1 Hiff eq_refl). apply elem_of_seqZ. lia.
    + by apply (IH _ _ _ _ Hrun).
Qed.

(** C6, as stated, fails at the bound on the attempts.  With every draw
    equal to 8, [generateValidSolution] falls back to the fixed pattern
    and every generation of the regions draws 132 numbers and leaves
    region 1 split; at the attempt of number 9 [isRegionConnected]
    returns [false] for the map just grown, and the call ends with that
    very map kept.  So does the
    call of [initializeGame], with attempt number 0. *)
Lemma isRegionConnected_split_kept :
  ∃ g rs cur1,
    g = (generateValidSolution (constantDraws 8) emptyGame 0).1
    ∧ growRegions (constantDraws 8) (solution g)
        ((generateValidSolution (constantDraws 8) emptyGame 0).2 + 9 * 132)%nat
      = Some (rs, cur1)
    ∧ isRegionConnected rs 1 = Some false
    ∧ ¬ regionConnected rs 1
    ∧ generateRegionsFromSolution (constantDraws 8) 9 g
        ((generateValidSolution (constantDraws 8) emptyGame 0).2 + 9 * 132)%nat
      = Some (set_regions g rs, cur1, MaxAttemptsReached)
    ∧ generateRegionsFromSolution (constantDraws 8) 0 g
        (generateValidSolution (constantDraws 8) emptyGame 0).2
      = Some (set_regions g rs, cur1, MaxAttemptsReached).
Proof.
  eexists _, _, _. split; [reflexivity|].
  split; [vm_compute; reflexivity|].
  split; [vm_compute; reflexivity|].
  split; [apply isRegionConnected_false; vm_compute; reflexivity|].
  split; vm_compute; reflexivity.
Qed.

(** C6: for every regions array and every region number,
    [isRegionConnected] returns, and returns [true] exactly when the
    cells labelled with the number form a 4-connected set (no cell or
    one cell included); on a region split into islands it returns
    [false].  When [generateRegionsFromSolution], at an attempt number
    [k] below the bound, finds such a region in the array it has grown,
    it continues as its own call with attempt number [k + 1]: if
    [k + 1] is still below the bound the split array is dropped (the
    outcome is that of a fresh generation from the game as it was), if
    [k + 1] is the bound the split array is kept as it is; and no call
    ends on the verified path with a split region. *)
Theorem isRegionConnected_correct (rs : list Z) (r : Z) :
  (∃ b, isRegionConnected rs r = Some b ∧ (b = true ↔ regionConnected rs r))
  ∧ (¬ regionConnected rs r → isRegionConnected rs r = Some false)
  ∧ ∀ (rnd : nat → nat) (k : Z) (g : Game) (cur cur1 : nat),
      0 ≤ k < maxRegenerationAttempts → 0 ≤ r < gridSize →
      growRegions rnd (solution g) cur = Some (rs, cur1) →
      ¬ regionConnected rs r →
      generateRegionsFromSolution rnd k g cur
      = generateRegionsFromSolution rnd (k + 1) (set_regions g rs) cur1
      ∧ (k + 1 < maxRegenerationAttempts →
         outcome (generateRegionsFromSolution rnd k g cur)
         = outcome (generateRegionsFromSolution rnd (k + 1) g cur1))
      ∧ (k + 1 = maxRegenerationAttempts →
         generateRegionsFromSolution rnd k g cur
         = Some (set_regions g rs, cur1, MaxAttemptsReached))
      ∧ ∀ g' cur' r',
          generateRegionsFromSolution rnd k g cur
          = Some (g', cur', AllRegionsVerified) →
          0 ≤ r' < gridSize → regionConnected (regions g') r'.
Proof.
  split; [apply isRegionConnected_spec|]. split.
  - intros Hdis. destruct (isRegionConnected_spec rs r) as (b & Hb & Hiff).
    rewrite Hb. destruct b; [|done]. exfalso. by apply Hdis, Hiff.
  - intros rnd k g cur cur1 Hk Hr Hgrow Hdis.
    assert (Hnext : generateRegionsFromSolution rnd k g cur
                    = generateRegionsFromSolution rnd (k + 1) (set_regions g rs) cur1).
    { rewrite !generateRegionsFromSolution_unfold.
      replace (Z.to_nat (maxRegenerationAttempts - k))
        with (S (Z.to_nat (maxRegenerationAttempts - (k + 1)))) by lia.
      rewrite regenerate_S, Hgrow. cbn [mbind option_bind].
      rewrite (allConnected_false rs (seqZ 0 gridSize) r); [done| |done].
      apply elem_of_seqZ. lia. }
    split; [exact Hnext|]. split; [|split].
    + intros Hbelow. rewrite Hnext.
      apply generateRegionsFromSolution_outcome; [lia|reflexivity].
    + intros Hlast. rewrite Hnext, generateRegionsFromSolution_unfold.
      replace (Z.to_nat (maxRegenerationAttempts - (k + 1))) with 0%nat by lia.
      apply regenerate_0.
    + intros g' cur' r' Hrun Hr'. rewrite generateRegionsFromSolution_unfold in Hrun.
      by apply (regenerate_verified rnd _ g cur g' cur' Hrun).
Qed.

Lemma isRegionConnected_correct_witness :
  match growRegions (constantDraws 4) (solution sampleGame) 0 with
  | Some (rs, cur1) =>
      isRegionConnected rs 3 = Some false
      ∧ generateRegionsFromSolution (constantDraws 4) 0 sampleGame 0
        = generateRegionsFromSolution (constantDraws 4) (0 + 1)
            (set_regions sampleGame rs) cur1
      ∧ outcome (generateRegionsFromSolution (constantDraws 4) 0 sampleGame 0)
        = outcome (generateRegionsFromSolution (constantDraws 4) (0 + 1) sampleGame cur1)
  | None => False
  end.
Proof.
  destruct (growRegions (constantDraws 4) (solution sampleGame) 0)
    as [[rs cur1]|] eqn:Hgrow.
  - assert (Hfalse : isRegionConnected rs 3 = Some false).
    { vm_compute in Hgrow. injection Hgrow as <- <-. vm_compute. reflexivity. }
    destruct (isRegionConnected_correct rs 3) as (_ & _ & Hregen).
    destruct (Hregen (constantDraws 4) 0 sampleGame 0%nat cur1)
      as (Hnext & Hfresh & _);
      [vm_compute; split; [discriminate|reflexivity]
      |vm_compute; split; [discriminate|reflexivity]
      |exact Hgrow
      |exact (isRegionConnected_false rs 3 Hfalse)|].
    split; [exact Hfalse|]. split; [exact Hnext|]. apply Hfresh.
    vm_compute. reflexivity.
  - vm_compute in Hgrow. discriminate Hgrow.
Defined.

(** ** The stall fill *)

(** C7: on a solution of [gridSize] beans in distinct cells of the
    board, the growth loop hands over to the stall fill only in a state
    in which every region's queue is empty and some cell of the board
    is still unassigned. *)
Theorem stallFill_only_when_exhausted (rnd : nat → nat) (sol : list Pos)
    (fuel cur cur' : nat) (st : Growth) :
  solutionOnBoard sol →
  growLoop rnd fuel (initialGrowth sol) cur = Some (Stalled st, cur') →
  (∀ q, q ∈ queues st → q = [])
  ∧ ∃ i, onBoard i ∧ regionAt (g_regions st) i = Some (-1).
Proof.
  intros Hsol Hloop.
  pose proof (growLoop_exit rnd sol fuel _ cur _ cur' (initialGrowth_inv sol Hsol) Hloop)
    as (Hinv & Hleft & Hqueues).
  split; [done|].
  destruct Hinv as [Hlen _ _ Hcount _ _].
  destruct (countIf_pos_lookup (fun v => bool_decide (v = -1)) (g_regions st))
    as (n & x & Hn & Hx).
  { fold (unclaimed (g_regions st)). lia. }
  apply bool_decide_eq_true_1 in Hx as ->.
  pose proof (lookup_lt_Some _ _ _ Hn) as Hlt.
  exists (Z.of_nat n). split; [unfold onBoard; lia|].
  by rewrite regionAt_lookup, Nat2Z.id by lia.
Qed.

Lemma stallFill_only_when_exhausted_witness :
  match growLoop (constantDraws 0) growFuel (initialGrowth generateFallbackSolution) 0 with
  | Some (Stalled st, _) =>
      (∀ q, q ∈ queues st → q = [])
      ∧ ∃ i, onBoard i ∧ regionAt (g_regions st) i = Some (-1)
  | _ => False
  end.
Proof.
  destruct (growLoop (constantDraws 0) growFuel
              (initialGrowth generateFallbackSolution) 0)
    as [[[st|st] cur']|] eqn:Hloop.
  - vm_compute in Hloop. discriminate Hloop.
  - apply (stallFill_only_when_exhausted (constantDraws 0) generateFallbackSolution
             growFuel 0 cur' st); [|exact Hloop].
    split; [reflexivity|]. split.
    + apply Forall_forall. refine (bool_decide_unpack _ _). vm_compute. exact I.
    + refine (bool_decide_unpack _ _). vm_compute. exact I.
  - vm_compute in Hloop. discriminate Hloop.
Defined.

(** ** Evaluations on the sample board *)

Example isValidPlacement_diagonal : isValidPlacement 1 1 [mkPos 0 0] = false.
Proof. reflexivity. Qed.

Example isValidPlacement_knight : isValidPlacement 1 2 [mkPos 0 0] = true.
Proof. reflexivity. Qed.

Example sampleRegions_grown :
  growRegions (constantDraws 0) generateFallbackSolution 0
  = Some (sampleRegions, 180%nat).
Proof. vm_compute. reflexivity. Qed.

Example sampleRegions_connected :
  allConnected sampleRegions (seqZ 0 gridSize) = Some true.
Proof. vm_compute. reflexivity. Qed.

Example sampleGame_two_solutions :
  countSolutions sampleGame = Some (2, sampleGame).
Proof. vm_compute. reflexivity. Qed.

Example sampleGame_solved :
  checkSolution sampleGame
  = (set_gameActive sampleGame false, mkReport (Some Congratulations) (Some [])).
Proof. vm_compute. reflexivity. Qed.

Example two_beans_in_row_0 :
  let errs := collectErrors sampleRegions [mkBean 0 0 (Some 0); mkBean 0 3 (Some 4)] in
  RowError 1 ∈ errs ∧ touchErrors [mkBean 0 0 (Some 0); mkBean 0 3 (Some 4)] = [].
Proof. split; [vm_compute; solve_elem|reflexivity]. Qed.

(** * Further properties of the script *)

(** ** The shuffle *)

Lemma swap_Permutation {A} (l : list A) (i j : nat) : swap l i j ≡ₚ l.
Proof.
  unfold swap. destruct (l !! i) as [x|] eqn:Hi; [|done].
  destruct (l !! j) as [y|] eqn:Hj; [|done].
  pose proof (lookup_lt_Some _ _ _ Hi) as Hilt.
  pose proof (lookup_lt_Some _ _ _ Hj) as Hjlt.
  apply Permutation_inj. split; [by rewrite !length_insert|].
  exists (fun k => if decide (k = i) then j else if decide (k = j) then i else k).
  split.
  - intros a b Hab. repeat case_decide; lia.
  - intros k. destruct (decide (k = j)) as [->|Hkj].
    + rewrite list_lookup_insert_eq by (by rewrite length_insert).
      destruct (decide (j = i)) as [->|_]; [congruence|done].
    + rewrite list_lookup_insert_ne by done.
      destruct (decide (k = i)) as [->|Hki].
      * by rewrite list_lookup_insert_eq.
      * by rewrite list_lookup_insert_ne.
Qed.

Lemma shuffleFrom_spec {A} rnd (i : nat) :
  ∀ (l : list A) cur,
    (shuffleFrom rnd i l cur).1 ≡ₚ l
    ∧ (shuffleFrom rnd i l cur).2 = (cur + i)%nat.
Proof.
  induction i as [|i IH]; intros l cur; cbn [shuffleFrom].
  - split; [done|]. cbn. lia.
  - destruct (IH (swap l (S i) (randomBelow rnd (S i + 1) cur)) (S cur)) as [Hp Hc].
    split; [by rewrite Hp, swap_Permutation|]. rewrite Hc. lia.
Qed.

(** X1: whatever the draws, [shuffleArray] returns a rearrangement of
    the array it is given (no element lost, none repeated) and makes one
    draw for every index from the last down to 1. *)
Theorem shuffleArray_Permutation {A} (rnd : nat → nat) (l : list A) (cur : nat) :
  (shuffleArray rnd l cur).1 ≡ₚ l
  ∧ (shuffleArray rnd l cur).2 = (cur + (length l - 1))%nat.
Proof. apply shuffleFrom_spec. Qed.

(** ** The check of the generated solution *)

Lemma generateValidSolution_goodPrefix rnd g cur :
  goodPrefix (solution (generateValidSolution rnd g cur).1)
  ∧ Z.of_nat (length (solution (generateValidSolution rnd g cur).1)) = gridSize.
Proof.
  unfold generateValidSolution.
  pose proof (attemptLoop_goodPrefix rnd maxAttempts [] cur goodPrefix_nil) as Hgood.
  destruct (attemptLoop rnd maxAttempts [] cur) as [sol cur']. cbn [fst] in *.
  destruct (decide (Z.of_nat (length sol) = gridSize)) as [Hlen|Hlen];
    cbn [fst solution set_solution].
  - done.
  - split; [apply generateFallbackSolution_goodPrefix|reflexivity].
Qed.

Lemma goodPrefix_NoDup_rows sol : goodPrefix sol → NoDup (row <$> sol).
Proof.
  intros (Hrow & _ & _). apply NoDup_alt. intros i j x Hi Hj.
  apply list_lookup_fmap_Some in Hi as (p & -> & Hp).
  apply list_lookup_fmap_Some in Hj as (q & Heq & Hq).
  apply Hrow in Hp, Hq. lia.
Qed.

Lemma checkDuplicates_nil sol :
  ∀ rowsUsed colsUsed,
    checkDuplicates sol rowsUsed colsUsed = [] ↔
    (NoDup (row <$> sol) ∧ ∀ p, p ∈ sol → row p ∉ rowsUsed)
    ∧ (NoDup (col <$> sol) ∧ ∀ p, p ∈ sol → col p ∉ colsUsed).
Proof.
  induction sol as [|b sol IH]; intros rowsUsed colsUsed; cbn [checkDuplicates].
  - split; [|done]. intros _.
    split; (split; [constructor|]); intros p Hp; by apply elem_of_nil in Hp.
  - rewrite !fmap_cons, !NoDup_cons.
    destruct (decide (row b ∈ rowsUsed)) as [Hr|Hr].
    { split; [discriminate|]. intros [[_ H] _]. exfalso.
      by apply (H b (list_elem_of_here _ _)). }
    destruct (decide (col b ∈ colsUsed)) as [Hc|Hc].
    { split; [discriminate|]. intros [_ [_ H]]. exfalso.
      by apply (H b (list_elem_of_here _ _)). }
    cbn [app]. rewrite IH. split.
    + intros [[Hnr Hrows] [Hnc Hcols]]. split; split.
      * split; [|done]. intros (p & Heq & Hp)%list_elem_of_fmap.
        apply (Hrows p Hp). rewrite <- Heq. apply elem_of_union. left.
        by apply elem_of_singleton.
      * intros p [->|Hp]%elem_of_cons; [done|]. intros Hin.
        apply (Hrows p Hp). apply elem_of_union. by right.
      * split; [|done]. intros (p & Heq & Hp)%list_elem_of_fmap.
        apply (Hcols p Hp). rewrite <- Heq. apply elem_of_union. left.
        by apply elem_of_singleton.
      * intros p [->|Hp]%elem_of_cons; [done|]. intros Hin.
        apply (Hcols p Hp). apply elem_of_union. by right.
    + intros [[[Hbr Hnr] Hrows] [[Hbc Hnc] Hcols]]. split; split; try done.
      * intros p Hp [Heq%elem_of_singleton|Hin]%elem_of_union.
        -- apply Hbr. rewrite <- Heq. by apply list_elem_of_fmap_2.
        -- apply (Hrows p); [by right|done].
      * intros p Hp [Heq%elem_of_singleton|Hin]%elem_of_union.
        -- apply Hbc. rewrite <- Heq. by apply list_elem_of_fmap_2.
        -- apply (Hcols p); [by right|done].
Qed.

Lemma touchingWith_nil b1 later :
  touchingWith b1 later = [] ↔
  ∀ b2, b2 ∈ later → touching (row b1) (col b1) (row b2) (col b2) = false.
Proof.
  unfold touchingWith. induction later as [|b later IH]; cbn [flat_map].
  - split; [|done]. intros _ b2 Hb2. by apply elem_of_nil in Hb2.
  - destruct (touching (row b1) (col b1) (row b) (col b)) eqn:Ht.
    + split; [discriminate|]. intros H.
      specialize (H b (list_elem_of_here _ _)). congruence.
    + cbn [app]. rewrite IH. split.
      * intros H b2 [->|Hb2]%elem_of_cons; [done|by apply H].
      * intros H b2 Hb2. apply H. by right.
Qed.

Lemma touchingPairs_nil sol : touchingPairs sol = [] ↔ apart sol.
Proof.
  induction sol as [|b sol IH]; cbn [touchingPairs].
  - split; [|done]. intros _ i j x y _ Hi. by rewrite lookup_nil in Hi.
  - split.
    + intros [Hb Hsol]%app_nil. rewrite touchingWith_nil in Hb.
      rewrite IH in Hsol. intros i j x y Hij Hi Hj.
      destruct j as [|j]; [lia|]. cbn in Hj. destruct i as [|i]; cbn in Hi.
      * injection Hi as <-. apply Hb. apply list_elem_of_lookup. eauto.
      * apply (Hsol i j); [lia|done|done].
    + intros H. apply app_nil. split.
      * apply touchingWith_nil. intros b2 [j Hj]%list_elem_of_lookup.
        by apply (H 0%nat (S j)); [lia| |].
      * apply IH. intros i j x y Hij Hi Hj. by apply (H (S i) (S j)); [lia| |].
Qed.

Lemma validateSolution_nil sol :
  validateSolution sol = [] ↔
  NoDup (row <$> sol) ∧ NoDup (col <$> sol) ∧ apart sol.
Proof.
  unfold validateSolution. split.
  - intros [Hd Ht]%app_nil. apply checkDuplicates_nil in Hd as [[Hr _] [Hc _]].
    by apply touchingPairs_nil in Ht.
  - intros (Hr & Hc & Ha). apply app_nil. split.
    + apply checkDuplicates_nil. split; (split; [done|]); intros p _;
        apply not_elem_of_empty.
    + by apply touchingPairs_nil.
Qed.

(** X2: [validateSolution] logs no error exactly when the rows of the
    solution are pairwise distinct, its columns are pairwise distinct
    and no bean touches an earlier one; and on the solution that
    [generateValidSolution] has just built, whatever the draws, it logs
    none. *)
Theorem validateSolution_silent :
  (∀ sol, validateSolution sol = [] ↔
          NoDup (row <$> sol) ∧ NoDup (col <$> sol) ∧ apart sol)
  ∧ ∀ (rnd : nat → nat) (g : Game) (cur : nat),
      validateSolution (solution (generateValidSolution rnd g cur).1) = [].
Proof.
  split; [apply validateSolution_nil|]. intros rnd g cur.
  destruct (generateValidSolution_goodPrefix rnd g cur) as [Hgood _].
  apply validateSolution_nil. split; [by apply goodPrefix_NoDup_rows|].
  destruct Hgood as (_ & Hc & Ha). done.
Qed.

(** ** The generated puzzle *)

Lemma goodPrefix_rows sol :
  goodPrefix sol → row <$> sol = seqZ 0 (Z.of_nat (length sol)).
Proof.
  intros (Hrow & _ & _). apply list_eq. intros i.
  rewrite list_lookup_fmap.
  destruct (sol !! i) as [p|] eqn:Hp; cbn.
  - pose proof (lookup_lt_Some _ _ _ Hp). rewrite (Hrow i p Hp).
    symmetry. rewrite lookup_seqZ. lia.
  - apply lookup_ge_None in Hp. symmetry. apply lookup_seqZ_ge. lia.
Qed.

Lemma generatedPuzzle_rowPlacements g :
  generatedPuzzle g → solution g ∈ rowPlacements (Z.to_nat gridSize) 0.
Proof.
  intros (Hgood & Hlen & Hcols & _). apply rowPlacements_intro; [|done].
  rewrite (goodPrefix_rows _ Hgood). f_equal. unfold gridSize in *. lia.
Qed.

Lemma generatedPuzzle_legal g :
  generatedPuzzle g → legal (regions g) (solution g).
Proof.
  intros (Hgood & Hlen & Hcols & [Hmap Hseed]).
  destruct Hgood as (_ & Hc & Ha). split; [done|]. split; [|done].
  apply NoDup_alt. intros i j x Hi Hj.
  apply list_lookup_fmap_Some in Hi as (p & -> & Hp).
  apply list_lookup_fmap_Some in Hj as (q & Heq & Hq).
  unfold regionOf in Heq. fold (cellOf p) (cellOf q) in Heq.
  rewrite (Hseed i p Hp), (Hseed j q Hq) in Heq. injection Heq. lia.
Qed.

Lemma generatedPuzzle_satisfies g :
  generatedPuzzle g → satisfiesAll (regions g) (solution g) = true.
Proof.
  intros Hg. apply satisfiesAll_legal.
  - by destruct Hg as (_ & _ & _ & [Hmap _]).
  - by apply generatedPuzzle_rowPlacements.
  - by apply generatedPuzzle_legal.
Qed.

Lemma countIf_elem {A} (t : A → bool) l x :
  x ∈ l → t x = true → (1 ≤ countIf t l)%nat.
Proof.
  induction l as [|a l IH]; [by intros ?%elem_of_nil|].
  intros [->|Hin]%elem_of_cons Hx; cbn [countIf].
  - rewrite Hx. lia.
  - specialize (IH Hin Hx). lia.
Qed.

Lemma countIf_one_unique {A} (t : A → bool) l x y :
  countIf t l = 1%nat → x ∈ l → y ∈ l → t x = true → t y = true → x = y.
Proof.
  induction l as [|a l IH]; [by intros _ ?%elem_of_nil|].
  cbn [countIf]. intros Hc Hx Hy Htx Hty.
  destruct (t a) eqn:Hta.
  - assert (Hzero : countIf t l = 0%nat) by lia.
    apply elem_of_cons in Hx as [->|Hx].
    + apply elem_of_cons in Hy as [->|Hy]; [done|].
      pose proof (countIf_zero t l y Hzero Hy). congruence.
    + pose proof (countIf_zero t l x Hzero Hx). congruence.
  - apply IH; [lia| | |done|done].
    + apply elem_of_cons in Hx as [->|Hx]; [congruence|done].
    + apply elem_of_cons in Hy as [->|Hy]; [congruence|done].
Qed.

Lemma numberOfSolutions_unique rs p q :
  numberOfSolutions rs = 1%nat →
  p ∈ rowPlacements (Z.to_nat gridSize) 0 →
  q ∈ rowPlacements (Z.to_nat gridSize) 0 →
  satisfiesAll rs p = true → satisfiesAll rs q = true → p = q.
Proof. unfold numberOfSolutions. apply countIf_one_unique. Qed.

Lemma numberOfSolutions_pos rs p :
  p ∈ rowPlacements (Z.to_nat gridSize) 0 → satisfiesAll rs p = true →
  (1 ≤ numberOfSolutions rs)%nat.
Proof. unfold numberOfSolutions. apply countIf_elem. Qed.

Lemma generatedPuzzle_count g :
  generatedPuzzle g →
  (1 ≤ numberOfSolutions (regions g))%nat
  ∧ countSolutions g
    = Some (Z.min maxSolutions (Z.of_nat (numberOfSolutions (regions g))), g).
Proof.
  intros Hg. split.
  - apply (numberOfSolutions_pos _ (solution g)).
    + by apply generatedPuzzle_rowPlacements.
    + by apply generatedPuzzle_satisfies.
  - rewrite countSolutions_eq, countFrom_numberOfSolutions; [done|].
    by destruct Hg as (_ & _ & _ & [Hmap _]).
Qed.

Lemma sampleGame_generatedPuzzle : generatedPuzzle sampleGame.
Proof.
  split; [apply generateFallbackSolution_goodPrefix|]. split; [reflexivity|].
  split; [|split].
  - apply Forall_forall. refine (bool_decide_unpack _ _). vm_compute. exact I.
  - apply sampleRegions_regionMap.
  - intros k p Hk. cbn [sampleGame solution generateFallbackSolution] in Hk.
    destruct k as [|[|[|[|[|[|[|[|k]]]]]]]]; simplify_eq/=; reflexivity.
Qed.

(** X3: on a generated puzzle [countSolutions] never returns 0: it
    returns 1 or 2, because the solution the regions were grown from is
    itself a placement that meets the four constraints.  So when the
    uniqueness loop regenerates, there was more than one solution. *)
Theorem countSolutions_generated (g : Game) :
  generatedPuzzle g →
  satisfiesAll (regions g) (solution g) = true
  ∧ ∃ n, countSolutions g = Some (n, g) ∧ (n = 1 ∨ n = 2)
         ∧ (n = 1 ↔ numberOfSolutions (regions g) = 1%nat).
Proof.
  intros Hg. split; [by apply generatedPuzzle_satisfies|].
  destruct (generatedPuzzle_count g Hg) as [Hpos ->].
  eexists. split; [reflexivity|]. unfold maxSolutions. lia.
Qed.

Lemma countSolutions_generated_witness :
  satisfiesAll (regions sampleGame) (solution sampleGame) = true
  ∧ ∃ n, countSolutions sampleGame = Some (n, sampleGame) ∧ (n = 1 ∨ n = 2)
         ∧ (n = 1 ↔ numberOfSolutions (regions sampleGame) = 1%nat).
Proof.
  apply (countSolutions_generated sampleGame).
  split; [apply generateFallbackSolution_goodPrefix|]. split; [reflexivity|].
  split; [|split].
  - apply Forall_forall. refine (bool_decide_unpack _ _). vm_compute. exact I.
  - split; [reflexivity|]. apply Forall_forall.
    refine (bool_decide_unpack _ _). vm_compute. exact I.
  - intros k p Hk. cbn [sampleGame solution generateFallbackSolution] in Hk.
    destruct k as [|[|[|[|[|[|[|[|k]]]]]]]]; simplify_eq/=; reflexivity.
Defined.

(** *** What [initializeGame] hands to the player *)

Lemma generateValidSolution_frame rnd g cur :
  (generateValidSolution rnd g cur).1
  = set_solution g (solution (generateValidSolution rnd g cur).1).
Proof.
  unfold generateValidSolution.
  destruct (attemptLoop rnd maxAttempts [] cur) as [sol cur']. reflexivity.
Qed.

Lemma generateRegionsFromSolution_puzzle rnd g cur g' cur' v :
  goodPrefix (solution g) →
  Z.of_nat (length (solution g)) = gridSize →
  (∀ p, p ∈ solution g → 0 ≤ col p < gridSize) →
  generateRegionsFromSolution rnd 0 g cur = Some (g', cur', v) →
  generatedPuzzle g'.
Proof.
  intros Hgood Hlen Hcols Hrun.
  pose proof (generateRegionsFromSolution_set_regions _ _ _ _ _ _ _ Hrun) as Hframe.
  rewrite generateRegionsFromSolution_unfold in Hrun.
  pose proof (goodPrefix_onBoard _ Hgood Hlen Hcols) as Hsol.
  destruct (regenerate_spec rnd (Z.to_nat (maxRegenerationAttempts - 0)) g cur Hsol)
    as (g2 & cur2 & v2 & Hrun2 & Hgrown & _).
  { intros Hzero. vm_compute in Hzero. discriminate. }
  rewrite Hrun in Hrun2. injection Hrun2 as <- <- <-.
  assert (Hsame : solution g' = solution g) by (by rewrite Hframe).
  unfold generatedPuzzle. rewrite Hsame. done.
Qed.

Lemma loopStep_generatedPuzzle rnd a b :
  rtc (loopStep rnd) a b → generatedPuzzle a.1 →
  generatedPuzzle b.1 ∧ b.1 = set_regions a.1 (regions b.1).
Proof.
  induction 1 as [a|a b c (n & v & _ & _ & Hgen) _ IH]; intros Ha.
  - split; [done|]. by destruct a.1.
  - destruct Ha as (Hgood & Hlen & Hcols & _).
    pose proof (generateRegionsFromSolution_puzzle _ _ _ _ _ _ Hgood Hlen Hcols Hgen)
      as Hb.
    apply generateRegionsFromSolution_set_regions in Hgen.
    destruct (IH Hb) as [Hc Hframe]. split; [done|].
    rewrite Hframe, Hgen. reflexivity.
Qed.

Lemma countSolutions_one_unique g :
  generatedPuzzle g → countSolutions g = Some (1, g) →
  numberOfSolutions (regions g) = 1%nat.
Proof.
  intros Hg Hcount. destruct (generatedPuzzle_count g Hg) as [Hpos Hcount'].
  revert Hpos Hcount'. rewrite Hcount.
  generalize (numberOfSolutions (regions g)). intros N Hpos [= Hone].
  unfold maxSolutions in Hone. lia.
Qed.

Lemma initializeGame_unfold rnd fuel g cur :
  initializeGame rnd fuel g cur
  = let g0 := mkGame (regions g) [] [] [] (solution g) true in
    let '(g1, cur1) := generateValidSolution rnd g0 cur in
    '(g2, cur2, _) ← generateRegionsFromSolution rnd 0 g1 cur1;
    uniquenessLoop rnd fuel g2 cur2.
Proof. reflexivity. Qed.

(** The state [initializeGame] leaves: a generated puzzle on which the
    counter returned 1, active, with an empty board. *)
Lemma initializeGame_generated rnd fuel g g' cur cur' :
  initializeGame rnd fuel g cur = Some (g', cur') →
  generatedPuzzle g' ∧ countSolutions g' = Some (1, g')
  ∧ gameActive g' = true
  ∧ beansPlaced g' = [] ∧ xMarkers g' = [] ∧ autoXMarkers g' = [].
Proof.
  rewrite initializeGame_unfold. cbn zeta. intros Hrun.
  pose proof (generateValidSolution_frame rnd
                (mkGame (regions g) [] [] [] (solution g) true) cur) as Hframe1.
  destruct (generateValidSolution_goodPrefix rnd
              (mkGame (regions g) [] [] [] (solution g) true) cur) as [Hgood Hlen].
  pose proof (generateValidSolution_onBoard rnd
                (mkGame (regions g) [] [] [] (solution g) true) cur) as (_ & Hon & _).
  destruct (generateValidSolution rnd _ cur) as [g1 cur1].
  cbn [fst] in Hframe1, Hgood, Hlen, Hon.
  destruct (generateRegionsFromSolution rnd 0 g1 cur1) as [[[g2 cur2] v]|] eqn:Hgen;
    [|done].
  cbn [mbind option_bind] in Hrun.
  assert (Hpuzzle2 : generatedPuzzle g2).
  { apply (generateRegionsFromSolution_puzzle rnd g1 cur1 g2 cur2 v Hgood Hlen);
      [|exact Hgen].
    intros p Hp. by apply Hon. }
  apply generateRegionsFromSolution_set_regions in Hgen.
  apply uniquenessLoop_steps in Hrun as [Hrtc Hcount].
  destruct (loopStep_generatedPuzzle rnd _ _ Hrtc Hpuzzle2) as [Hpuzzle Hframe3].
  cbn [fst] in Hpuzzle, Hframe3.
  split; [exact Hpuzzle|]. split; [exact Hcount|].
  rewrite Hframe3, Hgen, Hframe1. done.
Qed.

(** X4: whenever [initializeGame] gets past its uniqueness loop, the
    game is active with no bean and no marker on the board, the solution
    has [gridSize] beans with distinct rows and columns and no two
    touching, every cell lies in a region [0 .. gridSize - 1] with one
    bean of the solution in each, and the puzzle has exactly one
    solution, which is [solution]. *)
Theorem initializeGame_puzzle (rnd : nat → nat) (fuel : nat) (g g' : Game)
    (cur cur' : nat) :
  initializeGame rnd fuel g cur = Some (g', cur') →
  gameActive g' = true
  ∧ beansPlaced g' = [] ∧ xMarkers g' = [] ∧ autoXMarkers g' = []
  ∧ validSolution (solution g')
  ∧ grownFrom (solution g') (regions g')
  ∧ numberOfSolutions (regions g') = 1%nat
  ∧ ∀ p, p ∈ rowPlacements (Z.to_nat gridSize) 0 →
         (satisfiesAll (regions g') p = true ↔ p = solution g').
Proof.
  intros Hrun.
  destruct (initializeGame_generated rnd fuel g g' cur cur' Hrun)
    as (Hpuzzle & Hcount & Hactive & Hb & Hx & Ha).
  pose proof (generatedPuzzle_rowPlacements g' Hpuzzle) as Hsolrow.
  pose proof (generatedPuzzle_satisfies g' Hpuzzle) as Hsolsat.
  pose proof (countSolutions_one_unique g' Hpuzzle Hcount) as Hunique.
  split; [exact Hactive|]. split; [exact Hb|]. split; [exact Hx|].
  split; [exact Ha|]. split.
  { apply goodPrefix_valid; by destruct Hpuzzle as (? & ? & _). }
  split; [by destruct Hpuzzle as (_ & _ & _ & ?)|].
  split; [exact Hunique|].
  intros p Hp. split.
  - intros Hsat.
    exact (numberOfSolutions_unique (regions g') p (solution g') Hunique Hp Hsolrow
             Hsat Hsolsat).
  - intros ->. exact Hsolsat.
Qed.

Lemma initializeGame_puzzle_witness :
  ∃ g' cur',
    initializeGame (sampleDraws 2) 23 emptyGame 0 = Some (g', cur')
    ∧ gameActive g' = true
    ∧ validSolution (solution g')
    ∧ numberOfSolutions (regions g') = 1%nat.
Proof.
  destruct (initializeGame (sampleDraws 2) 23 emptyGame 0) as [[g' cur']|] eqn:Hrun.
  - exists g', cur'. split; [reflexivity|].
    destruct (initializeGame_puzzle _ _ _ _ _ _ Hrun)
      as (Hactive & _ & _ & _ & Hvalid & _ & Hone & _).
    split; [exact Hactive|]. split; [exact Hvalid|exact Hone].
  - vm_compute in Hrun. discriminate Hrun.
Defined.

(** ** The player-side checker against the four constraints *)

Lemma length_filter_countIf {A} (t : A → bool) l :
  length (filter (λ b, t b = true) l) = countIf t l.
Proof.
  induction l as [|x l IH]; [done|].
  rewrite filter_cons. cbn [countIf]. destruct (t x) eqn:Hx.
  - rewrite decide_True by done. cbn [length]. by rewrite IH.
  - rewrite decide_False by congruence. done.
Qed.

Lemma flat_map_nil {A B} (f : A → list B) l :
  flat_map f l = [] ↔ ∀ x, x ∈ l → f x = [].
Proof.
  induction l as [|a l IH]; cbn [flat_map].
  - split; [|done]. intros _ x Hx. by apply elem_of_nil in Hx.
  - rewrite app_nil, IH. split.
    + intros [Ha Hl] x [->|Hx]%elem_of_cons; [done|by apply Hl].
    + intros H. split; [apply H; by left|]. intros x Hx. apply H. by right.
Qed.

Lemma countErrors_nil {A} mk (test : Z → A → bool) beans :
  countErrors mk test beans = [] ↔
  ∀ i, 0 ≤ i < gridSize → countIf (test i) beans = 1%nat.
Proof.
  unfold countErrors. rewrite flat_map_nil. split.
  - intros H i Hi. specialize (H i). rewrite length_filter_countIf in H.
    destruct (decide (countIf (test i) beans = 1%nat)) as [|Hne]; [done|].
    discriminate H. apply elem_of_seqZ. lia.
  - intros H i Hi%elem_of_seqZ. rewrite length_filter_countIf.
    rewrite decide_True; [done|]. apply H. lia.
Qed.

Lemma touchErrorsOf_nil b1 later :
  touchErrorsOf b1 later = [] ↔
  touchingWith (beanPos b1) (beanPos <$> later) = [].
Proof.
  unfold touchErrorsOf, touchingWith.
  induction later as [|b later IH]; [done|].
  rewrite fmap_cons. cbn [flat_map]. rewrite !app_nil, IH.
  cbn [beanPos row col].
  destruct (touching (bean_row b1) (bean_col b1) (bean_row b) (bean_col b));
    [split; intros [? _]; discriminate|tauto].
Qed.

Lemma touchErrors_nil beans :
  touchErrors beans = [] ↔ apart (beanPos <$> beans).
Proof.
  rewrite <- touchingPairs_nil.
  induction beans as [|b beans IH]; [done|].
  rewrite fmap_cons. cbn [touchErrors touchingPairs].
  by rewrite !app_nil, IH, touchErrorsOf_nil.
Qed.

(** The checker's four rules find nothing exactly when the placed beans
    satisfy the four constraints the solution counter counts by. *)
Lemma collectErrors_nil rs beans :
  Z.of_nat (length beans) = gridSize →
  (collectErrors rs beans = [] ↔ satisfiesAll rs (beanPos <$> beans) = true).
Proof.
  intros Hlen. unfold collectErrors.
  rewrite !app_nil, !countErrors_nil, touchErrors_nil, satisfiesAll_spec, length_fmap.
  assert (Hrow : ∀ i, countIf (λ q, bool_decide (row q = i)) (beanPos <$> beans)
                      = countIf (inRow i) beans) by (intros; by rewrite countIf_fmap).
  assert (Hcol : ∀ i, countIf (λ q, bool_decide (col q = i)) (beanPos <$> beans)
                      = countIf (inCol i) beans) by (intros; by rewrite countIf_fmap).
  assert (Hreg : ∀ r, countIf (λ q, bool_decide (regionOf rs q = Some r))
                        (beanPos <$> beans)
                      = countIf (inRegion rs r) beans) by (intros; by rewrite countIf_fmap).
  split.
  - intros (Hr & Hc & Hg & Ha). split; [done|].
    split; [intros i Hi; rewrite Hrow; by apply Hr|].
    split; [intros i Hi; rewrite Hcol; by apply Hc|].
    split; [intros i Hi; rewrite Hreg; by apply Hg|done].
  - intros (_ & Hr & Hc & Hg & Ha).
    split; [intros i Hi; rewrite <- Hrow; by apply Hr|].
    split; [intros i Hi; rewrite <- Hcol; by apply Hc|].
    split; [intros i Hi; rewrite <- Hreg; by apply Hg|done].
Qed.

Lemma satisfiesAll_length rs p :
  satisfiesAll rs p = true → Z.of_nat (length p) = gridSize.
Proof. by intros (Hlen & _)%satisfiesAll_spec. Qed.

Lemma checkSolution_satisfiesAll g :
  gameActive g = true →
  (shown (checkSolution g).2 = Some Congratulations
   ↔ satisfiesAll (regions g) (beanPos <$> beansPlaced g) = true)
  ∧ (checkSolution g).1
    = (if satisfiesAll (regions g) (beanPos <$> beansPlaced g)
       then set_gameActive g false else g).
Proof.
  intros Hactive. unfold checkSolution. rewrite Hactive. cbn [negb].
  destruct (decide (Z.of_nat (length (beansPlaced g)) = gridSize)) as [Hlen|Hlen].
  - rewrite bool_decide_eq_true_2 by done. cbn [negb].
    pose proof (collectErrors_nil (regions g) (beansPlaced g) Hlen) as Hiff.
    destruct (collectErrors (regions g) (beansPlaced g)) as [|e errs].
    + rewrite (proj1 Hiff eq_refl). done.
    + destruct (satisfiesAll (regions g) (beanPos <$> beansPlaced g)).
      * by discriminate (proj2 Hiff eq_refl).
      * cbn. split; [|done]. split; discriminate.
  - rewrite bool_decide_eq_false_2 by done. cbn [negb].
    destruct (satisfiesAll (regions g) (beanPos <$> beansPlaced g)) eqn:Hsat.
    + apply satisfiesAll_length in Hsat. rewrite length_fmap in Hsat. done.
    + cbn. split; [|done]. split; discriminate.
Qed.

(** X5: on an active game [checkSolution] congratulates (and ends the
    game) exactly when the beans placed satisfy the four constraints the
    solution counter counts by: [gridSize] beans, one in every row, one
    in every column, one in every region [0 .. gridSize - 1], no two
    touching; otherwise it leaves every game variable as it was. *)
Theorem checkSolution_congratulates (g : Game) :
  gameActive g = true →
  (shown (checkSolution g).2 = Some Congratulations
   ↔ satisfiesAll (regions g) (beanPos <$> beansPlaced g) = true)
  ∧ (checkSolution g).1
    = (if satisfiesAll (regions g) (beanPos <$> beansPlaced g)
       then set_gameActive g false else g).
Proof.
  intros Hactive. exact (checkSolution_satisfiesAll g Hactive).
Qed.

Lemma checkSolution_congratulates_witness :
  (shown (checkSolution (uniqueGame uniqueSolution)).2 = Some Congratulations
   ↔ satisfiesAll uniqueRegions uniqueSolution = true)
  ∧ (checkSolution (uniqueGame uniqueSolution)).1
    = set_gameActive (uniqueGame uniqueSolution) false.
Proof.
  apply (checkSolution_congratulates (uniqueGame uniqueSolution)). reflexivity.
Defined.

Lemma uniqueGame_generatedPuzzle placed : generatedPuzzle (uniqueGame placed).
Proof.
  split; [|split; [reflexivity|split; [|split; [split|]]]].
  - split; [|split].
    + intros k p Hk. cbn [uniqueGame solution uniqueSolution] in Hk.
      destruct k as [|[|[|[|[|[|[|[|k]]]]]]]]; simplify_eq/=; reflexivity.
    + refine (bool_decide_unpack _ _). vm_compute. exact I.
    + apply noneTouching_apart. reflexivity.
  - apply Forall_forall. refine (bool_decide_unpack _ _). vm_compute. exact I.
  - reflexivity.
  - apply Forall_forall. refine (bool_decide_unpack _ _). vm_compute. exact I.
  - intros k p Hk. cbn [uniqueGame solution uniqueSolution] in Hk.
    destruct k as [|[|[|[|[|[|[|[|k]]]]]]]]; simplify_eq/=; reflexivity.
Qed.

Lemma unique_placement_regions g p :
  generatedPuzzle g → numberOfSolutions (regions g) = 1%nat →
  (satisfiesAll (regions g) p = true ↔ p ≡ₚ solution g).
Proof.
  intros Hg Hone.
  pose proof (generatedPuzzle_rowPlacements g Hg) as Hsolrow.
  pose proof (generatedPuzzle_satisfies g Hg) as Hsolsat.
  split.
  - intros Hsat.
    destruct (satisfiesAll_rowPlacements (regions g) p Hsat) as (p' & Hp' & Hperm & Hsat').
    rewrite <- Hperm.
    by rewrite (numberOfSolutions_unique (regions g) p' (solution g) Hone Hp' Hsolrow
                  Hsat' Hsolsat).
  - intros Hperm. apply (satisfiesAll_Permutation (regions g) (solution g)); [|done].
    by symmetry.
Qed.

Lemma unique_placement g p :
  generatedPuzzle g → countSolutions g = Some (1, g) →
  (satisfiesAll (regions g) p = true ↔ p ≡ₚ solution g).
Proof.
  intros Hg Hcount. apply unique_placement_regions; [done|].
  by apply countSolutions_one_unique.
Qed.

(** X6: on a generated puzzle on which [countSolutions] returned 1 (the
    condition under which [initializeGame] leaves its loop), the player
    is congratulated exactly when the beans placed are the beans of
    [solution], in any order. *)
Theorem checkSolution_unique_puzzle (g : Game) :
  generatedPuzzle g →
  countSolutions g = Some (1, g) →
  gameActive g = true →
  (shown (checkSolution g).2 = Some Congratulations
   ↔ beanPos <$> beansPlaced g ≡ₚ solution g).
Proof.
  intros Hg Hcount Hactive.
  destruct (checkSolution_satisfiesAll g Hactive) as [-> _].
  by apply unique_placement.
Qed.

Lemma checkSolution_unique_puzzle_witness :
  shown (checkSolution (uniqueGame (reverse uniqueSolution))).2 = Some Congratulations
  ↔ beanPos <$> beansPlaced (uniqueGame (reverse uniqueSolution)) ≡ₚ uniqueSolution.
Proof.
  apply (checkSolution_unique_puzzle (uniqueGame (reverse uniqueSolution))).
  - apply uniqueGame_generatedPuzzle.
  - vm_compute. reflexivity.
  - reflexivity.
Defined.

(** ** Revealing the solution *)

Lemma showSolution_beans g :
  solution g ≠ [] →
  showSolution g
  = (mkGame (regions g) (beanOn (regions g) <$> solution g) [] [] (solution g) false,
     SolutionRevealed).
Proof.
  intros Hne. unfold showSolution, clearBoard, set_gameActive, set_beansPlaced.
  cbn [regions beansPlaced xMarkers autoXMarkers solution gameActive].
  by destruct (solution g).
Qed.

Lemma beanPos_beanOn rs (sol : list Pos) : beanPos <$> (beanOn rs <$> sol) = sol.
Proof.
  rewrite <- list_fmap_compose. rewrite <- (list_fmap_id sol) at 2.
  apply list_fmap_ext. by intros i [r c] _.
Qed.

(** X7: on a generated puzzle [showSolution] replaces whatever was on
    the board by the beans of [solution], each with the region of its
    cell, removes every marker and ends the game; the four rules of
    [checkSolution] find no violation in the beans it places; and from
    then on clicks and checks change nothing and show nothing. *)
Theorem showSolution_reveals (g : Game) :
  generatedPuzzle g →
  ∃ g', showSolution g = (g', SolutionRevealed)
    ∧ beanPos <$> beansPlaced g' = solution g
    ∧ (∀ b, b ∈ beansPlaced g' →
         bean_region b = regionAt (regions g) (cellIndex (bean_row b) (bean_col b)))
    ∧ xMarkers g' = [] ∧ autoXMarkers g' = []
    ∧ regions g' = regions g ∧ solution g' = solution g
    ∧ gameActive g' = false
    ∧ collectErrors (regions g') (beansPlaced g') = []
    ∧ (∀ chk r c t, handleCellClick chk r c t g' = (g', None))
    ∧ checkSolution g' = (g', mkReport None None).
Proof.
  intros Hg. pose proof Hg as (_ & Hlen & _).
  assert (Hne : solution g ≠ []).
  { intros Heq. rewrite Heq in Hlen. discriminate Hlen. }
  eexists. split; [by apply showSolution_beans|].
  cbn [beansPlaced xMarkers autoXMarkers regions solution gameActive].
  split; [apply beanPos_beanOn|]. split.
  { intros b (p & -> & _)%list_elem_of_fmap. reflexivity. }
  do 5 (split; [reflexivity|]). split; [|split; [reflexivity|reflexivity]].
  apply collectErrors_nil.
  - by rewrite length_fmap.
  - rewrite beanPos_beanOn. by apply generatedPuzzle_satisfies.
Qed.

Lemma showSolution_reveals_witness :
  ∃ g', showSolution (uniqueGame [mkPos 0 0]) = (g', SolutionRevealed)
    ∧ beanPos <$> beansPlaced g' = uniqueSolution
    ∧ collectErrors (regions g') (beansPlaced g') = [].
Proof.
  destruct (showSolution_reveals (uniqueGame [mkPos 0 0])
              (uniqueGame_generatedPuzzle [mkPos 0 0]))
    as (g' & Hshow & Hbeans & _ & _ & _ & _ & _ & _ & Herrs & _).
  exists g'. split; [exact Hshow|]. split; [exact Hbeans|exact Herrs].
Defined.

(** ** Clicks on the board *)

Lemma atCell_spec r c p : atCell r c p = true ↔ p = mkPos r c.
Proof.
  unfold atCell. rewrite andb_true_iff, !bool_decide_eq_true.
  destruct p as [r' c']. cbn. split; [by intros [-> ->]|by intros [= -> ->]].
Qed.

Lemma beanAt_spec r c b : beanAt r c b = true ↔ beanPos b = mkPos r c.
Proof.
  unfold beanAt, beanPos. rewrite andb_true_iff, !bool_decide_eq_true.
  split; [by intros [-> ->]|by intros [= -> ->]].
Qed.

Lemma existsb_atCell r c xs : existsb (atCell r c) xs = true ↔ mkPos r c ∈ xs.
Proof.
  rewrite existsb_exists. split.
  - intros (p & Hin%list_elem_of_In & ->%atCell_spec). done.
  - intros Hin. exists (mkPos r c). split; [by apply list_elem_of_In|].
    by apply atCell_spec.
Qed.

Lemma existsb_beanAt r c beans :
  existsb (beanAt r c) beans = true ↔ mkPos r c ∈ beanPos <$> beans.
Proof.
  rewrite existsb_exists, list_elem_of_fmap. split.
  - intros (b & Hin%list_elem_of_In & Hb%beanAt_spec). by exists b.
  - intros (b & Hb & Hin). exists b. split; [by apply list_elem_of_In|].
    by apply beanAt_spec.
Qed.

Lemma existsb_false {A} (t : A → bool) l :
  existsb t l = false ↔ ∀ x, x ∈ l → t x = false.
Proof.
  induction l as [|a l IH]; cbn [existsb].
  - split; [|done]. intros _ x Hx. by apply elem_of_nil in Hx.
  - rewrite orb_false_iff, IH. split.
    + intros [Ha Hl] x [->|Hx]%elem_of_cons; [done|by apply Hl].
    + intros H. split; [apply H; by left|]. intros x Hx. apply H. by right.
Qed.

Lemma findIndex_None {A} (test : A → bool) l :
  findIndex test l = None ↔ existsb test l = false.
Proof.
  unfold findIndex. rewrite fmap_None, list_find_None, Forall_forall, existsb_false.
  split; intros H x Hx; specialize (H x Hx); by destruct (test x).
Qed.

Lemma findIndex_Some {A} (test : A → bool) l k :
  findIndex test l = Some k →
  ∃ x, l !! k = Some x ∧ test x = true.
Proof.
  unfold findIndex. intros ([k' x] & Hfind & ->)%fmap_Some.
  apply list_find_Some in Hfind as (Hk & Hx & _). by exists x.
Qed.

Lemma findIndex_snoc {A} (test : A → bool) l x :
  findIndex test l = None → test x = true →
  findIndex test (l ++ [x]) = Some (length l).
Proof.
  unfold findIndex. intros Hnone%fmap_None Hx.
  rewrite list_find_app_r by done. cbn. rewrite decide_True by done. done.
Qed.

(** *** Automatic X markers *)

Lemma sameRegion_spec cellRegion regionIndex :
  sameRegion cellRegion regionIndex = true
  ↔ is_Some regionIndex ∧ cellRegion = regionIndex.
Proof.
  unfold sameRegion. destruct regionIndex as [r|].
  - rewrite bool_decide_eq_true. split; [by eauto|by intros [_ ?]].
  - split; [done|]. by intros [[? ?] _].
Qed.

Lemma shouldMarkX_spec rs beanRow beanCol regionIndex i j :
  (bool_decide (i = beanRow) || bool_decide (j = beanCol)
   || touching i j beanRow beanCol
   || sameRegion (regionAt rs (cellIndex i j)) regionIndex) = true
  ↔ barred rs beanRow beanCol regionIndex (mkPos i j).
Proof.
  unfold barred, regionOf. cbn [row col].
  rewrite !orb_true_iff, !bool_decide_eq_true, sameRegion_spec. tauto.
Qed.

Lemma autoFillCell_elem rs beans xs beanRow beanCol regionIndex autoXs i j p :
  p ∈ autoFillCell rs beans xs beanRow beanCol regionIndex autoXs (i, j) ↔
  p ∈ autoXs
  ∨ (p = mkPos i j ∧ (p ∉ beanPos <$> beans) ∧ (p ∉ xs)
     ∧ barred rs beanRow beanCol regionIndex p).
Proof.
  unfold autoFillCell.
  destruct (existsb (beanAt i j) beans) eqn:Hbean.
  { apply existsb_beanAt in Hbean. split; [by left|].
    intros [?|(-> & Hno & _)]; [done|]. by destruct Hno. }
  destruct (existsb (atCell i j) xs) eqn:Hx.
  { apply existsb_atCell in Hx. split; [by left|].
    intros [?|(-> & _ & Hno & _)]; [done|]. by destruct Hno. }
  destruct (existsb (atCell i j) autoXs) eqn:Hauto.
  { apply existsb_atCell in Hauto. split; [by left|].
    intros [?|(-> & _)]; done. }
  assert (Hnb : mkPos i j ∉ beanPos <$> beans).
  { intros Hin%existsb_beanAt. congruence. }
  assert (Hnx : mkPos i j ∉ xs).
  { intros Hin%existsb_atCell. congruence. }
  pose proof (shouldMarkX_spec rs beanRow beanCol regionIndex i j) as Hmark.
  destruct (orb _ _).
  - rewrite elem_of_app, list_elem_of_singleton. split.
    + intros [?| ->]; [by left|]. right. split; [done|]. split; [done|].
      split; [done|]. by apply Hmark.
    + intros [?|(-> & _)]; [by left|by right].
  - split; [by left|]. intros [?|(-> & _ & _ & Hb)]; [done|].
    apply Hmark in Hb. discriminate.
Qed.

Lemma autoFillCell_NoDup rs beans xs beanRow beanCol regionIndex autoXs cell :
  NoDup autoXs →
  NoDup (autoFillCell rs beans xs beanRow beanCol regionIndex autoXs cell).
Proof.
  intros Hnd. destruct cell as [i j]. unfold autoFillCell.
  destruct (existsb (beanAt i j) beans); [done|].
  destruct (existsb (atCell i j) xs); [done|].
  destruct (existsb (atCell i j) autoXs) eqn:Hauto; [done|].
  destruct (orb _ _); [|done].
  apply NoDup_snoc. split; [done|]. intros Hin%existsb_atCell. congruence.
Qed.

Lemma autoFill_fold_elem rs beans xs beanRow beanCol regionIndex cells :
  ∀ autoXs p,
    p ∈ foldl (autoFillCell rs beans xs beanRow beanCol regionIndex) autoXs cells ↔
    p ∈ autoXs
    ∨ ((row p, col p) ∈ cells ∧ (p ∉ beanPos <$> beans) ∧ (p ∉ xs)
       ∧ barred rs beanRow beanCol regionIndex p).
Proof.
  induction cells as [|[i j] cells IH]; intros autoXs p; cbn [foldl].
  - split; [by left|]. intros [?|[Hin _]]; [done|]. by apply elem_of_nil in Hin.
  - rewrite IH, autoFillCell_elem, elem_of_cons. split.
    + intros [[?|(-> & ?)]|(? & ?)]; [by left| |].
      * right. split; [by left|done].
      * right. split; [by right|done].
    + intros [?|([Heq|?] & ?)]; [by left; left| |by right].
      left. right. split; [|done]. destruct p as [r c]. by injection Heq as -> ->.
Qed.

Lemma autoFill_fold_NoDup rs beans xs beanRow beanCol regionIndex cells :
  ∀ autoXs,
    NoDup autoXs →
    NoDup (foldl (autoFillCell rs beans xs beanRow beanCol regionIndex) autoXs cells).
Proof.
  induction cells as [|cell cells IH]; intros autoXs Hnd; cbn [foldl]; [done|].
  by apply IH, autoFillCell_NoDup.
Qed.

Lemma elem_of_boardCells i j :
  (i, j) ∈ boardCells ↔ 0 ≤ i < gridSize ∧ 0 ≤ j < gridSize.
Proof.
  unfold boardCells. rewrite list_elem_of_bind. split.
  - intros (i' & (j' & Hij & Hj%elem_of_seqZ)%list_elem_of_bind & Hi%elem_of_seqZ).
    apply list_elem_of_singleton in Hij as [= -> ->]. lia.
  - intros [Hi Hj]. exists i. split; [|apply elem_of_seqZ; lia].
    apply list_elem_of_bind. exists j. split; [by apply list_elem_of_singleton|].
    apply elem_of_seqZ. lia.
Qed.

Lemma autoFill_fold_prefix rs beans xs beanRow beanCol regionIndex cells :
  ∀ autoXs,
    ∃ added,
      foldl (autoFillCell rs beans xs beanRow beanCol regionIndex) autoXs cells
      = autoXs ++ added.
Proof.
  induction cells as [|[i j] cells IH]; intros autoXs; cbn [foldl].
  - exists []. by rewrite app_nil_r.
  - destruct (IH (autoFillCell rs beans xs beanRow beanCol regionIndex autoXs (i, j)))
      as [added ->].
    unfold autoFillCell.
    destruct (existsb (beanAt i j) beans); [by exists added|].
    destruct (existsb (atCell i j) xs); [by exists added|].
    destruct (existsb (atCell i j) autoXs); [by exists added|].
    destruct (orb _ _); [|by exists added].
    exists (mkPos i j :: added). by rewrite <- app_assoc.
Qed.

Lemma set_autoXMarkers_frame g l :
  set_autoXMarkers g l = set_autoXMarkers g (autoXMarkers (set_autoXMarkers g l)).
Proof. reflexivity. Qed.

Lemma autoXMarkers_set g l : autoXMarkers (set_autoXMarkers g l) = l.
Proof. reflexivity. Qed.

Lemma autoFillXMarkers_unfold g beanRow beanCol regionIndex :
  autoFillXMarkers g beanRow beanCol regionIndex
  = set_autoXMarkers g
      (foldl (autoFillCell (regions g) (beansPlaced g) (xMarkers g)
                beanRow beanCol regionIndex) (autoXMarkers g) boardCells).
Proof. reflexivity. Qed.

Lemma autoFillXMarkers_frame g beanRow beanCol regionIndex :
  autoFillXMarkers g beanRow beanCol regionIndex
  = set_autoXMarkers g
      (autoXMarkers (autoFillXMarkers g beanRow beanCol regionIndex)).
Proof. rewrite autoFillXMarkers_unfold. apply set_autoXMarkers_frame. Qed.

Lemma autoFillXMarkers_fields g beanRow beanCol regionIndex :
  let g' := autoFillXMarkers g beanRow beanCol regionIndex in
  regions g' = regions g ∧ beansPlaced g' = beansPlaced g
  ∧ xMarkers g' = xMarkers g ∧ solution g' = solution g
  ∧ gameActive g' = gameActive g.
Proof. cbn zeta. rewrite autoFillXMarkers_frame. done. Qed.

Lemma autoFillXMarkers_elem g beanRow beanCol regionIndex p :
  p ∈ autoXMarkers (autoFillXMarkers g beanRow beanCol regionIndex) ↔
  p ∈ autoXMarkers g
  ∨ (onGrid p ∧ unmarked g p ∧ barred (regions g) beanRow beanCol regionIndex p).
Proof.
  rewrite autoFillXMarkers_unfold, autoXMarkers_set.
  rewrite autoFill_fold_elem, elem_of_boardCells. unfold onGrid, unmarked. tauto.
Qed.

Lemma autoFillXMarkers_NoDup g beanRow beanCol regionIndex :
  NoDup (autoXMarkers g) →
  NoDup (autoXMarkers (autoFillXMarkers g beanRow beanCol regionIndex)).
Proof.
  intros Hnd. rewrite autoFillXMarkers_unfold, autoXMarkers_set.
  by apply autoFill_fold_NoDup.
Qed.

Lemma unmarked_autoFillXMarkers g beanRow beanCol regionIndex p :
  unmarked (autoFillXMarkers g beanRow beanCol regionIndex) p ↔ unmarked g p.
Proof.
  destruct (autoFillXMarkers_fields g beanRow beanCol regionIndex)
    as (_ & Hb & Hx & _).
  unfold unmarked. by rewrite Hb, Hx.
Qed.

Lemma recalculate_fold bs :
  ∀ g,
    let g' := foldl (λ g bean, autoFillXMarkers g (bean_row bean) (bean_col bean)
                                 (bean_region bean)) g bs in
    g' = set_autoXMarkers g (autoXMarkers g')
    ∧ (NoDup (autoXMarkers g) → NoDup (autoXMarkers g'))
    ∧ ∀ p, p ∈ autoXMarkers g' ↔
           p ∈ autoXMarkers g
           ∨ (onGrid p ∧ unmarked g p ∧ ∃ b, b ∈ bs ∧ barredBy (regions g) b p).
Proof.
  induction bs as [|b bs IH]; intros g; cbn [foldl].
  - split; [by destruct g|]. split; [done|]. intros p. split; [by left|].
    intros [?|(_ & _ & b & Hb & _)]; [done|]. by apply elem_of_nil in Hb.
  - specialize (IH (autoFillXMarkers g (bean_row b) (bean_col b) (bean_region b))).
    cbn zeta in IH. destruct IH as (Hframe & Hnd & Helem).
    destruct (autoFillXMarkers_fields g (bean_row b) (bean_col b) (bean_region b))
      as (Hregions & _).
    split.
    { rewrite Hframe at 1. rewrite autoFillXMarkers_frame at 1. reflexivity. }
    split.
    { intros H. by apply Hnd, autoFillXMarkers_NoDup. }
    intros p. rewrite Helem, autoFillXMarkers_elem, unmarked_autoFillXMarkers, Hregions.
    split.
    + intros [[?|(? & ? & ?)]|(? & ? & b' & ? & ?)]; [by left| |].
      * right. split; [done|]. split; [done|]. exists b. split; [by left|done].
      * right. split; [done|]. split; [done|]. exists b'. split; [by right|done].
    + intros [?|(? & ? & b' & [->|?]%elem_of_cons & ?)]; [by left; left| |].
      * left. right. done.
      * right. split; [done|]. split; [done|]. by exists b'.
Qed.

(** X8: [autoFillXMarkers] adds an automatic X on exactly the cells of
    the board that carry no bean, no manual X and no automatic X yet and
    that lie in the row, the column or the region of the bean or touch
    it; it removes none and changes nothing else. *)
Theorem autoFillXMarkers_spec (g : Game) (beanRow beanCol : Z)
    (regionIndex : option Z) :
  let g' := autoFillXMarkers g beanRow beanCol regionIndex in
  g' = set_autoXMarkers g (autoXMarkers g')
  ∧ (∃ added, autoXMarkers g' = autoXMarkers g ++ added)
  ∧ ∀ p, p ∈ autoXMarkers g' ↔
         p ∈ autoXMarkers g
         ∨ (onGrid p ∧ unmarked g p
            ∧ barred (regions g) beanRow beanCol regionIndex p).
Proof.
  cbn zeta. split; [apply autoFillXMarkers_frame|].
  split; [|apply autoFillXMarkers_elem].
  rewrite autoFillXMarkers_unfold, autoXMarkers_set. apply autoFill_fold_prefix.
Qed.

(** X9: once the automatic markers are cleared, [recalculateAutoXMarkers]
    marks exactly the cells of the board without a bean and without a
    manual X that some placed bean bars, whatever the order of the
    beans; nothing else changes. *)
Theorem recalculateAutoXMarkers_spec (g : Game) :
  let g' := recalculateAutoXMarkers (clearAllAutoXMarkers g) in
  g' = set_autoXMarkers g (autoXMarkers g')
  ∧ NoDup (autoXMarkers g')
  ∧ ∀ p, p ∈ autoXMarkers g' ↔
         onGrid p ∧ unmarked g p
         ∧ ∃ b, b ∈ beansPlaced g ∧ barredBy (regions g) b p.
Proof.
  cbn zeta. unfold recalculateAutoXMarkers.
  change (beansPlaced (clearAllAutoXMarkers g)) with (beansPlaced g).
  destruct (recalculate_fold (beansPlaced g) (clearAllAutoXMarkers g))
    as (Hframe & Hnd & Helem).
  cbn zeta in Hframe, Hnd, Helem.
  split; [by rewrite Hframe|]. split; [apply Hnd, NoDup_nil_2|].
  intros p. rewrite Helem.
  change (autoXMarkers (clearAllAutoXMarkers g)) with (@nil Pos).
  change (regions (clearAllAutoXMarkers g)) with (regions g).
  change (unmarked (clearAllAutoXMarkers g) p) with (unmarked g p).
  split; [|by right]. intros [Hin|?]; [|done]. by apply elem_of_nil in Hin.
Qed.

(** *** What the clicks keep true of the board *)

Lemma elem_of_beanPos_delete k (beans : list Bean) p :
  p ∈ beanPos <$> delete k beans → p ∈ beanPos <$> beans.
Proof.
  intros (b & -> & Hb)%list_elem_of_fmap. apply list_elem_of_fmap_2.
  by apply list_elem_of_delete_inv in Hb.
Qed.

Lemma boardOK_autoFill g b :
  boardOK g → b ∈ beansPlaced g →
  boardOK (autoFillXMarkers g (bean_row b) (bean_col b) (bean_region b)).
Proof.
  intros Hok Hb.
  destruct (autoFillXMarkers_fields g (bean_row b) (bean_col b) (bean_region b))
    as (Hr & Hbs & Hx & _).
  split; rewrite ?Hr, ?Hbs, ?Hx.
  - exact (ok_beans g Hok).
  - exact (ok_count g Hok).
  - exact (ok_region g Hok).
  - exact (ok_x g Hok).
  - apply autoFillXMarkers_NoDup. exact (ok_autoX g Hok).
  - exact (ok_bean_x g Hok).
  - intros p Hp [Hin|(_ & [Hnb _] & _)]%autoFillXMarkers_elem; [|done].
    by apply (ok_bean_autoX g Hok p).
  - intros p Hp [Hin|(_ & [_ Hnx] & _)]%autoFillXMarkers_elem; [|done].
    by apply (ok_x_autoX g Hok p).
  - intros p [Hin|(Hon & _ & Hbar)]%autoFillXMarkers_elem.
    + by apply (ok_barred g Hok).
    + split; [done|]. by exists b.
Qed.

Lemma boardOK_recalculate_fold bs :
  ∀ g, boardOK g → (∀ b, b ∈ bs → b ∈ beansPlaced g) →
       boardOK (foldl (λ g bean, autoFillXMarkers g (bean_row bean) (bean_col bean)
                                   (bean_region bean)) g bs).
Proof.
  induction bs as [|b bs IH]; intros g Hok Hsub; cbn [foldl]; [done|].
  apply IH.
  - apply boardOK_autoFill; [done|]. apply Hsub. by left.
  - intros b' Hb'.
    destruct (autoFillXMarkers_fields g (bean_row b) (bean_col b) (bean_region b))
      as (_ & -> & _).
    apply Hsub. by right.
Qed.

Lemma boardOK_recalculate g : boardOK g → boardOK (recalculateAutoXMarkers g).
Proof. intros Hok. by apply boardOK_recalculate_fold. Qed.

Lemma boardOK_removeBean g k :
  boardOK g →
  boardOK (clearAllAutoXMarkers (set_beansPlaced g (delete k (beansPlaced g)))).
Proof.
  intros Hok.
  split; cbn [clearAllAutoXMarkers set_autoXMarkers set_beansPlaced regions
              beansPlaced xMarkers autoXMarkers].
  - rewrite list_fmap_delete. apply (sublist_NoDup _ (beanPos <$> beansPlaced g)).
    + exact (ok_beans g Hok).
    + apply sublist_delete.
  - pose proof (ok_count g Hok).
    pose proof (sublist_length _ _ (sublist_delete (beansPlaced g) k)). lia.
  - intros b Hb%list_elem_of_delete_inv. by apply (ok_region g Hok).
  - exact (ok_x g Hok).
  - apply NoDup_nil_2.
  - intros p Hp%elem_of_beanPos_delete. by apply (ok_bean_x g Hok).
  - intros p _. apply not_elem_of_nil.
  - intros p _. apply not_elem_of_nil.
  - intros p Hp. by apply elem_of_nil in Hp.
Qed.

Lemma boardOK_placeBean g r c :
  boardOK g →
  mkPos r c ∉ beanPos <$> beansPlaced g →
  mkPos r c ∉ xMarkers g →
  mkPos r c ∉ autoXMarkers g →
  Z.of_nat (length (beansPlaced g)) < gridSize →
  boardOK (set_beansPlaced g
             (beansPlaced g ++ [mkBean r c (regionAt (regions g) (cellIndex r c))])).
Proof.
  intros Hok Hnb Hnx Hna Hlen.
  split; cbn [set_beansPlaced regions beansPlaced xMarkers autoXMarkers].
  - rewrite fmap_app. apply NoDup_snoc. split; [exact (ok_beans g Hok)|done].
  - rewrite length_app. cbn [length]. lia.
  - intros b [Hb|Heq%list_elem_of_singleton]%elem_of_app;
      [by apply (ok_region g Hok)|by subst].
  - exact (ok_x g Hok).
  - exact (ok_autoX g Hok).
  - rewrite fmap_app. intros p [Hp|Heq%list_elem_of_singleton]%elem_of_app;
      [by apply (ok_bean_x g Hok)|by subst].
  - rewrite fmap_app. intros p [Hp|Heq%list_elem_of_singleton]%elem_of_app;
      [by apply (ok_bean_autoX g Hok)|by subst].
  - exact (ok_x_autoX g Hok).
  - intros p Hp. destruct (ok_barred g Hok p Hp) as (Hon & b & Hb & Hbar).
    split; [done|]. exists b. split; [|done]. apply elem_of_app. by left.
Qed.

Lemma boardOK_removeX g k :
  boardOK g → boardOK (set_xMarkers g (delete k (xMarkers g))).
Proof.
  intros Hok.
  split; cbn [set_xMarkers regions beansPlaced xMarkers autoXMarkers].
  - exact (ok_beans g Hok).
  - exact (ok_count g Hok).
  - exact (ok_region g Hok).
  - apply (sublist_NoDup _ (xMarkers g)); [exact (ok_x g Hok)|apply sublist_delete].
  - exact (ok_autoX g Hok).
  - intros p Hp Hin%list_elem_of_delete_inv. by apply (ok_bean_x g Hok p).
  - exact (ok_bean_autoX g Hok).
  - intros p Hp%list_elem_of_delete_inv. by apply (ok_x_autoX g Hok p).
  - exact (ok_barred g Hok).
Qed.

Lemma boardOK_placeX g r c :
  boardOK g →
  mkPos r c ∉ beanPos <$> beansPlaced g →
  mkPos r c ∉ xMarkers g →
  mkPos r c ∉ autoXMarkers g →
  boardOK (set_xMarkers g (xMarkers g ++ [mkPos r c])).
Proof.
  intros Hok Hnb Hnx Hna.
  split; cbn [set_xMarkers regions beansPlaced xMarkers autoXMarkers].
  - exact (ok_beans g Hok).
  - exact (ok_count g Hok).
  - exact (ok_region g Hok).
  - apply NoDup_snoc. split; [exact (ok_x g Hok)|done].
  - exact (ok_autoX g Hok).
  - intros p Hp [Hin|Heq%list_elem_of_singleton]%elem_of_app; [|by subst].
    by apply (ok_bean_x g Hok p).
  - exact (ok_bean_autoX g Hok).
  - intros p [Hp|Heq%list_elem_of_singleton]%elem_of_app;
      [by apply (ok_x_autoX g Hok p)|by subst].
  - exact (ok_barred g Hok).
Qed.

Lemma findIndex_absent_beanAt r c beans :
  findIndex (beanAt r c) beans = None ↔ mkPos r c ∉ beanPos <$> beans.
Proof.
  rewrite findIndex_None, <- existsb_beanAt. by destruct (existsb _ _).
Qed.

Lemma findIndex_absent_atCell r c xs :
  findIndex (atCell r c) xs = None ↔ mkPos r c ∉ xs.
Proof.
  rewrite findIndex_None, <- existsb_atCell. by destruct (existsb _ _).
Qed.

Lemma recalculateAutoXMarkers_frame g :
  recalculateAutoXMarkers g
  = set_autoXMarkers g (autoXMarkers (recalculateAutoXMarkers g)).
Proof. apply (recalculate_fold (beansPlaced g) g). Qed.

(** The five outcomes of a click on an active game, by the state of the
    cell. *)
Lemma handleCellClick_bean_remove chk r c g k :
  gameActive g = true →
  findIndex (beanAt r c) (beansPlaced g) = Some k →
  handleCellClick chk r c BeanClick g
  = (let g2 := clearAllAutoXMarkers (set_beansPlaced g (delete k (beansPlaced g))) in
     if chk then recalculateAutoXMarkers g2 else g2, None).
Proof. intros Hactive Hbean. unfold handleCellClick. by rewrite Hactive, Hbean. Qed.

Lemma handleCellClick_bean_place chk r c g :
  gameActive g = true →
  mkPos r c ∉ beanPos <$> beansPlaced g →
  mkPos r c ∉ xMarkers g →
  mkPos r c ∉ autoXMarkers g →
  Z.of_nat (length (beansPlaced g)) < gridSize →
  handleCellClick chk r c BeanClick g
  = (let regionIndex := regionAt (regions g) (cellIndex r c) in
     let g1 := set_beansPlaced g (beansPlaced g ++ [mkBean r c regionIndex]) in
     if chk then autoFillXMarkers g1 r c regionIndex else g1, None).
Proof.
  intros Hactive Hnb%findIndex_absent_beanAt Hnx%findIndex_absent_atCell
    Hna%findIndex_absent_atCell Hlen.
  unfold handleCellClick. rewrite Hactive, Hnb, Hnx, Hna. cbn [negb].
  rewrite !bool_decide_eq_false_2 by (by intros [? ?]). cbn [orb].
  by rewrite (proj2 (Z.leb_gt _ _) Hlen).
Qed.

Lemma handleCellClick_x_place chk r c g :
  gameActive g = true →
  mkPos r c ∉ beanPos <$> beansPlaced g →
  mkPos r c ∉ xMarkers g →
  mkPos r c ∉ autoXMarkers g →
  handleCellClick chk r c XClick g
  = (set_xMarkers g (xMarkers g ++ [mkPos r c]), None).
Proof.
  intros Hactive Hnb%findIndex_absent_beanAt Hnx%findIndex_absent_atCell
    Hna%findIndex_absent_atCell.
  unfold handleCellClick. by rewrite Hactive, Hnb, Hnx, Hna.
Qed.

Lemma handleCellClick_x_remove chk r c g k :
  gameActive g = true →
  mkPos r c ∉ beanPos <$> beansPlaced g →
  mkPos r c ∉ autoXMarkers g →
  findIndex (atCell r c) (xMarkers g) = Some k →
  handleCellClick chk r c XClick g
  = (set_xMarkers g (delete k (xMarkers g)), None).
Proof.
  intros Hactive Hnb%findIndex_absent_beanAt Hna%findIndex_absent_atCell Hx.
  unfold handleCellClick. by rewrite Hactive, Hnb, Hx, Hna.
Qed.

Lemma handleCellClick_inv chk r c t g :
  (handleCellClick chk r c t g).1 = g
  ∨ (∃ k, gameActive g = true
          ∧ findIndex (beanAt r c) (beansPlaced g) = Some k
          ∧ t = BeanClick)
  ∨ (gameActive g = true ∧ t = BeanClick
     ∧ (mkPos r c ∉ beanPos <$> beansPlaced g)
     ∧ (mkPos r c ∉ xMarkers g) ∧ (mkPos r c ∉ autoXMarkers g)
     ∧ Z.of_nat (length (beansPlaced g)) < gridSize)
  ∨ (∃ k, gameActive g = true ∧ t = XClick
          ∧ (mkPos r c ∉ beanPos <$> beansPlaced g)
          ∧ (mkPos r c ∉ autoXMarkers g)
          ∧ findIndex (atCell r c) (xMarkers g) = Some k)
  ∨ (gameActive g = true ∧ t = XClick
     ∧ (mkPos r c ∉ beanPos <$> beansPlaced g)
     ∧ (mkPos r c ∉ xMarkers g) ∧ (mkPos r c ∉ autoXMarkers g)).
Proof.
  destruct (gameActive g) eqn:Hactive.
  2:{ left. unfold handleCellClick. by rewrite Hactive. }
  destruct t.
  - destruct (findIndex (beanAt r c) (beansPlaced g)) as [k|] eqn:Hbean.
    { right. left. by exists k. }
    destruct (findIndex (atCell r c) (xMarkers g)) as [kx|] eqn:Hx.
    { left. unfold handleCellClick. rewrite Hactive, Hbean, Hx. cbn [negb].
      rewrite bool_decide_eq_true_2 by eauto. done. }
    destruct (findIndex (atCell r c) (autoXMarkers g)) as [ka|] eqn:Ha.
    { left. unfold handleCellClick. rewrite Hactive, Hbean, Hx, Ha. cbn [negb].
      rewrite (bool_decide_eq_true_2 (is_Some (Some ka))) by eauto.
      by rewrite orb_true_r. }
    destruct (decide (Z.of_nat (length (beansPlaced g)) < gridSize)) as [Hlen|Hlen].
    + right. right. left.
      apply findIndex_absent_beanAt in Hbean. apply findIndex_absent_atCell in Hx.
      apply findIndex_absent_atCell in Ha. done.
    + left. unfold handleCellClick. rewrite Hactive, Hbean, Hx, Ha. cbn [negb].
      rewrite !bool_decide_eq_false_2 by (by intros [? ?]). cbn [orb].
      by rewrite (proj2 (Z.leb_le _ _)) by lia.
  - destruct (findIndex (beanAt r c) (beansPlaced g)) as [k|] eqn:Hbean.
    { left. unfold handleCellClick. by rewrite Hactive, Hbean. }
    destruct (findIndex (atCell r c) (autoXMarkers g)) as [ka|] eqn:Ha.
    { left. unfold handleCellClick. by rewrite Hactive, Hbean, Ha. }
    apply findIndex_absent_beanAt in Hbean. apply findIndex_absent_atCell in Ha.
    destruct (findIndex (atCell r c) (xMarkers g)) as [kx|] eqn:Hx.
    + right. right. right. left. by exists kx.
    + right. right. right. right. apply findIndex_absent_atCell in Hx. done.
  - left. unfold handleCellClick. by rewrite Hactive.
Qed.

Lemma handleCellClick_boardOK chk r c t g :
  boardOK g → boardOK (handleCellClick chk r c t g).1.
Proof.
  intros Hok.
  destruct (handleCellClick_inv chk r c t g)
    as [->|[(k & Ha & Hk & ->)|[(Ha & -> & Hnb & Hnx & Hna & Hlen)
       |[(k & Ha & -> & Hnb & Hna & Hk)|(Ha & -> & Hnb & Hnx & Hna)]]]].
  - done.
  - rewrite (handleCellClick_bean_remove chk r c g k Ha Hk). cbn [fst].
    destruct chk.
    + apply boardOK_recalculate, boardOK_removeBean, Hok.
    + apply boardOK_removeBean, Hok.
  - rewrite (handleCellClick_bean_place chk r c g Ha Hnb Hnx Hna Hlen). cbn [fst].
    pose proof (boardOK_placeBean g r c Hok Hnb Hnx Hna Hlen) as Hok1.
    destruct chk; [|done].
    apply (boardOK_autoFill _ (mkBean r c (regionAt (regions g) (cellIndex r c))));
      [done|].
    apply elem_of_app. right. by apply list_elem_of_singleton.
  - rewrite (handleCellClick_x_remove chk r c g k Ha Hnb Hna Hk). cbn [fst].
    by apply boardOK_removeX.
  - rewrite (handleCellClick_x_place chk r c g Ha Hnb Hnx Hna). cbn [fst].
    by apply boardOK_placeX.
Qed.

Lemma handleCellClick_frame chk r c t g :
  regions (handleCellClick chk r c t g).1 = regions g
  ∧ solution (handleCellClick chk r c t g).1 = solution g
  ∧ gameActive (handleCellClick chk r c t g).1 = gameActive g.
Proof.
  destruct (handleCellClick_inv chk r c t g)
    as [->|[(k & Ha & Hk & ->)|[(Ha & -> & Hnb & Hnx & Hna & Hlen)
       |[(k & Ha & -> & Hnb & Hna & Hk)|(Ha & -> & Hnb & Hnx & Hna)]]]].
  - done.
  - rewrite (handleCellClick_bean_remove chk r c g k Ha Hk). cbn [fst].
    destruct chk; [|done]. by rewrite recalculateAutoXMarkers_frame.
  - rewrite (handleCellClick_bean_place chk r c g Ha Hnb Hnx Hna Hlen). cbn [fst].
    destruct chk; [|done]. by rewrite autoFillXMarkers_frame.
  - by rewrite (handleCellClick_x_remove chk r c g k Ha Hnb Hna Hk).
  - by rewrite (handleCellClick_x_place chk r c g Ha Hnb Hnx Hna).
Qed.

Lemma boardOK_clearBoard g : boardOK (clearBoard g).
Proof.
  split; cbn [clearBoard regions beansPlaced xMarkers autoXMarkers fmap list_fmap length];
    try apply NoDup_nil_2; try (intros p Hp; by apply elem_of_nil in Hp).
  unfold gridSize. lia.
Qed.

(** X10: every click keeps the board in order, whatever the cell, the
    button and the state of the auto-fill checkbox: no two beans in one
    cell and at most [gridSize] beans, each recorded with the region of
    its cell; no marker twice; no cell with two of bean, manual X and
    automatic X; every automatic X on the board and barred by a bean
    that is still placed.  The board [clearBoard] leaves is in order,
    and a click never touches [regions], [solution] or [gameActive]. *)
Theorem handleCellClick_invariant (autoFillChecked : bool) (r c : Z)
    (clickType : ClickType) (g : Game) :
  boardOK g →
  boardOK (handleCellClick autoFillChecked r c clickType g).1
  ∧ boardOK (clearBoard g)
  ∧ regions (handleCellClick autoFillChecked r c clickType g).1 = regions g
  ∧ solution (handleCellClick autoFillChecked r c clickType g).1 = solution g
  ∧ gameActive (handleCellClick autoFillChecked r c clickType g).1 = gameActive g.
Proof.
  intros Hok. split; [by apply handleCellClick_boardOK|].
  split; [apply boardOK_clearBoard|]. apply handleCellClick_frame.
Qed.

Lemma handleCellClick_invariant_witness :
  boardOK (handleCellClick true 0 1 BeanClick (clearBoard (uniqueGame []))).1.
Proof.
  apply (handleCellClick_invariant true 0 1 BeanClick (clearBoard (uniqueGame []))).
  apply boardOK_clearBoard.
Defined.

(** *** Automatic markers against the solutions of the puzzle *)

Lemma NoDup_fmap_eq {A B} (f : A → B) (l : list A) x y :
  NoDup (f <$> l) → x ∈ l → y ∈ l → f x = f y → x = y.
Proof.
  intros Hnd [i Hi]%list_elem_of_lookup [j Hj]%list_elem_of_lookup Heq.
  assert (i = j) as ->; [|congruence].
  apply (NoDup_lookup (f <$> l) i j (f x) Hnd).
  - by rewrite list_lookup_fmap, Hi.
  - by rewrite list_lookup_fmap, Hj, Heq.
Qed.

Lemma apart_elem l x y :
  apart l → x ∈ l → y ∈ l → x ≠ y →
  touching (row x) (col x) (row y) (col y) = false.
Proof.
  intros Ha [i Hi]%list_elem_of_lookup [j Hj]%list_elem_of_lookup Hne.
  destruct (Nat.lt_total i j) as [Hlt|[->|Hlt]].
  - by apply (Ha i j).
  - congruence.
  - rewrite touching_sym. by apply (Ha j i).
Qed.

Lemma autoX_sound g sol :
  boardOK g → regionMap (regions g) →
  satisfiesAll (regions g) sol = true →
  (∀ b, b ∈ beansPlaced g → beanPos b ∈ sol) →
  ∀ p, p ∈ autoXMarkers g → p ∉ sol.
Proof.
  intros Hok Hmap Hsat Hbeans p Hp Hin.
  destruct (satisfiesAll_rowPlacements _ _ Hsat) as (sol' & Hrow & Hperm & Hsat').
  apply (satisfiesAll_legal _ _ Hmap Hrow) in Hsat' as (Hc & Hr & Ha).
  apply rowPlacements_shape in Hrow as (_ & Hrows & _).
  destruct (ok_barred g Hok p Hp) as (_ & b & Hb & Hbar).
  assert (Hq : beanPos b ∈ sol') by (rewrite Hperm; auto).
  assert (Hp' : p ∈ sol') by (by rewrite Hperm).
  assert (Hne : p ≠ beanPos b).
  { intros ->. apply (ok_bean_autoX g Hok (beanPos b)); [|done].
    by apply list_elem_of_fmap_2. }
  destruct Hbar as [Hrw|[Hcl|[Ht|[_ Hrg]]]].
  - apply Hne, (NoDup_fmap_eq row sol'); [|done|done|done].
    rewrite Hrows. apply NoDup_seqZ.
  - by apply Hne, (NoDup_fmap_eq col sol').
  - pose proof (apart_elem sol' p (beanPos b) Ha Hp' Hq Hne) as Hf.
    cbn [beanPos row col] in Hf. congruence.
  - apply Hne, (NoDup_fmap_eq (regionOf (regions g)) sol'); [done|done|done|].
    rewrite Hrg. by apply (ok_region g Hok).
Qed.

(** X11: the automatic markers never rule out a solution the player can
    still reach.  On a board in order over a region map, if the beans
    placed all belong to a placement that satisfies the four
    constraints, no automatic X lies on a cell of that placement. *)
Theorem autoXMarkers_sound (g : Game) (sol : list Pos) :
  boardOK g → regionMap (regions g) →
  satisfiesAll (regions g) sol = true →
  (∀ b, b ∈ beansPlaced g → beanPos b ∈ sol) →
  ∀ p, p ∈ autoXMarkers g → p ∉ sol.
Proof. apply autoX_sound. Qed.

Lemma uniqueRegions_regionMap : regionMap uniqueRegions.
Proof.
  split; [reflexivity|]. apply Forall_forall.
  refine (bool_decide_unpack _ _). vm_compute. exact I.
Qed.

Lemma autoXMarkers_sound_witness :
  Forall (λ p, p ∉ uniqueSolution)
    (autoXMarkers (handleCellClick true 0 1 BeanClick (clearBoard (uniqueGame []))).1).
Proof.
  apply Forall_forall.
  apply (autoXMarkers_sound
           (handleCellClick true 0 1 BeanClick (clearBoard (uniqueGame []))).1
           uniqueSolution).
  - apply handleCellClick_boardOK, boardOK_clearBoard.
  - rewrite (proj1 (handleCellClick_frame _ _ _ _ _)). apply uniqueRegions_regionMap.
  - rewrite (proj1 (handleCellClick_frame _ _ _ _ _)). vm_compute. reflexivity.
  - rewrite (handleCellClick_bean_place true 0 1 (clearBoard (uniqueGame [])));
      [|reflexivity|apply not_elem_of_nil|apply not_elem_of_nil|apply not_elem_of_nil
       |vm_compute; reflexivity].
    cbn [fst]. rewrite (proj1 (proj2 (autoFillXMarkers_fields _ _ _ _))).
    intros b Hb%list_elem_of_singleton. subst b. vm_compute. by left.
Defined.

(** X12: placing a bean with the auto-fill box checked leaves no empty
    cell that the new bean bars: every cell of the board in its row, its
    column or its region, or touching it, then carries a bean, a manual
    X or an automatic X. *)
Theorem handleCellClick_place_marks (r c : Z) (g : Game) :
  gameActive g = true →
  mkPos r c ∉ beanPos <$> beansPlaced g →
  mkPos r c ∉ xMarkers g →
  mkPos r c ∉ autoXMarkers g →
  Z.of_nat (length (beansPlaced g)) < gridSize →
  let regionIndex := regionAt (regions g) (cellIndex r c) in
  let g' := (handleCellClick true r c BeanClick g).1 in
  beansPlaced g' = beansPlaced g ++ [mkBean r c regionIndex]
  ∧ xMarkers g' = xMarkers g
  ∧ ∀ p, onGrid p → barred (regions g) r c regionIndex p →
         p ∈ beanPos <$> beansPlaced g' ∨ p ∈ xMarkers g' ∨ p ∈ autoXMarkers g'.
Proof.
  intros Hactive Hnb Hnx Hna Hlen. cbn zeta.
  rewrite (handleCellClick_bean_place true r c g Hactive Hnb Hnx Hna Hlen).
  cbn [fst].
  set (g1 := set_beansPlaced g
               (beansPlaced g ++ [mkBean r c (regionAt (regions g) (cellIndex r c))])).
  destruct (autoFillXMarkers_fields g1 r c (regionAt (regions g) (cellIndex r c)))
    as (_ & Hbs & Hx & _).
  rewrite Hbs, Hx. split; [done|]. split; [done|].
  intros p Hon Hbar.
  destruct (decide (p ∈ beanPos <$> beansPlaced g1)) as [|Hpb]; [by left|].
  destruct (decide (p ∈ xMarkers g1)) as [|Hpx]; [by right; left|].
  right. right. apply autoFillXMarkers_elem. right. done.
Qed.

Lemma handleCellClick_place_marks_witness :
  let g' := (handleCellClick true 0 1 BeanClick (uniqueGame [])).1 in
  beansPlaced g' = [mkBean 0 1 (Some 0)]
  ∧ xMarkers g' = []
  ∧ ∀ p, onGrid p → barred uniqueRegions 0 1 (Some 0) p →
         p ∈ beanPos <$> beansPlaced g' ∨ p ∈ xMarkers g' ∨ p ∈ autoXMarkers g'.
Proof.
  apply (handleCellClick_place_marks 0 1 (uniqueGame []));
    [reflexivity|apply not_elem_of_nil|apply not_elem_of_nil|apply not_elem_of_nil
    |vm_compute; reflexivity].
Defined.

(** *** Clicking a cell twice *)

Lemma delete_snoc {A} (l : list A) x : delete (length l) (l ++ [x]) = l.
Proof. by rewrite delete_middle, app_nil_r. Qed.

Lemma clearAllAutoXMarkers_set g l bs :
  clearAllAutoXMarkers (set_beansPlaced (set_autoXMarkers g l) bs)
  = clearAllAutoXMarkers (set_beansPlaced g bs).
Proof. reflexivity. Qed.

Lemma clearAllAutoXMarkers_beans g bs :
  clearAllAutoXMarkers (set_beansPlaced (set_beansPlaced g bs) (beansPlaced g))
  = clearAllAutoXMarkers g.
Proof. reflexivity. Qed.

Lemma set_xMarkers_twice g xs : set_xMarkers (set_xMarkers g xs) (xMarkers g) = g.
Proof. by destruct g. Qed.

(** X13: a left click on an empty cell followed by a left click on the
    bean it placed does not bring the board back in general: the beans
    and the manual markers are as before, but the automatic markers are
    those of a fresh recalculation if the box is checked at the second
    click, and none otherwise. *)
Theorem handleCellClick_bean_twice (chk1 chk2 : bool) (r c : Z) (g : Game) :
  gameActive g = true →
  mkPos r c ∉ beanPos <$> beansPlaced g →
  mkPos r c ∉ xMarkers g →
  mkPos r c ∉ autoXMarkers g →
  Z.of_nat (length (beansPlaced g)) < gridSize →
  handleCellClick chk2 r c BeanClick (handleCellClick chk1 r c BeanClick g).1
  = (if chk2 then recalculateAutoXMarkers (clearAllAutoXMarkers g)
     else clearAllAutoXMarkers g, None).
Proof.
  intros Hactive Hnb Hnx Hna Hlen.
  set (b := mkBean r c (regionAt (regions g) (cellIndex r c))).
  assert (Hfind : findIndex (beanAt r c) (beansPlaced g ++ [b])
                  = Some (length (beansPlaced g))).
  { apply findIndex_snoc; [by apply findIndex_absent_beanAt|].
    by apply beanAt_spec. }
  rewrite (handleCellClick_bean_place chk1 r c g Hactive Hnb Hnx Hna Hlen).
  cbn [fst]. fold b. destruct chk1.
  - rewrite autoFillXMarkers_frame.
    rewrite (handleCellClick_bean_remove chk2 r c _ (length (beansPlaced g)));
      [|done|done].
    cbn zeta.
    change (beansPlaced (set_autoXMarkers _ _)) with (beansPlaced g ++ [b]).
    by rewrite delete_snoc, clearAllAutoXMarkers_set, clearAllAutoXMarkers_beans.
  - rewrite (handleCellClick_bean_remove chk2 r c _ (length (beansPlaced g)));
      [|done|done].
    cbn zeta.
    change (beansPlaced (set_beansPlaced _ _)) with (beansPlaced g ++ [b]).
    by rewrite delete_snoc, clearAllAutoXMarkers_beans.
Qed.

Lemma handleCellClick_bean_twice_witness :
  handleCellClick false 0 1 BeanClick
    (handleCellClick true 0 1 BeanClick (uniqueGame [])).1
  = (clearAllAutoXMarkers (uniqueGame []), None).
Proof.
  apply (handleCellClick_bean_twice true false 0 1 (uniqueGame []));
    [reflexivity|apply not_elem_of_nil|apply not_elem_of_nil|apply not_elem_of_nil
    |vm_compute; reflexivity].
Defined.

(** X14: a right click on an empty cell followed by a right click on the
    X it placed brings every game variable back to what it was, whatever
    the state of the auto-fill box. *)
Theorem handleCellClick_x_twice (chk1 chk2 : bool) (r c : Z) (g : Game) :
  gameActive g = true →
  mkPos r c ∉ beanPos <$> beansPlaced g →
  mkPos r c ∉ xMarkers g →
  mkPos r c ∉ autoXMarkers g →
  handleCellClick chk2 r c XClick (handleCellClick chk1 r c XClick g).1
  = (g, None).
Proof.
  intros Hactive Hnb Hnx Hna.
  rewrite (handleCellClick_x_place chk1 r c g Hactive Hnb Hnx Hna). cbn [fst].
  rewrite (handleCellClick_x_remove chk2 r c _ (length (xMarkers g)));
    [|done|done|done|].
  - change (xMarkers (set_xMarkers g (xMarkers g ++ [mkPos r c])))
      with (xMarkers g ++ [mkPos r c]).
    by rewrite delete_snoc, set_xMarkers_twice.
  - apply findIndex_snoc; [by apply findIndex_absent_atCell|by apply atCell_spec].
Qed.

Lemma handleCellClick_x_twice_witness :
  handleCellClick true 3 3 XClick
    (handleCellClick false 3 3 XClick (uniqueGame [mkPos 0 1])).1
  = (uniqueGame [mkPos 0 1], None).
Proof.
  apply (handleCellClick_x_twice false true 3 3 (uniqueGame [mkPos 0 1]));
    [reflexivity| |apply not_elem_of_nil|apply not_elem_of_nil].
  intros Hin%list_elem_of_singleton. discriminate Hin.
Defined.

(** ** The growth loop keeps every region connected *)

Lemma labelled_setRegion_other rs j v k k' x :
  regionAt rs j = Some v → v ≠ k' → k ≠ k' →
  (labelled (setRegion rs j k) k' x ↔ labelled rs k' x).
Proof.
  intros Hj Hv Hk. unfold labelled.
  destruct (decide (x = j)) as [->|Hne].
  - rewrite regionAt_setRegion_eq by (by eapply regionAt_Some_onBoard).
    rewrite Hj. split; intros [_ [= ?]]; done.
  - by rewrite regionAt_setRegion_ne.
Qed.

Lemma regionConnected_setRegion_other rs j v k k' :
  regionAt rs j = Some v → v ≠ k' → k ≠ k' →
  regionConnected rs k' → regionConnected (setRegion rs j k) k'.
Proof.
  intros Hj Hv Hk Hconn x y Hx Hy.
  apply (labelled_setRegion_other rs j v k k' x Hj Hv Hk) in Hx.
  apply (labelled_setRegion_other rs j v k k' y Hj Hv Hk) in Hy.
  apply (rtc_subrel (regionStep rs k')); [|by apply Hconn].
  intros a b (Ha & Hb & Hadj). split; [|split; [|done]].
  - by apply (labelled_setRegion_other rs j v k k' a Hj Hv Hk).
  - by apply (labelled_setRegion_other rs j v k k' b Hj Hv Hk).
Qed.

Lemma labelled_setRegion_same rs j v k x :
  regionAt rs j = Some v →
  (labelled (setRegion rs j k) k x ↔ labelled rs k x ∨ (x = j ∧ onBoard j)).
Proof.
  intros Hj. unfold labelled.
  destruct (decide (x = j)) as [->|Hne].
  - rewrite regionAt_setRegion_eq by (by eapply regionAt_Some_onBoard). tauto.
  - rewrite regionAt_setRegion_ne by done. tauto.
Qed.

Lemma regionConnected_setRegion_grow rs i j v k :
  regionAt rs j = Some v → onBoard j →
  labelled rs k i → adjacent4 i j →
  regionConnected rs k → regionConnected (setRegion rs j k) k.
Proof.
  intros Hj Hon Hi Hadj Hconn.
  assert (Hmono : ∀ a b, regionStep rs k a b → regionStep (setRegion rs j k) k a b).
  { intros a b (Ha & Hb & Hab). split; [|split; [|done]].
    - apply (labelled_setRegion_same rs j v k a Hj). by left.
    - apply (labelled_setRegion_same rs j v k b Hj). by left. }
  assert (Hlift : ∀ a b, labelled rs k a → labelled rs k b →
                         rtc (regionStep (setRegion rs j k) k) a b).
  { intros a b Ha Hb. apply (rtc_subrel (regionStep rs k)); [done|by apply Hconn]. }
  assert (Hij : regionStep (setRegion rs j k) k i j).
  { split; [|split; [|done]].
    - apply (labelled_setRegion_same rs j v k i Hj). by left.
    - apply (labelled_setRegion_same rs j v k j Hj). by right. }
  intros x y Hx Hy.
  apply (labelled_setRegion_same rs j v k x Hj) in Hx.
  apply (labelled_setRegion_same rs j v k y Hj) in Hy.
  destruct Hx as [Hx|[-> _]], Hy as [Hy|[-> _]].
  - by apply Hlift.
  - apply rtc_r with i; [by apply Hlift|done].
  - apply rtc_l with i; [by apply regionStep_sym|by apply Hlift].
  - done.
Qed.

Lemma onGrid_cellOf p : onGrid p → onBoard (cellOf p).
Proof. intros [Hr Hc]. by apply onBoard_cellIndex. Qed.

Lemma cellOf_inj p q : onGrid p → onGrid q → cellOf p = cellOf q → p = q.
Proof.
  intros [Hpr Hpc] [Hqr Hqc] Heq. destruct p as [pr pc], q as [qr qc].
  unfold cellOf, cellIndex, gridSize in *. cbn [row col] in *.
  f_equal; lia.
Qed.

(** A claim of [claimFirst] for region [k] from the cell [current] of
    that region keeps the queues in their regions and the regions
    connected. *)
Lemma claimFirst_conn (k : nat) ns st current :
  growthConn st → onGrid current →
  regionAt (g_regions st) (cellOf current) = Some (Z.of_nat k) →
  (∀ n, n ∈ ns → n ∈ neighbors4 (row current) (col current)) →
  growthConn (claimFirst k ns st).
Proof.
  intros [Hq Hc] Hon Hcur Hns.
  destruct (claimFirst_spec k ns st) as [->|(n & Hn & Hb & Hfree & ->)];
    [by constructor|].
  apply outOfBounds_false in Hb.
  assert (Hnon : onBoard (cellOf n)) by (by apply onGrid_cellOf).
  constructor; cbn [g_regions queues].
  - intros j q p Hj Hp. destruct (decide (k = j)) as [<-|Hne].
    + rewrite list_lookup_alter_eq in Hj.
      destruct (queues st !! k) as [q0|] eqn:Hq0; [|done].
      injection Hj as <-. apply elem_of_app in Hp as [Hp|Hp%list_elem_of_singleton].
      * destruct (Hq k q0 p Hq0 Hp) as [Hpon Hpr]. split; [done|].
        rewrite regionAt_setRegion_ne; [done|]. intros Heq. rewrite Heq in Hfree.
        rewrite Hfree in Hpr. injection Hpr. lia.
      * subst p. split; [done|]. apply regionAt_setRegion_eq.
        by eapply regionAt_Some_onBoard.
    + rewrite list_lookup_alter_ne in Hj by done.
      destruct (Hq j q p Hj Hp) as [Hpon Hpr]. split; [done|].
      rewrite regionAt_setRegion_ne; [done|]. intros Heq. rewrite Heq in Hfree.
      rewrite Hfree in Hpr. injection Hpr. lia.
  - intros k' Hk'. destruct (decide (k' = Z.of_nat k)) as [->|Hne].
    + apply (regionConnected_setRegion_grow _ (cellOf current) _ (-1));
        [done|done| | |by apply Hc].
      * split; [by apply onGrid_cellOf|done].
      * destruct Hon as [Hr Hcl].
        apply (adjacent4_neighbors4 _ _ _ Hr Hcl Hnon).
        exists n. split; [by apply Hns|]. split; [by apply outOfBounds_false|done].
    + apply (regionConnected_setRegion_other _ _ (-1)); [done|lia|done|by apply Hc].
Qed.

Lemma growTurn_conn rnd (k : nat) st cur :
  growthConn st → growthConn (growTurn rnd k st cur).1.
Proof.
  intros Hconn. rewrite growTurn_unfold.
  destruct (queues st !! k) as [[|current rest]|] eqn:Hq; [done| |done].
  cbn zeta.
  pose proof (shuffleArray_elem rnd (neighbors4 (row current) (col current)) cur)
    as Hns.
  destruct (shuffleArray rnd _ cur) as [ns cur1]. cbn [fst] in *.
  destruct (gc_queues st Hconn k _ current Hq) as [Hon Hcur]; [by left|].
  apply (claimFirst_conn k ns _ current); [|done|done|done].
  constructor; cbn [g_regions queues]; [|by apply Hconn].
  intros j q p Hj Hp. destruct (decide (k = j)) as [<-|Hne].
  - rewrite list_lookup_insert_eq in Hj by (by eapply lookup_lt_Some).
    injection Hj as <-. apply (gc_queues st Hconn k _ p Hq). by right.
  - rewrite list_lookup_insert_ne in Hj by done. by apply (gc_queues st Hconn j q).
Qed.

Lemma growTurns_conn rnd ks :
  ∀ st cur,
    growthConn st →
    growthConn (foldl (fun acc k => growTurn rnd k acc.1 acc.2) (st, cur) ks).1.
Proof.
  induction ks as [|k ks IH]; intros st cur Hconn; cbn [foldl]; [done|].
  cbn [fst snd].
  pose proof (growTurn_conn rnd k st cur Hconn) as Hconn1.
  destruct (growTurn rnd k st cur) as [st1 cur1]. by apply IH.
Qed.

Lemma growthConn_flag st b :
  growthConn st →
  growthConn (mkGrowth (g_regions st) (queues st) (unassignedCount st) b).
Proof. intros [? ?]. by constructor. Qed.

Lemma growRound_conn rnd st cur :
  growthConn st → growthConn (growRound rnd st cur).1.
Proof. intros Hconn. rewrite growRound_unfold. by apply growTurns_conn. Qed.

Lemma growLoop_conn rnd fuel :
  ∀ st cur e cur',
    growthConn st →
    growLoop rnd fuel st cur = Some (e, cur') →
    growthConn (exitState e).
Proof.
  induction fuel as [|fuel IH]; intros st cur e cur' Hconn Hloop.
  - cbn [growLoop] in Hloop.
    destruct (unassignedCount st <=? 0); [|done]. by injection Hloop as <- <-.
  - rewrite growLoop_unfold in Hloop.
    destruct (unassignedCount st <=? 0).
    { by injection Hloop as <- <-. }
    cbn zeta in Hloop.
    pose proof (growRound_conn rnd _ cur (growthConn_flag st false Hconn)) as Hconn1.
    destruct (growRound rnd _ cur) as [st1 cur1]. cbn [fst] in Hconn1.
    destruct (addedThisRound st1).
    + exact (IH st1 cur1 e cur' Hconn1 Hloop).
    + by injection Hloop as <- <-.
Qed.

Lemma seedQueues_elem sol :
  ∀ (k : nat) qs (j : nat) q p,
    seedQueues k sol qs !! j = Some q → p ∈ q →
    (∃ q0, qs !! j = Some q0 ∧ p ∈ q0)
    ∨ ∃ i : nat, sol !! i = Some p ∧ j = (k + i)%nat.
Proof.
  induction sol as [|bean sol IH]; intros k qs j q p Hj Hp; cbn [seedQueues] in Hj.
  - left. by exists q.
  - destruct (IH _ _ _ _ _ Hj Hp) as [(q0 & Hq0 & Hp0)|(i & Hi & ->)].
    + destruct (decide (k = j)) as [<-|Hne].
      * rewrite list_lookup_alter_eq in Hq0.
        destruct (qs !! k) as [q1|] eqn:Hq1; [|done]. injection Hq0 as <-.
        apply elem_of_app in Hp0 as [Hp0|Hp0%list_elem_of_singleton].
        -- left. by exists q1.
        -- right. exists 0%nat. split; [|lia]. subst p. by destruct bean.
      * rewrite list_lookup_alter_ne in Hq0 by done. left. by exists q0.
    + right. exists (S i). split; [done|lia].
Qed.

Lemma initialGrowth_labelled sol k x :
  solutionOnBoard sol → k ≠ -1 →
  labelled (g_regions (initialGrowth sol)) k x →
  ∃ (i : nat) p, sol !! i = Some p ∧ x = cellOf p ∧ k = Z.of_nat i.
Proof.
  intros Hsol Hk [Hx Hrx]. pose proof Hsol as (Hlen & Hon & Hnodup).
  set (blank := replicate (Z.to_nat (gridSize * gridSize)) (-1)) in *.
  assert (Hfree : ∀ p, p ∈ sol → regionAt blank (cellOf p) = Some (-1)).
  { intros p Hp. pose proof (solutionOnBoard_cell sol p Hsol Hp) as [H0 H1].
    rewrite regionAt_lookup by done. apply lookup_replicate_2.
    unfold gridSize in *. lia. }
  destruct (seedRegions_spec sol 0 blank Hnodup Hfree) as (_ & Hseed & Hother & _).
  cbn [initialGrowth g_regions] in Hrx. fold blank in Hrx.
  destruct (decide (x ∈ cellOf <$> sol)) as [Hin|Hout].
  - apply list_elem_of_fmap in Hin as (p & -> & [i Hi]%list_elem_of_lookup).
    exists i, p. split; [done|]. split; [done|].
    rewrite (Hseed i p Hi) in Hrx. injection Hrx as <-. f_equal.
  - rewrite (Hother x Hout) in Hrx. destruct Hx as [Hx0 Hx1].
    rewrite regionAt_lookup in Hrx by done.
    apply lookup_replicate_1 in Hrx as [Heq _]. congruence.
Qed.

Lemma initialGrowth_conn sol :
  solutionOnBoard sol → growthConn (initialGrowth sol).
Proof.
  intros Hsol. pose proof (initialGrowth_inv sol Hsol) as Hinv.
  pose proof Hsol as (Hlen & Hon & Hnodup).
  constructor.
  - intros k q p Hq Hp. cbn [initialGrowth queues] in Hq.
    destruct (seedQueues_elem sol 0 _ k q p Hq Hp) as [(q0 & Hq0 & Hp0)|(i & Hi & ->)].
    + apply lookup_replicate_1 in Hq0 as [-> _]. by apply elem_of_nil in Hp0.
    + split.
      * apply Hon. apply list_elem_of_lookup. eauto.
      * by apply (gi_seeded sol _ Hinv).
  - intros k Hk x y Hx Hy.
    destruct (initialGrowth_labelled sol k x Hsol Hk Hx) as (i & p & Hi & -> & ->).
    destruct (initialGrowth_labelled sol _ y Hsol Hk Hy) as (j & q & Hj & -> & Heq).
    assert (i = j) as -> by lia. assert (p = q) as -> by congruence. done.
Qed.

Lemma allConnected_true rs ids :
  (∀ r, r ∈ ids → regionConnected rs r) → allConnected rs ids = Some true.
Proof.
  intros Hall. destruct (allConnected_spec rs ids) as ([|] & -> & Hiff); [done|].
  by discriminate (proj2 Hiff Hall).
Qed.

Lemma growRegions_unfold rnd sol cur :
  growRegions rnd sol cur
  = '(e, cur') ← growLoop rnd growFuel (initialGrowth sol) cur;
    Some (g_regions (finishGrowth e), cur').
Proof. reflexivity. Qed.

(** X15: the growth loop never splits a region.  However the loop of
    [generateRegionsFromSolution] is left, every region
    [0 .. gridSize - 1] of the array it holds at that point is
    4-connected; so when it is left with the board full, the
    connectivity check passes at once and the attempt is reported as
    verified.  A region that fails the check was split by the stall
    fill. *)
Theorem growLoop_connected (rnd : nat → nat) (g : Game) (cur cur' : nat)
    (e : LoopExit) :
  solutionOnBoard (solution g) →
  growLoop rnd growFuel (initialGrowth (solution g)) cur = Some (e, cur') →
  (∀ r, 0 ≤ r < gridSize → regionConnected (g_regions (exitState e)) r)
  ∧ ∀ (st : Growth) (budget : nat),
      e = BoardFull st →
      regenerate rnd (S budget) g cur
      = Some (set_regions g (g_regions st), cur', AllRegionsVerified).
Proof.
  intros Hsol Hloop.
  pose proof (growLoop_conn rnd growFuel _ cur e cur'
                (initialGrowth_conn _ Hsol) Hloop) as Hconn.
  split.
  - intros r Hr. apply (gc_connected _ Hconn). lia.
  - intros st budget ->. rewrite regenerate_S, growRegions_unfold, Hloop.
    cbn [mbind option_bind finishGrowth exitState] in *.
    rewrite allConnected_true; [done|].
    intros r Hr%elem_of_seqZ. apply (gc_connected _ Hconn). lia.
Qed.

Lemma growLoop_connected_witness :
  match growLoop (constantDraws 0) growFuel (initialGrowth generateFallbackSolution) 0
  with
  | Some (e, _) =>
      Forall (λ r, regionConnected (g_regions (exitState e)) r) (seqZ 0 gridSize)
  | None => False
  end.
Proof.
  destruct (growLoop (constantDraws 0) growFuel
              (initialGrowth generateFallbackSolution) 0) as [[e cur']|] eqn:Hloop.
  - apply Forall_forall. intros r Hr%elem_of_seqZ.
    apply (growLoop_connected (constantDraws 0) sampleGame 0 cur' e
             generateFallbackSolution_onBoard Hloop). lia.
  - vm_compute in Hloop. discriminate Hloop.
Defined.

(** ** The stall fill's choice of a region *)

Lemma firstAssigned_cons rs r c dr dc rest :
  firstAssigned rs r c ((dr, dc) :: rest)
  = if (0 <=? r + dr) && (r + dr <? gridSize) && (0 <=? c + dc) && (c + dc <? gridSize)
    then match regionAt rs (cellIndex (r + dr) (c + dc)) with
         | Some v => if decide (v = -1) then firstAssigned rs r c rest else v
         | None => firstAssigned rs r c rest
         end
    else firstAssigned rs r c rest.
Proof. reflexivity. Qed.

(** The scan stops at the first offset that leads to an assigned cell of
    the board. *)
Lemma firstAssigned_split rs r c offsets :
  ((∀ dr dc v, (dr, dc) ∈ offsets → ¬ assignedAt rs (r + dr) (c + dc) v)
   ∧ firstAssigned rs r c offsets = 0)
  ∨ ∃ before dr dc after,
      offsets = before ++ (dr, dc) :: after
      ∧ (∀ dr' dc' v, (dr', dc') ∈ before → ¬ assignedAt rs (r + dr') (c + dc') v)
      ∧ assignedAt rs (r + dr) (c + dc) (firstAssigned rs r c offsets).
Proof.
  induction offsets as [|[dr dc] rest IH].
  - left. split; [|done]. intros dr dc v Hin. by apply elem_of_nil in Hin.
  - rewrite firstAssigned_cons.
    assert (Hskip :
      (∀ v, ¬ assignedAt rs (r + dr) (c + dc) v) →
      ((∀ dr0 dc0 v, (dr0, dc0) ∈ (dr, dc) :: rest →
          ¬ assignedAt rs (r + dr0) (c + dc0) v)
       ∧ firstAssigned rs r c rest = 0)
      ∨ ∃ before dr0 dc0 after,
          (dr, dc) :: rest = before ++ (dr0, dc0) :: after
          ∧ (∀ dr' dc' v, (dr', dc') ∈ before →
               ¬ assignedAt rs (r + dr') (c + dc') v)
          ∧ assignedAt rs (r + dr0) (c + dc0) (firstAssigned rs r c rest)).
    { intros Hno. destruct IH as [[Hnone Hzero]|(before & dr0 & dc0 & after & -> & Hb & Hhit)].
      - left. split; [|done].
        intros dr0 dc0 v [[= -> ->]|Hin]%elem_of_cons; [apply Hno|by apply Hnone].
      - right. exists ((dr, dc) :: before), dr0, dc0, after. split; [done|].
        split; [|done].
        intros dr' dc' v [[= -> ->]|Hin]%elem_of_cons; [apply Hno|by apply Hb]. }
    destruct ((0 <=? r + dr) && (r + dr <? gridSize) && (0 <=? c + dc)
              && (c + dc <? gridSize)) eqn:Hin.
    + apply andb_true_iff in Hin as [[[H1 H2]%andb_true_iff H3]%andb_true_iff H4].
      apply Z.leb_le in H1, H3. apply Z.ltb_lt in H2, H4.
      destruct (regionAt rs (cellIndex (r + dr) (c + dc))) as [v|] eqn:Hv.
      * destruct (decide (v = -1)) as [->|Hne].
        -- apply Hskip. intros v (_ & _ & Hv' & Hne). congruence.
        -- right. exists [], dr, dc, rest. split; [done|]. split.
           ++ intros dr' dc' v' Hin. by apply elem_of_nil in Hin.
           ++ split; [lia|]. split; [lia|]. done.
      * apply Hskip. intros v (_ & _ & Hv' & _). congruence.
    + apply Hskip. intros v (H1 & H2 & _).
      apply andb_false_iff in Hin as [[[H|H]%andb_false_iff|H]%andb_false_iff|H];
        first [apply Z.leb_gt in H | apply Z.ltb_ge in H]; lia.
Qed.

Lemma elem_of_square d dr dc :
  (dr, dc) ∈ square d ↔ - d ≤ dr ≤ d ∧ - d ≤ dc ≤ d.
Proof.
  unfold square. rewrite list_elem_of_bind. split.
  - intros (dr' & (dc' & Heq & Hdc%elem_of_seqZ)%list_elem_of_bind & Hdr%elem_of_seqZ).
    apply list_elem_of_singleton in Heq as [= -> ->]. lia.
  - intros [Hdr Hdc]. exists dr. split; [|apply elem_of_seqZ; lia].
    apply list_elem_of_bind. exists dc. split; [by apply list_elem_of_singleton|].
    apply elem_of_seqZ. lia.
Qed.

Lemma ringOffsets_unfold : ringOffsets = seqZ 1 (gridSize - 1) ≫= square.
Proof. reflexivity. Qed.

Lemma ringOffsets_split m :
  0 ≤ m ≤ gridSize - 1 →
  ringOffsets
  = (seqZ 1 m ≫= square) ++ (seqZ (1 + m) (gridSize - 1 - m) ≫= square).
Proof.
  intros Hm. rewrite ringOffsets_unfold, <- bind_app, <- seqZ_app by lia.
  do 2 f_equal. lia.
Qed.

Lemma elem_of_rings a n dr dc :
  (dr, dc) ∈ seqZ a n ≫= square ↔
  ∃ d, a ≤ d < a + n ∧ - d ≤ dr ≤ d ∧ - d ≤ dc ≤ d.
Proof.
  rewrite list_elem_of_bind. split.
  - intros (d & Hin%elem_of_square & Hd%elem_of_seqZ). by exists d.
  - intros (d & Hd & Hin). exists d. split; [by apply elem_of_square|].
    by apply elem_of_seqZ.
Qed.

Lemma findClosestRegion_spec rs index :
  onBoard index →
  ((∀ r c v, ¬ assignedAt rs r c v) → findClosestRegion rs index = 0)
  ∧ ∀ r2 c2 v2,
      assignedAt rs r2 c2 v2 →
      ∃ r1 c1,
        assignedAt rs r1 c1 (findClosestRegion rs index)
        ∧ ∀ r3 c3 v3,
            assignedAt rs r3 c3 v3 →
            chebyshev (index / gridSize) (index mod gridSize) r1 c1
            ≤ Z.max 1 (chebyshev (index / gridSize) (index mod gridSize) r3 c3).
Proof.
  intros [Hr Hc]%onBoard_div_mod. unfold findClosestRegion.
  set (r := index / gridSize) in *. set (c := index mod gridSize) in *.
  destruct (firstAssigned_split rs r c ringOffsets)
    as [[Hnone Hzero]|(before & dr & dc & after & Hsplit & Hbefore & Hhit)].
  - split; [done|]. intros r2 c2 v2 Hass. exfalso.
    apply (Hnone (r2 - r) (c2 - c) v2).
    + rewrite ringOffsets_unfold. apply elem_of_rings.
      destruct Hass as (H1 & H2 & _). exists 7. unfold gridSize in *. lia.
    + by replace (r + (r2 - r)) with r2 by lia; replace (c + (c2 - c)) with c2 by lia.
  - split.
    { intros Hno. by destruct (Hno _ _ _ Hhit). }
    intros _ _ _ _. exists (r + dr), (c + dc). split; [done|].
    intros r3 c3 v3 Hass. unfold chebyshev.
    set (m := Z.max 1 (Z.max (Z.abs (r - r3)) (Z.abs (c - c3)))).
    destruct (Z_le_gt_dec (Z.max (Z.abs (r - (r + dr))) (Z.abs (c - (c + dc)))) m)
      as [|Hfar]; [done|exfalso].
    assert (Hm : 0 ≤ m ≤ gridSize - 1).
    { destruct Hass as (H1 & H2 & _). unfold gridSize in *. lia. }
    apply (Hbefore (r3 - r) (c3 - c) v3).
    2:{ by replace (r + (r3 - r)) with r3 by lia;
          replace (c + (c3 - c)) with c3 by lia. }
    rewrite (ringOffsets_split m Hm) in Hsplit.
    assert (Hnear : (r3 - r, c3 - c) ∈ seqZ 1 m ≫= square).
    { apply elem_of_rings. exists m. lia. }
    assert (Hout : (dr, dc) ∉ seqZ 1 m ≫= square).
    { intros (d & Hd & Hin)%elem_of_rings. lia. }
    apply app_eq_inv in Hsplit as [(k & Heq & Hk)|(k & Heq & _)].
    + destruct k as [|o k].
      * rewrite app_nil_r in Heq. by rewrite <- Heq.
      * injection Hk as <- _. destruct Hout. rewrite Heq.
        apply elem_of_app. right. by left.
    + rewrite Heq. apply elem_of_app. by left.
Qed.

(** X16: on a regions array of [gridSize * gridSize] entries and for a
    cell of the board, [findClosestRegion] returns 0 when no cell is
    assigned; otherwise it returns the region of an assigned cell that
    is nearest in the larger of the row and column distances, among the
    assigned cells at distance 1 or more (the cell itself is scanned
    with the ring of distance 1). *)
Theorem findClosestRegion_nearest (rs : list Z) (index : Z) :
  Z.of_nat (length rs) = gridSize * gridSize →
  onBoard index →
  ((∀ r c v, ¬ assignedAt rs r c v) → findClosestRegion rs index = 0)
  ∧ ∀ r2 c2 v2,
      assignedAt rs r2 c2 v2 →
      ∃ r1 c1,
        assignedAt rs r1 c1 (findClosestRegion rs index)
        ∧ ∀ r3 c3 v3,
            assignedAt rs r3 c3 v3 →
            chebyshev (index / gridSize) (index mod gridSize) r1 c1
            ≤ Z.max 1 (chebyshev (index / gridSize) (index mod gridSize) r3 c3).
Proof. intros _. apply findClosestRegion_spec. Qed.

Lemma findClosestRegion_nearest_witness :
  ∃ r1 c1,
    assignedAt uniqueRegions r1 c1 (findClosestRegion uniqueRegions 63)
    ∧ ∀ r3 c3 v3,
        assignedAt uniqueRegions r3 c3 v3 →
        chebyshev (63 / gridSize) (63 mod gridSize) r1 c1
        ≤ Z.max 1 (chebyshev (63 / gridSize) (63 mod gridSize) r3 c3).
Proof.
  refine (proj2 (findClosestRegion_nearest uniqueRegions 63 _ _) 0 0 0 _).
  - reflexivity.
  - unfold onBoard, gridSize. lia.
  - unfold assignedAt, gridSize. split; [lia|]. split; [lia|]. split; [reflexivity|lia].
Defined.

(** ** The stall fill *)

Lemma stallStep_more st i :
  Forall (fun v => -1 ≤ v < gridSize) (g_regions st) →
  unassignedCount st = Z.of_nat (unclaimed (g_regions st)) →
  unassignedCount (stallStep st i) = Z.of_nat (unclaimed (g_regions (stallStep st i)))
  ∧ queues (stallStep st i) = queues st
  ∧ addedThisRound (stallStep st i) = addedThisRound st
  ∧ ∀ j v, regionAt (g_regions st) j = Some v → v ≠ -1 →
           regionAt (g_regions (stallStep st i)) j = Some v.
Proof.
  intros Hrange Hcount. unfold stallStep.
  destruct (decide (regionAt (g_regions st) i = Some (-1))) as [Hfree|Hfilled];
    [|done].
  cbn [g_regions queues unassignedCount addedThisRound].
  pose proof (firstAssigned_range (g_regions st) (i / gridSize) (i mod gridSize)
                ringOffsets Hrange) as Hv.
  fold (findClosestRegion (g_regions st) i) in Hv.
  split; [|split; [done|split; [done|]]].
  - pose proof (unclaimed_setRegion (g_regions st) i
                  (findClosestRegion (g_regions st) i) Hfree). lia.
  - intros j v Hj Hne. rewrite regionAt_setRegion_ne; [done|]. congruence.
Qed.

Lemma seeded_nil rs : seeded [] rs.
Proof. intros k p Hk. by rewrite lookup_nil in Hk. Qed.

Lemma stallFill_fold_more indices :
  ∀ st,
    Z.of_nat (length (g_regions st)) = gridSize * gridSize →
    Forall (fun v => -1 ≤ v < gridSize) (g_regions st) →
    unassignedCount st = Z.of_nat (unclaimed (g_regions st)) →
    unassignedCount (foldl stallStep st indices)
    = Z.of_nat (unclaimed (g_regions (foldl stallStep st indices)))
    ∧ queues (foldl stallStep st indices) = queues st
    ∧ addedThisRound (foldl stallStep st indices) = addedThisRound st
    ∧ ∀ j v, regionAt (g_regions st) j = Some v → v ≠ -1 →
             regionAt (g_regions (foldl stallStep st indices)) j = Some v.
Proof.
  induction indices as [|i indices IH]; intros st Hlen Hrange Hcount; cbn [foldl];
    [done|].
  destruct (stallStep_more st i Hrange Hcount) as (Hcount1 & Hq1 & Hf1 & Hkeep1).
  destruct (stallStep_spec [] st i Hlen (seeded_nil _) Hrange)
    as ((Hlen1 & _ & Hrange1) & _).
  destruct (IH (stallStep st i) Hlen1 Hrange1 Hcount1) as (Hcount2 & Hq2 & Hf2 & Hkeep2).
  split; [done|]. split; [congruence|]. split; [congruence|].
  intros j v Hj Hne. apply Hkeep2; [|done]. by apply Hkeep1.
Qed.

Lemma stallFill_unfold st :
  stallFill st = foldl stallStep st (seqZ 0 (gridSize * gridSize)).
Proof. reflexivity. Qed.

(** X17: entered with the state the growth loop holds, the stall fill
    leaves every assigned cell in its region, gives every other cell of
    the board a region [0 .. gridSize - 1], brings [unassignedCount] to
    zero and does not touch the queues. *)
Theorem stallFill_spec (sol : list Pos) (st : Growth) :
  growthInv sol st →
  (∀ j v, regionAt (g_regions st) j = Some v → v ≠ -1 →
          regionAt (g_regions (stallFill st)) j = Some v)
  ∧ (∀ i, onBoard i →
          ∃ v, regionAt (g_regions (stallFill st)) i = Some v ∧ 0 ≤ v < gridSize)
  ∧ unassignedCount (stallFill st) = 0
  ∧ queues (stallFill st) = queues st.
Proof.
  intros [Hlen Hseed Hrange Hcount _ _]. rewrite stallFill_unfold.
  destruct (stallFill_fold_more (seqZ 0 (gridSize * gridSize)) st Hlen Hrange Hcount)
    as (Hcount' & Hq & _ & Hkeep).
  destruct (stallFill_fold sol (seqZ 0 (gridSize * gridSize)) st Hlen Hseed Hrange)
    as ((Hlen' & _ & Hrange') & _ & Hall).
  assert (Hmap : regionMap (g_regions (foldl stallStep st (seqZ 0 (gridSize * gridSize))))).
  { apply regionMap_of_filled; [done|done|].
    intros i Hi. apply Hall, elem_of_seqZ. unfold onBoard in Hi. lia. }
  split; [exact Hkeep|]. split; [|split; [|exact Hq]].
  - intros i [Hi0 Hi1]. rewrite regionAt_lookup by done.
    destruct (g_regions _ !! Z.to_nat i) as [v|] eqn:Hv.
    + exists v. split; [done|]. apply (proj2 Hmap). apply list_elem_of_lookup. eauto.
    + apply lookup_ge_None in Hv. lia.
  - rewrite Hcount'. unfold unclaimed. rewrite countIf_false; [done|].
    intros v Hv%(proj2 Hmap). apply bool_decide_eq_false. lia.
Qed.

Lemma stallFill_spec_witness :
  unassignedCount (stallFill (initialGrowth generateFallbackSolution)) = 0
  ∧ queues (stallFill (initialGrowth generateFallbackSolution))
    = queues (initialGrowth generateFallbackSolution).
Proof.
  destruct (stallFill_spec generateFallbackSolution
              (initialGrowth generateFallbackSolution)
              (initialGrowth_inv _ generateFallbackSolution_onBoard))
    as (_ & _ & Hcount & Hq).
  split; [exact Hcount|exact Hq].
Defined.

(** ** Balancing the regions *)

Lemma elem_of_setAdd l x y : y ∈ setAdd l x ↔ y ∈ l ∨ y = x.
Proof.
  unfold setAdd. destruct (decide (x ∈ l)) as [Hin|Hout].
  - split; [by left|]. by intros [?| ->].
  - by rewrite elem_of_app, list_elem_of_singleton.
Qed.

Lemma NoDup_setAdd l x : NoDup l → NoDup (setAdd l x).
Proof.
  intros Hnd. unfold setAdd. destruct (decide (x ∈ l)); [done|].
  by apply NoDup_snoc.
Qed.

Lemma getNeighborRegions_elem rs r c x :
  x ∈ getNeighborRegions rs r c ↔
  (0 < r ∧ x = regionAt rs (cellIndex (r - 1) c))
  ∨ (r < gridSize - 1 ∧ x = regionAt rs (cellIndex (r + 1) c))
  ∨ (0 < c ∧ x = regionAt rs (cellIndex r (c - 1)))
  ∨ (c < gridSize - 1 ∧ x = regionAt rs (cellIndex r (c + 1))).
Proof.
  unfold getNeighborRegions.
  destruct (Z.ltb_spec 0 r), (Z.ltb_spec r (gridSize - 1)),
           (Z.ltb_spec 0 c), (Z.ltb_spec c (gridSize - 1));
    rewrite ?elem_of_setAdd, ?elem_of_nil; intuition lia.
Qed.

Lemma getNeighborRegions_NoDup rs r c : NoDup (getNeighborRegions rs r c).
Proof.
  unfold getNeighborRegions.
  destruct (0 <? r), (r <? gridSize - 1), (0 <? c), (c <? gridSize - 1);
    repeat apply NoDup_setAdd; apply NoDup_nil_2.
Qed.

Lemma getNeighborRegions_adjacent rs r c x :
  0 ≤ r < gridSize → 0 ≤ c < gridSize →
  (x ∈ getNeighborRegions rs r c ↔
   ∃ j, onBoard j ∧ adjacent4 (cellIndex r c) j ∧ x = regionAt rs j).
Proof.
  intros Hr Hc. rewrite getNeighborRegions_elem. split.
  - intros Hx.
    assert (Hn : ∃ n, n ∈ neighbors4 r c ∧ outOfBounds (row n) (col n) = false
                      ∧ x = regionAt rs (cellIndex (row n) (col n))).
    { destruct Hx as [[H ->]|[[H ->]|[[H ->]|[H ->]]]].
      - exists (mkPos (r - 1) c). split; [by left|].
        split; [apply outOfBounds_false; cbn; lia|done].
      - exists (mkPos (r + 1) c). split; [by right; left|].
        split; [apply outOfBounds_false; cbn; lia|done].
      - exists (mkPos r (c - 1)). split; [by right; right; left|].
        split; [apply outOfBounds_false; cbn; lia|done].
      - exists (mkPos r (c + 1)). split; [by right; right; right; left|].
        split; [apply outOfBounds_false; cbn; lia|done]. }
    destruct Hn as (n & Hn & Hb & ->).
    exists (cellIndex (row n) (col n)).
    assert (Hon : onBoard (cellIndex (row n) (col n))).
    { apply outOfBounds_false in Hb as [? ?]. by apply onBoard_cellIndex. }
    split; [done|]. split; [|done].
    apply (adjacent4_neighbors4 r c _ Hr Hc Hon). by exists n.
  - intros (j & Hj & Hadj & ->).
    apply (adjacent4_neighbors4 r c j Hr Hc Hj) in Hadj as (n & Hn & Hb & ->).
    apply outOfBounds_false in Hb as [Hnr Hnc].
    unfold neighbors4 in Hn.
    repeat (apply elem_of_cons in Hn as [->|Hn]); cbn [row col] in *;
      [| | | |by apply elem_of_nil in Hn].
    + left. split; [lia|done].
    + right. left. split; [lia|done].
    + right. right. left. split; [lia|done].
    + right. right. right. split; [lia|done].
Qed.

(** X18: for a cell of the board [getNeighborRegions] lists, without
    repetition, exactly the entries of [regions] at the cells that share
    an edge with it. *)
Theorem getNeighborRegions_spec (rs : list Z) (r c : Z) (x : option Z) :
  0 ≤ r < gridSize → 0 ≤ c < gridSize →
  NoDup (getNeighborRegions rs r c)
  ∧ (x ∈ getNeighborRegions rs r c ↔
     ∃ j, onBoard j ∧ adjacent4 (cellIndex r c) j ∧ x = regionAt rs j).
Proof.
  intros Hr Hc. split; [apply getNeighborRegions_NoDup|].
  by apply getNeighborRegions_adjacent.
Qed.

Lemma getNeighborRegions_spec_witness :
  NoDup (getNeighborRegions uniqueRegions 2 1)
  ∧ (Some 2 ∈ getNeighborRegions uniqueRegions 2 1 ↔
     ∃ j, onBoard j ∧ adjacent4 (cellIndex 2 1) j ∧ Some 2 = regionAt uniqueRegions j).
Proof.
  apply (getNeighborRegions_spec uniqueRegions 2 1 (Some 2)); unfold gridSize; lia.
Defined.

(** *** Region sizes *)

Lemma regionAt_bumpSize sizes r d r' :
  regionAt (bumpSize sizes r d) r'
  = if decide (r = r') then (fun n => n + d) <$> regionAt sizes r'
    else regionAt sizes r'.
Proof.
  unfold bumpSize, regionAt.
  destruct (Z.leb_spec 0 r) as [Hr|Hr], (Z.leb_spec 0 r') as [Hr'|Hr'];
    destruct (decide (r = r')) as [->|Hne]; try done; try lia.
  - apply list_lookup_alter_eq.
  - apply list_lookup_alter_ne. lia.
Qed.

Lemma length_bumpSize sizes r d : length (bumpSize sizes r d) = length sizes.
Proof. unfold bumpSize. destruct (0 <=? r); [apply length_alter|done]. Qed.

Lemma sizeOf_cons v rs r :
  sizeOf (v :: rs) r = (if decide (v = r) then 1 else 0) + sizeOf rs r.
Proof.
  unfold sizeOf. cbn [countIf].
  destruct (decide (v = r)) as [->|Hne].
  - rewrite bool_decide_eq_true_2 by done. lia.
  - rewrite bool_decide_eq_false_2 by done. lia.
Qed.

Lemma countSizes_fold rs :
  ∀ sizes r,
    regionAt (foldl (fun sizes v => bumpSize sizes v 1) sizes rs) r
    = (fun n => n + sizeOf rs r) <$> regionAt sizes r.
Proof.
  induction rs as [|v rs IH]; intros sizes r; cbn [foldl].
  - destruct (regionAt sizes r) as [n|]; cbn; [|done]. f_equal. unfold sizeOf. cbn. lia.
  - rewrite IH, regionAt_bumpSize, sizeOf_cons.
    destruct (decide (v = r)) as [Heq|Hne]; destruct (regionAt sizes r) as [m|]; cbn;
      try done; f_equal; lia.
Qed.

Lemma length_countSizes_fold rs :
  ∀ sizes, length (foldl (fun sizes v => bumpSize sizes v 1) sizes rs) = length sizes.
Proof.
  induction rs as [|v rs IH]; intros sizes; cbn [foldl]; [done|].
  by rewrite IH, length_bumpSize.
Qed.

Lemma countSizes_spec rs : sizesOK rs (countSizes rs).
Proof.
  unfold countSizes. split.
  - rewrite length_countSizes_fold, length_replicate. unfold gridSize. lia.
  - intros r Hr. rewrite countSizes_fold, regionAt_lookup by lia.
    rewrite lookup_replicate_2 by (unfold gridSize in *; lia). done.
Qed.

Lemma sizeOf_setRegion rs i cur nb r :
  regionAt rs i = Some cur →
  sizeOf (setRegion rs i nb) r
  = sizeOf rs r - (if decide (cur = r) then 1 else 0)
    + (if decide (nb = r) then 1 else 0).
Proof.
  intros Hi. unfold regionAt, setRegion in *. destruct (0 <=? i); [|done].
  pose proof (countIf_insert (fun v => bool_decide (v = r)) rs (Z.to_nat i) cur nb Hi)
    as Hc.
  cbn beta in Hc. unfold sizeOf.
  destruct (decide (cur = r)) as [H1|H1], (decide (nb = r)) as [H2|H2];
    rewrite ?(bool_decide_eq_true_2 (cur = r)), ?(bool_decide_eq_true_2 (nb = r)),
            ?(bool_decide_eq_false_2 (cur = r)), ?(bool_decide_eq_false_2 (nb = r))
      in Hc by done; lia.
Qed.

Lemma sizesOK_move rs sizes i cur nb :
  sizesOK rs sizes → regionAt rs i = Some cur → nb ≠ cur →
  sizesOK (setRegion rs i nb) (bumpSize (bumpSize sizes cur (-1)) nb 1).
Proof.
  intros [Hlen Hsizes] Hi Hne. split; [by rewrite !length_bumpSize|].
  intros r Hr. rewrite !regionAt_bumpSize, (Hsizes r Hr), (sizeOf_setRegion rs i cur nb r Hi).
  destruct (decide (nb = r)), (decide (cur = r)); cbn; f_equal; lia.
Qed.

Lemma sizesCloser_refl rs : sizesCloser rs rs.
Proof. intros r. lia. Qed.

Lemma sizesCloser_trans rs1 rs2 rs3 :
  sizesCloser rs1 rs2 → sizesCloser rs2 rs3 → sizesCloser rs1 rs3.
Proof. intros H12 H23 r. specialize (H12 r). specialize (H23 r). lia. Qed.

Lemma moveStep_sizesCloser sol rs rs' : moveStep sol rs rs' → sizesCloser rs rs'.
Proof.
  intros (i & cur & nb & j & _ & Hi & Hne & _ & _ & _ & Hbig & Hsmall & -> & _) r.
  rewrite (sizeOf_setRegion rs i cur nb r Hi).
  destruct (decide (cur = r)) as [->|], (decide (nb = r)) as [->|]; lia.
Qed.

(** *** Moves keep the puzzle *)

Lemma moveStep_regionMap sol rs rs' :
  regionMap rs → moveStep sol rs rs' → regionMap rs'.
Proof.
  intros [Hlen Hrange] (i & cur & nb & j & _ & _ & _ & [_ Hj] & _ & _ & _ & _ & -> & _).
  split; [by rewrite length_setRegion|].
  apply Forall_forall. apply range_setRegion; [by apply Forall_forall|].
  apply Hrange. unfold regionAt in Hj. destruct (0 <=? j); [|done].
  apply list_elem_of_lookup. eauto.
Qed.

Lemma moveStep_seeded sol rs rs' :
  solutionOnBoard sol → seeded sol rs → moveStep sol rs rs' → seeded sol rs'.
Proof.
  intros (_ & Hon & _) Hseed (i & cur & nb & j & _ & _ & _ & _ & _ & Hfree & _ & _ & -> & _).
  intros k p Hk. rewrite regionAt_setRegion_ne; [by apply Hseed|].
  intros Heq. apply Hfree. rewrite Heq.
  assert (Hp : p ∈ sol) by (apply list_elem_of_lookup; eauto).
  destruct (Hon p Hp) as [Hr Hc]. unfold cellOf.
  rewrite cellIndex_div, cellIndex_mod by done. by destruct p.
Qed.

Lemma moveStep_connected sol rs rs' r :
  moveStep sol rs rs' → regionConnected rs r → regionConnected rs' r.
Proof.
  intros (i & cur & nb & j & Hi & Hcur & Hne & Hj & Hadj & _ & _ & _ & -> & Hconn) Hr.
  destruct (decide (r = cur)) as [->|Hrc]; [done|].
  destruct (decide (r = nb)) as [->|Hrn].
  - by apply (regionConnected_setRegion_grow rs j i cur nb).
  - apply (regionConnected_setRegion_other rs i cur nb r); [done|congruence|congruence|done].
Qed.

Lemma moveSteps_keep sol rs rs' :
  solutionOnBoard sol → rtc (moveStep sol) rs rs' →
  grownFrom sol rs →
  grownFrom sol rs'
  ∧ (∀ r, regionConnected rs r → regionConnected rs' r)
  ∧ sizesCloser rs rs'.
Proof.
  intros Hsol. induction 1 as [rs|rs rs1 rs2 Hstep _ IH]; intros [Hmap Hseed].
  { split; [by split|]. split; [done|apply sizesCloser_refl]. }
  destruct IH as (Hgrown & Hconn & Hsizes).
  { split; [by eapply moveStep_regionMap|by eapply moveStep_seeded]. }
  split; [done|]. split.
  - intros r Hr. apply Hconn. by eapply moveStep_connected.
  - apply (sizesCloser_trans rs rs1 rs2); [by eapply moveStep_sizesCloser|done].
Qed.

(** *** The loops of [balanceRegions] *)

Lemma tryNeighbors_cons_Some sol i cur r c nb rest rs sizes :
  tryNeighbors sol i cur r c (Some nb :: rest) rs sizes
  = match regionAt sizes nb with
    | Some neighborSize =>
        if negb (bool_decide (nb = cur)) && (neighborSize <? targetSize)
        then
          if existsb (atCell r c) sol
          then tryNeighbors sol i cur r c rest rs sizes
          else
            connected ← isRegionConnected (setRegion rs i nb) cur;
            if connected : bool
            then Some (setRegion rs i nb,
                       bumpSize (bumpSize sizes cur (-1)) nb 1, true)
            else tryNeighbors sol i cur r c rest rs sizes
        else tryNeighbors sol i cur r c rest rs sizes
    | None => tryNeighbors sol i cur r c rest rs sizes
    end.
Proof. reflexivity. Qed.

Lemma labelled_range rs r j : regionMap rs → labelled rs r j → 0 ≤ r < gridSize.
Proof.
  intros [_ Hrange] [_ Hj]. apply Hrange. unfold regionAt in Hj.
  destruct (0 <=? j); [|done]. apply list_elem_of_lookup. eauto.
Qed.

Lemma tryNeighbors_spec sol i cur neighbors rs sizes :
  onBoard i → regionAt rs i = Some cur →
  regionMap rs → sizesOK rs sizes → targetSize < sizeOf rs cur →
  (∀ nb, Some nb ∈ neighbors → ∃ j, labelled rs nb j ∧ adjacent4 j i) →
  ∃ rs' sizes' moved,
    tryNeighbors sol i cur (i / gridSize) (i mod gridSize) neighbors rs sizes
    = Some (rs', sizes', moved)
    ∧ ((rs' = rs ∧ sizes' = sizes) ∨ (moveStep sol rs rs' ∧ sizesOK rs' sizes')).
Proof.
  intros Hi Hcur Hmap Hsizes Hbig.
  induction neighbors as [|[nb|] rest IH]; intros Hadj.
  - exists rs, sizes, false. split; [done|by left].
  - assert (Hrest : ∃ rs' sizes' moved,
              tryNeighbors sol i cur (i / gridSize) (i mod gridSize) rest rs sizes
              = Some (rs', sizes', moved)
              ∧ ((rs' = rs ∧ sizes' = sizes)
                 ∨ (moveStep sol rs rs' ∧ sizesOK rs' sizes'))).
    { apply IH. intros nb' Hnb'. apply Hadj. by right. }
    destruct (Hadj nb) as (j & Hj & Hji); [by left|].
    pose proof (labelled_range rs nb j Hmap Hj) as Hnb.
    rewrite tryNeighbors_cons_Some, (proj2 Hsizes nb Hnb).
    destruct (bool_decide (nb = cur)) eqn:Hne; [done|]. cbn [negb andb].
    apply bool_decide_eq_false in Hne.
    destruct (Z.ltb_spec (sizeOf rs nb) targetSize) as [Hsmall|]; [|done].
    destruct (existsb (atCell (i / gridSize) (i mod gridSize)) sol) eqn:Hsol; [done|].
    destruct (isRegionConnected_spec (setRegion rs i nb) cur) as (b & -> & Hb).
    cbn [mbind option_bind]. destruct b; [|done].
    eexists _, _, _. split; [done|]. right. split; [|by apply sizesOK_move].
    exists i, cur, nb, j. split; [done|]. split; [done|]. split; [done|].
    split; [done|]. split; [done|]. split.
    { intros Hin%existsb_atCell. congruence. }
    split; [done|]. split; [done|]. split; [done|by apply Hb].
  - apply IH. intros nb' Hnb'. apply Hadj. by right.
Qed.

Lemma balanceCell_spec sol rs sizes changed i :
  onBoard i → regionMap rs → sizesOK rs sizes →
  ∃ rs' sizes' changed',
    balanceCell sol rs sizes changed i = Some (rs', sizes', changed')
    ∧ ((rs' = rs ∧ sizes' = sizes) ∨ (moveStep sol rs rs' ∧ sizesOK rs' sizes')).
Proof.
  intros Hi Hmap Hsizes. unfold balanceCell.
  destruct (regionAt rs i) as [cur|] eqn:Hcur; [|by eexists _, _, _; split; [|left]].
  assert (Hrange : 0 ≤ cur < gridSize) by (by apply (labelled_range rs cur i Hmap)).
  rewrite (proj2 Hsizes cur Hrange).
  destruct (Z.ltb_spec targetSize (sizeOf rs cur)) as [Hbig|];
    [|by eexists _, _, _; split; [|left]].
  destruct (tryNeighbors_spec sol i cur
              (getNeighborRegions rs (i / gridSize) (i mod gridSize)) rs sizes
              Hi Hcur Hmap Hsizes Hbig)
    as (rs' & sizes' & moved & -> & Hstep).
  - intros nb Hnb. pose proof Hi as [Hr Hc]%onBoard_div_mod.
    apply (getNeighborRegions_adjacent rs _ _ (Some nb) Hr Hc) in Hnb
      as (j & Hj & Hadj & Heq).
    rewrite <- cellIndex_decompose in Hadj.
    exists j. split; [by split|]. by apply adjacent4_sym.
  - cbn [mbind option_bind]. by eexists _, _, _.
Qed.

Lemma balancePass_spec sol cells :
  (∀ i, i ∈ cells → onBoard i) →
  ∀ rs sizes changed,
    regionMap rs → sizesOK rs sizes →
    ∃ rs' sizes' changed',
      balancePass sol cells rs sizes changed = Some (rs', sizes', changed')
      ∧ rtc (moveStep sol) rs rs' ∧ regionMap rs' ∧ sizesOK rs' sizes'.
Proof.
  induction cells as [|i cells IH]; intros Hcells rs sizes changed Hmap Hsizes;
    cbn [balancePass].
  - by eexists _, _, _.
  - destruct (balanceCell_spec sol rs sizes changed i) as (rs1 & sizes1 & changed1 & -> & Hstep);
      [apply Hcells; by left|done|done|].
    cbn [mbind option_bind].
    assert (Hinv1 : regionMap rs1 ∧ sizesOK rs1 sizes1 ∧ rtc (moveStep sol) rs rs1).
    { destruct Hstep as [[-> ->]|[Hstep Hsizes1]]; [done|].
      split; [by eapply moveStep_regionMap|]. split; [done|by apply rtc_once]. }
    destruct Hinv1 as (Hmap1 & Hsizes1 & Hrtc1).
    destruct (IH (λ j Hj, Hcells j (list_elem_of_further _ _ _ Hj))
                rs1 sizes1 changed1 Hmap1 Hsizes1)
      as (rs' & sizes' & changed' & -> & Hrest & Hmap' & Hsizes').
    eexists _, _, _. split; [done|]. split; [by etrans|done].
Qed.

Lemma balanceAttempts_S n sol rs sizes :
  balanceAttempts (S n) sol rs sizes
  = '(rs', sizes', changed) ←
      balancePass sol (seqZ 0 (gridSize * gridSize)) rs sizes false;
    if changed : bool then balanceAttempts n sol rs' sizes' else Some rs'.
Proof. reflexivity. Qed.

Lemma balanceAttempts_spec sol n :
  ∀ rs sizes,
    regionMap rs → sizesOK rs sizes →
    ∃ rs', balanceAttempts n sol rs sizes = Some rs' ∧ rtc (moveStep sol) rs rs'.
Proof.
  induction n as [|n IH]; intros rs sizes Hmap Hsizes.
  - by exists rs.
  - rewrite balanceAttempts_S.
    destruct (balancePass_spec sol (seqZ 0 (gridSize * gridSize)))
      with (rs := rs) (sizes := sizes) (changed := false)
      as (rs1 & sizes1 & changed1 & -> & Hpass & Hmap1 & Hsizes1); [|done|done|].
    { intros i Hi%elem_of_seqZ. unfold onBoard. lia. }
    cbn [mbind option_bind]. destruct changed1.
    + destruct (IH rs1 sizes1 Hmap1 Hsizes1) as (rs' & -> & Hrest). exists rs'.
      split; [done|]. by etrans.
    + by exists rs1.
Qed.

Lemma balanceRegions_unfold g :
  balanceRegions g
  = rs ← balanceAttempts 100 (solution g) (regions g) (countSizes (regions g));
    Some (set_regions g rs).
Proof. reflexivity. Qed.

(** X19: [balanceRegions] always returns, and it changes [regions]
    only by moves that keep the puzzle: every cell still lies in a
    region [0 .. gridSize - 1], the bean of row [k] still lies in region
    [k], every region that was 4-connected is 4-connected afterwards,
    and no region moves away from [targetSize] cells or across it (a
    region of at most [targetSize] cells does not shrink or grow past
    it, one of at least [targetSize] cells does not grow or shrink
    below it). *)
Theorem balanceRegions_safe (g : Game) :
  solutionOnBoard (solution g) →
  grownFrom (solution g) (regions g) →
  ∃ g', balanceRegions g = Some g'
    ∧ g' = set_regions g (regions g')
    ∧ rtc (moveStep (solution g)) (regions g) (regions g')
    ∧ grownFrom (solution g') (regions g')
    ∧ (∀ r, regionConnected (regions g) r → regionConnected (regions g') r)
    ∧ sizesCloser (regions g) (regions g').
Proof.
  intros Hsol Hgrown. rewrite balanceRegions_unfold.
  destruct (balanceAttempts_spec (solution g) 100 (regions g)
              (countSizes (regions g)) (proj1 Hgrown) (countSizes_spec _))
    as (rs' & -> & Hsteps).
  cbn [mbind option_bind]. eexists. split; [done|].
  cbn [set_regions regions solution]. split; [done|]. split; [done|].
  by apply moveSteps_keep.
Qed.

Lemma balanceRegions_safe_witness :
  ∃ g', balanceRegions (uniqueGame []) = Some g'
    ∧ grownFrom (solution g') (regions g').
Proof.
  destruct (balanceRegions_safe (uniqueGame [])) as (g' & Hrun & _ & _ & Hgrown & _ & _).
  - destruct (uniqueGame_generatedPuzzle []) as (Hgood & Hlen & Hcols & _).
    by apply goodPrefix_onBoard.
  - by destruct (uniqueGame_generatedPuzzle []) as (_ & _ & _ & Hgrown).
  - exists g'. split; [exact Hrun|exact Hgrown].
Defined.

(** ** Region borders *)

Lemma differs_sym rs i j :
  differs rs i (regionAt rs j) = differs rs j (regionAt rs i).
Proof.
  unfold differs. f_equal.
  destruct (decide (regionAt rs i = regionAt rs j)) as [Heq|Hne].
  - by rewrite !bool_decide_eq_true_2.
  - by rewrite !bool_decide_eq_false_2.
Qed.

(** X20: the borders [applyRegionBorders] draws agree across every
    shared edge: the bottom border of a cell is drawn exactly when the
    top border of the cell below is, and that is exactly when the two
    cells lie in different regions; likewise for the right border and
    the left border of the cell to the right. *)
Theorem applyRegionBorders_shared_edge (rs : list Z) (r c : Z) :
  (0 ≤ r < gridSize - 1 →
   borderBottom (applyRegionBorders rs r c)
   = borderTop (applyRegionBorders rs (r + 1) c)
   ∧ (borderBottom (applyRegionBorders rs r c) = true
      ↔ regionAt rs (cellIndex (r + 1) c) ≠ regionAt rs (cellIndex r c)))
  ∧ (0 ≤ c < gridSize - 1 →
     borderRight (applyRegionBorders rs r c)
     = borderLeft (applyRegionBorders rs r (c + 1))
     ∧ (borderRight (applyRegionBorders rs r c) = true
        ↔ regionAt rs (cellIndex r (c + 1)) ≠ regionAt rs (cellIndex r c))).
Proof.
  unfold applyRegionBorders.
  cbn [borderTop borderBottom borderLeft borderRight]. split.
  - intros Hr.
    rewrite (bool_decide_eq_false_2 (r = gridSize - 1)) by lia.
    rewrite (bool_decide_eq_false_2 (r + 1 = 0)) by lia. cbn [orb].
    replace (r + 1 - 1) with r by lia. split; [apply differs_sym|].
    unfold differs. rewrite negb_true_iff, bool_decide_eq_false. done.
  - intros Hc.
    rewrite (bool_decide_eq_false_2 (c = gridSize - 1)) by lia.
    rewrite (bool_decide_eq_false_2 (c + 1 = 0)) by lia. cbn [orb].
    replace (c + 1 - 1) with c by lia. split; [apply differs_sym|].
    unfold differs. rewrite negb_true_iff, bool_decide_eq_false. done.
Qed.

Lemma applyRegionBorders_shared_edge_witness :
  borderBottom (applyRegionBorders uniqueRegions 1 0)
  = borderTop (applyRegionBorders uniqueRegions (1 + 1) 0)
  ∧ (borderBottom (applyRegionBorders uniqueRegions 1 0) = true
     ↔ regionAt uniqueRegions (cellIndex (1 + 1) 0)
       ≠ regionAt uniqueRegions (cellIndex 1 0)).
Proof.
  apply (proj1 (applyRegionBorders_shared_edge uniqueRegions 1 0)).
  unfold gridSize. lia.
Defined.

(** ** A whole session *)

Lemma boardOK_empty g :
  beansPlaced g = [] → xMarkers g = [] → autoXMarkers g = [] → boardOK g.
Proof.
  intros Hb Hx Ha. split; rewrite ?Hb, ?Hx, ?Ha; cbn [fmap list_fmap length];
    try apply NoDup_nil_2; try (intros p Hp; by apply elem_of_nil in Hp).
  unfold gridSize. lia.
Qed.

Lemma act_frame g a :
  regions (act g a) = regions g ∧ solution (act g a) = solution g
  ∧ gameActive (act g a) = gameActive g.
Proof. destruct a as [chk r c t|]; [apply handleCellClick_frame|done]. Qed.

Lemma act_boardOK g a : boardOK g → boardOK (act g a).
Proof.
  intros Hok. destruct a as [chk r c t|];
    [by apply handleCellClick_boardOK|apply boardOK_clearBoard].
Qed.

Lemma play_keeps actions :
  ∀ g, boardOK g →
       boardOK (play g actions)
       ∧ regions (play g actions) = regions g
       ∧ solution (play g actions) = solution g
       ∧ gameActive (play g actions) = gameActive g.
Proof.
  unfold play. induction actions as [|a actions IH]; intros g Hok; cbn [foldl];
    [done|].
  destruct (IH (act g a) (act_boardOK g a Hok)) as (Hok' & Hr & Hs & Ha).
  destruct (act_frame g a) as (Hr1 & Hs1 & Ha1).
  split; [done|]. split; [congruence|]. split; congruence.
Qed.

Lemma generatedPuzzle_frame g g' :
  regions g' = regions g → solution g' = solution g →
  generatedPuzzle g → generatedPuzzle g'.
Proof. unfold generatedPuzzle. by intros -> ->. Qed.

(** X21: from the game [initializeGame] hands over, whatever cells the
    player clicks, with either button and the auto-fill box in either
    state, and however often the board is cleared, the board stays in
    order, the puzzle stays the one generated, and [checkSolution]
    congratulates exactly when the beans on the board are the beans of
    [solution]. *)
Theorem play_congratulates (rnd : nat → nat) (fuel : nat) (g g0 : Game)
    (cur cur0 : nat) (actions : list Action) :
  initializeGame rnd fuel g cur = Some (g0, cur0) →
  boardOK (play g0 actions)
  ∧ regions (play g0 actions) = regions g0
  ∧ solution (play g0 actions) = solution g0
  ∧ gameActive (play g0 actions) = true
  ∧ (shown (checkSolution (play g0 actions)).2 = Some Congratulations
     ↔ beanPos <$> beansPlaced (play g0 actions) ≡ₚ solution g0).
Proof.
  intros Hrun.
  destruct (initializeGame_generated rnd fuel g g0 cur cur0 Hrun)
    as (Hpuzzle & Hcount & Hactive & Hb & Hx & Ha).
  destruct (play_keeps actions g0 (boardOK_empty g0 Hb Hx Ha))
    as (Hok & Hr & Hs & Hact).
  split; [exact Hok|]. split; [exact Hr|]. split; [exact Hs|].
  split; [congruence|].
  assert (Hactive' : gameActive (play g0 actions) = true) by congruence.
  destruct (checkSolution_satisfiesAll _ Hactive') as [-> _].
  rewrite Hr.
  apply (unique_placement_regions g0); [done|].
  by apply countSolutions_one_unique.
Qed.

Lemma play_congratulates_witness :
  ∃ g0 cur0,
    initializeGame (sampleDraws 2) 23 emptyGame 0 = Some (g0, cur0)
    ∧ boardOK (play g0 [Click true 0 1 BeanClick; Click false 3 3 XClick; Clear])
    ∧ gameActive (play g0 [Click true 0 1 BeanClick; Click false 3 3 XClick; Clear])
      = true.
Proof.
  destruct (initializeGame (sampleDraws 2) 23 emptyGame 0) as [[g0 cur0]|] eqn:Hrun.
  - exists g0, cur0. split; [reflexivity|].
    destruct (play_congratulates _ _ _ _ _ _
                [Click true 0 1 BeanClick; Click false 3 3 XClick; Clear] Hrun)
      as (Hok & _ & _ & Hactive & _).
    split; [exact Hok|exact Hactive].
  - vm_compute in Hrun. discriminate Hrun.
Defined.

(** ** What the generators consume and ignore *)

(** X22: [generateRegionsFromSolution] never reads the regions array it
    is entered with.  For an attempt number below the maximum, two games
    with the same solution get the same regions, the same verdict and
    consume the same random draws, whatever their regions, beans and
    markers were. *)
Theorem generateRegionsFromSolution_fresh (rnd : nat → nat) (k : Z)
    (g1 g2 : Game) (cur : nat) :
  0 ≤ k < maxRegenerationAttempts →
  solution g1 = solution g2 →
  outcome (generateRegionsFromSolution rnd k g1 cur)
  = outcome (generateRegionsFromSolution rnd k g2 cur).
Proof. apply generateRegionsFromSolution_outcome. Qed.

Lemma generateRegionsFromSolution_fresh_witness :
  outcome (generateRegionsFromSolution (constantDraws 0) 0 sampleGame 0)
  = outcome (generateRegionsFromSolution (constantDraws 0) 0
               (set_regions sampleGame []) 0).
Proof.
  apply (generateRegionsFromSolution_fresh (constantDraws 0) 0 sampleGame
           (set_regions sampleGame []) 0); [|reflexivity].
  unfold maxRegenerationAttempts. lia.
Defined.

Lemma attempt_draws rnd cur : (attempt rnd cur).2 = (cur + 7)%nat.
Proof.
  unfold attempt.
  pose proof (shuffleFrom_spec rnd (length (seqZ 0 gridSize) - 1) (seqZ 0 gridSize) cur)
    as [_ Hcur].
  unfold shuffleArray. destruct (shuffleFrom rnd _ _ cur) as [shuffled cur'].
  cbn [snd] in *. rewrite Hcur. reflexivity.
Qed.

Lemma attemptLoop_draws rnd remaining :
  ∀ sol cur,
    ∃ n, (n ≤ remaining)%nat
         ∧ (attemptLoop rnd remaining sol cur).2 = (cur + 7 * n)%nat
         ∧ (Z.of_nat (length sol) < gridSize → (0 < remaining)%nat → (0 < n)%nat).
Proof.
  induction remaining as [|remaining IH]; intros sol cur; cbn [attemptLoop].
  - exists 0%nat. split; [lia|]. split; [cbn; lia|lia].
  - destruct (Z.ltb_spec (Z.of_nat (length sol)) gridSize) as [Hshort|Hfull].
    + pose proof (attempt_draws rnd cur) as Hdraws.
      destruct (attempt rnd cur) as [sol' cur']. cbn [snd] in Hdraws. subst cur'.
      destruct (IH sol' (cur + 7)%nat) as (n & Hn & Hcur & _).
      exists (S n). split; [lia|]. split; [rewrite Hcur; lia|lia].
    + exists 0%nat. split; [lia|]. split; [cbn; lia|lia].
Qed.

(** X23: [generateValidSolution] makes between 1 and [maxAttempts]
    attempts and each attempt draws exactly [gridSize - 1] random
    numbers (the shuffle of the columns): the position in the stream of
    draws advances by 7 times the number of attempts, so by at most
    7000. *)
Theorem generateValidSolution_draws (rnd : nat → nat) (g : Game) (cur : nat) :
  ∃ attempts : nat,
    (1 ≤ attempts ≤ maxAttempts)%nat
    ∧ (generateValidSolution rnd g cur).2 = (cur + 7 * attempts)%nat.
Proof.
  unfold generateValidSolution.
  destruct (attemptLoop_draws rnd maxAttempts [] cur) as (n & Hn & Hcur & Hpos).
  destruct (attemptLoop rnd maxAttempts [] cur) as [sol cur']. cbn [snd] in *.
  exists n. split; [|done]. split; [|done].
  apply Hpos; [unfold gridSize; cbn; lia|unfold maxAttempts; lia].
Qed.
